(** * llog: a leveled key/value logger, embedded from [llog.go]

    The development follows the source file top to bottom: severity
    levels and the threshold, attribute sets ([KV]) with [Merge] and
    the sorted list [kvL] built by [kvTo], the line writer
    [entry.printOut] with its short-circuiting [writeHelper], the relay
    goroutine started by [init], and the emit functions.

    Go strings are byte strings, so they are modelled by [string] (a list
    of 8-bit [ascii]).  [Level] is a Go [int], modelled by [Z]. *)

From Stdlib Require Import ZArith NArith Ascii String List Lia Permutation Sorted.
From stdpp Require Import gmap strings list fin_maps sorting pretty.

Open Scope Z_scope.

(** ** Severity levels *)

(** [type Level int] with the constants of the [iota] block. *)
Definition Level := Z.

Definition DebugLevel : Level := 0.
Definition InfoLevel  : Level := 1.
Definition WarnLevel  : Level := 2.
Definition ErrorLevel : Level := 3.
Definition FatalLevel : Level := 4.

(** [func (l Level) String() string] *)
Definition Level_String (l : Level) : string :=
  if l =? DebugLevel then "DEBUG"
  else if l =? InfoLevel then "INFO"
  else if l =? WarnLevel then "WARN"
  else if l =? ErrorLevel then "ERROR"
  else if l =? FatalLevel then "FATAL"
  else "unknown level".

(** The five names a level of the [iota] block prints as. *)
Definition level_names : list string :=
  ["DEBUG"; "INFO"; "WARN"; "ERROR"; "FATAL"].

Definition level_defined (l : Level) : Prop := DebugLevel <= l <= FatalLevel.

(** ** Bytes and the library string functions the source calls *)

Module Bytes.

Definition code (c : ascii) : N := N_of_ascii c.

Definition is_lower (c : ascii) : bool :=
  (97 <=? code c)%N && (code c <=? 122)%N.

(** [c -= 'a' - 'A'] on a lower-case letter, any other byte unchanged. *)
Definition upper (c : ascii) : ascii :=
  if is_lower c then ascii_of_N (code c - 32) else c.

(** [c < utf8.RuneSelf] *)
Definition is_ascii (c : ascii) : bool := (code c <? 128)%N.

Fixpoint all_ascii (s : string) : bool :=
  match s with
  | EmptyString => true
  | String c r => is_ascii c && all_ascii r
  end.

Fixpoint map (f : ascii -> ascii) (s : string) : string :=
  match s with
  | EmptyString => EmptyString
  | String c r => String (f c) (map f r)
  end.

(** [strconv]'s [lowerhex] table, indexed by a nibble. *)
Definition lowerhex (n : N) : ascii :=
  match n with
  | 0 => "0" | 1 => "1" | 2 => "2" | 3 => "3" | 4 => "4" | 5 => "5"
  | 6 => "6" | 7 => "7" | 8 => "8" | 9 => "9" | 10 => "a" | 11 => "b"
  | 12 => "c" | 13 => "d" | 14 => "e" | _ => "f"
  end%N%char.

(** Printable ASCII: [0x20 <= r < 0x7F], which is what [strconv.IsPrint]
    answers below [utf8.RuneSelf]. *)
Definition printable (c : ascii) : bool :=
  (32 <=? code c)%N && (code c <? 127)%N.

Fixpoint all_printable (s : string) : bool :=
  match s with
  | EmptyString => true
  | String c r => printable c && all_printable r
  end.

Fixpoint mem (c : ascii) (s : string) : bool :=
  match s with
  | EmptyString => false
  | String d r => if Ascii.eqb c d then true else mem c r
  end.

End Bytes.

(** *** UTF-8 decoding, as [utf8.DecodeRuneInString] does it *)

Definition RuneError : N := 0xFFFD.

(** The [first] and [acceptRanges] tables of package [utf8]: for a lead
    byte, the length of the sequence and the range its second byte must
    lie in; [None] for a byte that cannot start a sequence. *)
Definition utf8_first (s0 : N) : option (nat * N * N) :=
  (if s0 <? 0xC2 then None
   else if s0 <=? 0xDF then Some (2%nat, 0x80, 0xBF)
   else if s0 =? 0xE0 then Some (3%nat, 0xA0, 0xBF)
   else if s0 <=? 0xEC then Some (3%nat, 0x80, 0xBF)
   else if s0 =? 0xED then Some (3%nat, 0x80, 0x9F)
   else if s0 <=? 0xEF then Some (3%nat, 0x80, 0xBF)
   else if s0 =? 0xF0 then Some (4%nat, 0x90, 0xBF)
   else if s0 <=? 0xF3 then Some (4%nat, 0x80, 0xBF)
   else if s0 =? 0xF4 then Some (4%nat, 0x80, 0x8F)
   else None)%N.

(** A continuation byte: [locb <= c <= hicb]. *)
Definition utf8_cont (c : N) : bool := (0x80 <=? c)%N && (c <=? 0xBF)%N.

Definition DecodeRuneInString (s : string) : N * nat :=
  match s with
  | EmptyString => (RuneError, 0%nat)
  | String c0 t0 =>
    let s0 := Bytes.code c0 in
    if (s0 <? 0x80)%N then (s0, 1%nat)
    else match utf8_first s0, t0 with
    | Some (sz, lo, hi), String c1 t1 =>
      let s1 := Bytes.code c1 in
      if negb ((lo <=? s1)%N && (s1 <=? hi)%N) then (RuneError, 1%nat)
      else if (sz <=? 2)%nat
      then (N.lor (N.shiftl (N.land s0 0x1F) 6) (N.land s1 0x3F), 2%nat)
      else match t1 with
      | String c2 t2 =>
        let s2 := Bytes.code c2 in
        if negb (utf8_cont s2) then (RuneError, 1%nat)
        else if (sz <=? 3)%nat
        then (N.lor (N.shiftl (N.land s0 0x0F) 12)
                (N.lor (N.shiftl (N.land s1 0x3F) 6) (N.land s2 0x3F)), 3%nat)
        else match t2 with
        | String c3 _ =>
          let s3 := Bytes.code c3 in
          if negb (utf8_cont s3) then (RuneError, 1%nat)
          else (N.lor (N.shiftl (N.land s0 0x07) 18)
                  (N.lor (N.shiftl (N.land s1 0x3F) 12)
                     (N.lor (N.shiftl (N.land s2 0x3F) 6) (N.land s3 0x3F))),
                4%nat)
        | EmptyString => (RuneError, 1%nat)
        end
      | EmptyString => (RuneError, 1%nat)
      end
    | _, _ => (RuneError, 1%nat)
    end
  end.

(** *** [strconv.QuoteToASCII] *)

(** [utf8.ValidRune] *)
Definition ValidRune (r : N) : bool :=
  ((r <? 0xD800) || ((0xDFFF <? r) && (r <=? 0x10FFFF)))%N.

Definition hex_byte (b : N) : string :=
  String (Bytes.lowerhex (N.shiftr b 4))
    (String (Bytes.lowerhex (N.land b 0xF)) EmptyString).

(** [for s := top; s >= 0; s -= 4 { lowerhex[r>>uint(s)&0xF] }], with
    [digits] nibbles left to print. *)
Fixpoint hex_digits (digits : nat) (r : N) : string :=
  match digits with
  | O => EmptyString
  | S d =>
    String (Bytes.lowerhex (N.land (N.shiftr r (4 * N.of_nat d)) 0xF))
      (hex_digits d r)
  end.

(** The double quote, byte 34, and the single quote, byte 39. *)
Definition dquote : ascii := "034"%char.
Definition squote : ascii := "039"%char.

(** [appendEscapedRune] called with the double quote as [quote] and
    [ASCIIonly = true]. *)
Definition escapedRune (r : N) : string :=
  if ((r =? 34) || (r =? 92))%N then String "\" (String (ascii_of_N r) EmptyString)
  else if ((r <? 0x80) && (32 <=? r) && (r <? 127))%N
  then String (ascii_of_N r) EmptyString
  else if (r =? 7)%N then "\a"
  else if (r =? 8)%N then "\b"
  else if (r =? 12)%N then "\f"
  else if (r =? 10)%N then "\n"
  else if (r =? 13)%N then "\r"
  else if (r =? 9)%N then "\t"
  else if (r =? 11)%N then "\v"
  else if ((r <? 32) || (r =? 0x7F))%N then "\x" +:+ hex_byte r
  else if negb (ValidRune r) then "\u" +:+ hex_digits 4 RuneError
  else if (r <? 0x10000)%N then "\u" +:+ hex_digits 4 r
  else "\U" +:+ hex_digits 8 r.

Fixpoint skip (n : nat) (s : string) : string :=
  match n, s with
  | S m, String _ t => skip m t
  | _, _ => s
  end.

(** The loop of [appendQuotedWith]: one iteration per rune, each
    consuming [width >= 1] bytes, so [fuel = len(s)] iterations reach the
    end of the string. *)
Fixpoint quote_loop (fuel : nat) (s : string) : string :=
  match fuel, s with
  | S f, String c0 _ =>
    let '(r, width) := DecodeRuneInString s in
    (if (width =? 1)%nat && (r =? RuneError)%N
     then "\x" +:+ hex_byte (Bytes.code c0)
     else escapedRune r) +:+ quote_loop f (skip width s)
  | _, _ => EmptyString
  end.

Definition QuoteToASCII (s : string) : string :=
  String dquote (quote_loop (String.length s) s +:+ String dquote EmptyString).

(** *** [strings.Replace] and [fmt.Sprint] *)

(** [strings.Replace(s, old, new, -1)] for one-byte [old] and [new]:
    every occurrence of the byte is replaced. *)
Definition Replace (s : string) (old new : ascii) : string :=
  Bytes.map (fun c => if Ascii.eqb c old then new else c) s.

(** Go's [error] values, observed through their [Error()] text. *)
Inductive error : Type := errorString (text : string).

Definition Error_text (e : error) : string :=
  match e with errorString t => t end.

#[global] Instance error_eq_dec : EqDecision error.
Proof. solve_decision. Defined.

(** The dynamic values of an [interface{}] of a [KV]: the kinds met in
    practice, and [VOther] for a value of any other dynamic type, which
    the package only ever looks at through the text [fmt.Sprint] gives
    for it. *)
Inductive value : Type :=
| VNil
| VBool (b : bool)
| VInt (z : Z)
| VString (s : string)
| VError (e : error)
| VOther (text : string).

#[global] Instance value_eq_dec : EqDecision value.
Proof. solve_decision. Defined.

(** [fmt.Sprint] of one operand: [<nil>], [true]/[false], the decimal
    digits, the string itself, the [Error()] text, and for any other
    value its default text. *)
Definition Sprint (v : value) : string :=
  match v with
  | VNil => "<nil>"
  | VBool true => "true"
  | VBool false => "false"
  | VInt z => pretty z
  | VString s => s
  | VError e => Error_text e
  | VOther text => text
  end.

(** ** The threshold *)

Section Unicode.

(** Outside ASCII, [strings.ToUpper] maps every rune through Go's Unicode
    tables and [%q] consults them for printability.  The tables are not
    part of this repository; both functions are taken as given on
    strings that contain a byte above 127. *)
Variable unicode_ToUpper : string -> string.
Variable unicode_Quote : string -> string.

(** [strings.ToUpper]: the ASCII fast path, else the Unicode mapping. *)
Definition ToUpper (s : string) : string :=
  if Bytes.all_ascii s then Bytes.map Bytes.upper s else unicode_ToUpper s.

(** [strconv.Quote], the [%q] verb: on ASCII input it escapes exactly as
    [QuoteToASCII] does. *)
Definition Quote (s : string) : string :=
  if Bytes.all_ascii s then QuoteToASCII s else unicode_Quote s.

(** [GetLevel] and [SetLevel] on the package variable [currLevel]; the
    lock only protects the single read or write. *)
Definition GetLevel (currLevel : Level) : Level := currLevel.
Definition SetLevel (l : Level) (currLevel : Level) : Level := l.

(** [SetLevelFromString]: the new [currLevel] and the returned error. *)
Definition SetLevelFromString (ls : string) (currLevel : Level)
  : Level * option error :=
  let u := ToUpper ls in
  if String.eqb u "DEBUG" then (SetLevel DebugLevel currLevel, None)
  else if String.eqb u "INFO" then (SetLevel InfoLevel currLevel, None)
  else if String.eqb u "WARN" then (SetLevel WarnLevel currLevel, None)
  else if String.eqb u "ERROR" then (SetLevel ErrorLevel currLevel, None)
  else if String.eqb u "FATAL" then (SetLevel FatalLevel currLevel, None)
  else (currLevel, Some (errorString ("unknown log level " +:+ Quote ls))).

End Unicode.

(** ** Attribute sets *)

(** [type KV map[string]interface{}].  A Go map value may be [nil]; that
    is [None] here.  Reading or ranging over a nil map sees no entries. *)
Abbreviation KV := (option (gmap string value)).

Definition entries (kv : KV) : gmap string value := default ∅ kv.

(** The loop [for k, v := range m { kv[k] = v }], the map's entries
    being visited in the sequence [order].  Go leaves that sequence
    unspecified. *)
Definition range_insert (order : list (string * value))
  (kv : gmap string value) : gmap string value :=
  foldl (fun acc p => <[p.1 := p.2]> acc) kv order.

(** [func (kv KV) Copy() KV] *)
Definition Copy (kv : KV) : KV :=
  Some (range_insert (map_to_list (entries kv)) ∅).

(** [func Merge(kvs ...KV) KV] *)
Definition Merge (kvs : list KV) : KV :=
  Some (foldl (fun kv kvi => range_insert (map_to_list (entries kvi)) kv) ∅ kvs).

(** [func (kv KV) Set(k string, v interface{}) KV] *)
Definition Set_ (kv : KV) (k : string) (v : value) : KV :=
  Some (<[k := v]> (entries (Copy kv))).

(** [type kvE struct { K string; V interface{} }] and [type kvL []kvE] *)
Record kvE : Type := mkKvE { K : string; V : value }.

Abbreviation kvL := (list kvE).

(** [func (l kvL) Less(i, j int) bool], on the two elements compared:
    Go's [<] on strings is the byte-wise lexicographic order. *)
Definition Less (a b : kvE) : bool := String.ltb (K a) (K b).

(** The order [sort.Sort] establishes from [Less]: [a] may stand before
    [b] when [b] is not less than [a]. *)
Definition not_after (a b : kvE) : Prop := Less b a = false.

#[global] Instance not_after_dec : RelDecision not_after.
Proof. intros a b. unfold not_after. apply _. Defined.

(** [sort.Sort(kvl)]: the library sorts by [Less] alone; its result is
    modelled by a merge sort on that comparison. *)
Definition sort_Sort (l : kvL) : kvL := merge_sort not_after l.

(** The body of [kvTo] when the [range] loop visits the map's entries in
    the sequence [order]. *)
Definition kvTo_visit (order : list (string * value)) : kvL :=
  sort_Sort (foldl (fun kvl p => kvl ++ [mkKvE p.1 p.2]) [] order).

(** [func kvTo(kv KV) kvL] *)
Definition kvTo (kv : KV) : kvL := kvTo_visit (map_to_list (entries kv)).

(** [func kvNormalize(kvs ...KV) kvL] *)
Definition kvNormalize (kvs : list KV) : kvL := kvTo (Merge kvs).

(** ** Sinks *)

(** An [io.Writer] as the logger sees it: the bytes it has accepted, the
    outcome of each coming [Write] call ([Some err] when that call is
    going to fail; calls past the end of the script succeed), whether the
    dynamic type has a [Sync()] or a [Flush()] method, and how often
    each was called. *)
Record Writer : Type := mkWriter {
  w_data : string;
  w_script : list (option error);
  w_syncer : bool;
  w_flusher : bool;
  w_syncs : nat;
  w_flushes : nat
}.

(** [w.Write(b)]: a failing call stores nothing. *)
Definition Write (b : string) (w : Writer) : Writer * option error :=
  match w_script w with
  | Some err :: rest =>
    (mkWriter (w_data w) rest (w_syncer w) (w_flusher w) (w_syncs w) (w_flushes w),
     Some err)
  | None :: rest =>
    (mkWriter (w_data w +:+ b) rest (w_syncer w) (w_flusher w)
       (w_syncs w) (w_flushes w), None)
  | [] =>
    (mkWriter (w_data w +:+ b) [] (w_syncer w) (w_flusher w)
       (w_syncs w) (w_flushes w), None)
  end.

Definition Sync (w : Writer) : Writer :=
  mkWriter (w_data w) (w_script w) (w_syncer w) (w_flusher w)
    (S (w_syncs w)) (w_flushes w).

Definition Flush (w : Writer) : Writer :=
  mkWriter (w_data w) (w_script w) (w_syncer w) (w_flusher w)
    (w_syncs w) (S (w_flushes w)).

(** A sink none of whose coming writes fails. *)
Definition healthy (w : Writer) : Prop := Forall (fun o => o = None) (w_script w).

(** An empty [bytes.Buffer]: never fails, no [Sync()], no [Flush()]. *)
Definition Buffer : Writer := mkWriter "" [] false false 0 0.

(** ** Entries and the line writer *)

(** [type entry struct]; [blockCh] names the channel, [None] for [nil]. *)
Record entry : Type := mkEntry {
  level : Level;
  msg : string;
  kv : kvL;
  blockCh : option nat
}.

Definition prefix : string := "~ ".
Definition separator : string := " --".
Definition separatorSpace : string := separator +:+ " ".
Definition tsPrefix : string := "[".
Definition tsSuffix : string := "] ".
Definition space : string := " ".
Definition equals : string := "=".
Definition newline : string := String "010" "".

(** [func writeHelper(b []byte, w io.Writer, lastErr error) error], the
    writer's new state returned with the error. *)
Definition writeHelper (b : string) (st : Writer * option error)
  : Writer * option error :=
  match st.2 with
  | Some lastErr => (st.1, Some lastErr)
  | None => Write b st.1
  end.

(** One iteration of the loop over [e.kv]. *)
Definition printPair (st : Writer * option error) (kve : kvE)
  : Writer * option error :=
  let st := writeHelper space st in
  let st := writeHelper (K kve) st in
  let st := writeHelper equals st in
  let vstr := Sprint (V kve) in
  let vstr := Replace vstr dquote squote in
  let vstr := QuoteToASCII vstr in
  writeHelper vstr st.

(** [func (e entry) printOut(w io.Writer, displayTS bool) error];
    [now] is what [time.Now().String()] returns when it is called. *)
Definition printOut (e : entry) (w : Writer) (displayTS : bool) (now : string)
  : Writer * option error :=
  let st := (w, None) in
  let st := writeHelper prefix st in
  let st :=
    if displayTS
    then writeHelper tsSuffix (writeHelper now (writeHelper tsPrefix st))
    else st in
  let st := writeHelper (Level_String (level e)) st in
  let st := writeHelper separatorSpace st in
  let st := writeHelper (msg e) st in
  let st :=
    if (0 <? length (kv e))%nat
    then foldl printPair (writeHelper separator st) (kv e)
    else st in
  writeHelper newline st.

(** ** Package state and the relay *)

(** The package variables.  [Out] starts as [os.Stdout], the very object
    [defaultOut] names: [Out = None] is that aliased state, [Some w] a
    sink of its own.  [clock] gives the text of [time.Now()] at each
    reading and [ticks] counts the readings taken. *)
Record World : Type := mkWorld {
  currLevel : Level;
  Out : option Writer;
  defaultOut : Writer;
  DisplayTimestamp : bool;
  clock : nat -> string;
  ticks : nat
}.

(** The writer the variable [Out] currently denotes. *)
Definition out_writer (W : World) : Writer :=
  match Out W with
  | Some w => w
  | None => defaultOut W
  end.

Definition set_out (w : Writer) (W : World) : World :=
  match Out W with
  | Some _ =>
    mkWorld (currLevel W) (Some w) (defaultOut W) (DisplayTimestamp W)
      (clock W) (ticks W)
  | None =>
    mkWorld (currLevel W) None w (DisplayTimestamp W) (clock W) (ticks W)
  end.

Definition set_defaultOut (w : Writer) (W : World) : World :=
  mkWorld (currLevel W) (Out W) w (DisplayTimestamp W) (clock W) (ticks W).

Definition set_currLevel (l : Level) (W : World) : World :=
  mkWorld (SetLevel l (currLevel W)) (Out W) (defaultOut W)
    (DisplayTimestamp W) (clock W) (ticks W).

(** [time.Now()] is read once per [printOut], and only when the
    timestamp is displayed. *)
Definition tick (W : World) : World :=
  mkWorld (currLevel W) (Out W) (defaultOut W) (DisplayTimestamp W) (clock W)
    (if DisplayTimestamp W then S (ticks W) else ticks W).

(** [e.printOut(Out, DisplayTimestamp)] *)
Definition printOut_Out (e : entry) (W : World) : World * option error :=
  let r := printOut e (out_writer W) (DisplayTimestamp W) (clock W (ticks W)) in
  (tick (set_out r.1 W), r.2).

(** [e.printOut(defaultOut, DisplayTimestamp)] *)
Definition printOut_defaultOut (e : entry) (W : World) : World * option error :=
  let r := printOut e (defaultOut W) (DisplayTimestamp W) (clock W (ticks W)) in
  (tick (set_defaultOut r.1 W), r.2).

(** The entry the relay writes about a failed write. *)
Definition erre (err : error) : entry :=
  mkEntry ErrorLevel "Could not write to error Out"
    (kvTo (Some {[ "err" := VError err ]})) None.

(** [if err != nil && Out != defaultOut { ... }]: both results of
    [printOut] are dropped. *)
Definition relay_fallback (e : entry) (err : option error) (W : World) : World :=
  match err, Out W with
  | Some er, Some _ =>
    let W1 := (printOut_defaultOut (erre er) W).1 in
    (printOut_defaultOut e W1).1
  | _, _ => W
  end.

(** [if e.level == FatalLevel { ... }]: the type assertion to [syncer]
    comes first, the one to [flusher] in its [else]. *)
Definition relay_flush (e : entry) (W : World) : World :=
  if level e =? FatalLevel then
    if w_syncer (out_writer W) then set_out (Sync (out_writer W)) W
    else if w_flusher (out_writer W) then set_out (Flush (out_writer W)) W
    else W
  else W.

(** The three steps the relay takes on one entry before it closes the
    entry's channel. *)
Definition relay_body (e : entry) (W : World) : World :=
  let r := printOut_Out e W in
  relay_flush e (relay_fallback e r.2 r.1).

(** ** Emit functions and the two kinds of goroutine *)

(** [func logEntry(l Level, msg string, kvs []KV, blockCh chan struct{})]:
    the entry it sends on [entryCh], if any. *)
Definition logEntry (l : Level) (msg : string) (kvs : list KV)
  (blockCh : option nat) (W : World) : option entry :=
  if GetLevel (currLevel W) <=? l
  then Some (mkEntry l msg (kvNormalize kvs) blockCh)
  else None.

(** What a caller goroutine runs: the emit functions and [SetLevel]. *)
Inductive call : Type :=
| Debug (msg : string) (kvs : list KV)
| Info (msg : string) (kvs : list KV)
| Warn (msg : string) (kvs : list KV)
| Error (msg : string) (kvs : list KV)
| Fatal (msg : string) (kvs : list KV)
| CallSetLevel (l : Level).

(** Where a caller goroutine stands: before the calls of [prog]; inside
    [logEntry], blocked on [entryCh <- e], with what follows the send;
    inside [Fatal], blocked on [<-blockCh]; inside [Fatal], before
    [os.Exit(1)]. *)
Inductive caller : Type :=
| Running (prog : list call)
| Sending (e : entry) (next : caller)
| Waiting (ch : nat) (prog : list call)
| Exiting (prog : list call).

(** Where the relay goroutine stands in its loop body. *)
Inductive relay : Type :=
| RIdle
| RGot (e : entry)
| RPrinted (e : entry) (err : option error)
| RRecovered (e : entry)
| RFlushed (e : entry).

(** What the relay has done, in the order it did it. *)
Inductive event : Type :=
| EvPrintOut (e : entry) (err : option error)
| EvFallback (e : entry)
| EvFlush (e : entry)
| EvClose (e : entry).

(** The process: package state, the relay, the caller goroutines, the
    [blockCh] channels made so far ([0 .. chans-1]) and those closed, the
    relay's log, and the goroutine and status of [os.Exit] once called. *)
Record System : Type := mkSystem {
  world : World;
  worker : relay;
  callers : list caller;
  chans : nat;
  closed : gset nat;
  trace : list event;
  exited : option (nat * Z)
}.

Inductive actor : Type :=
| ARelay
| ACaller (i : nat).

#[global] Instance actor_eq_dec : EqDecision actor.
Proof. solve_decision. Defined.

Definition set_caller (i : nat) (c : caller) (st : System) : System :=
  mkSystem (world st) (worker st) (<[i := c]> (callers st)) (chans st)
    (closed st) (trace st) (exited st).

(** A non-fatal emit function: [logEntry(l, msg, kv, nil)]. *)
Definition emit (l : Level) (msg : string) (kvs : list KV) (prog : list call)
  (W : World) : caller :=
  match logEntry l msg kvs None W with
  | Some e => Sending e (Running prog)
  | None => Running prog
  end.

(** One step of caller goroutine [i]. *)
Definition caller_step (i : nat) (st : System) : option System :=
  match callers st !! i with
  | Some (Running (Debug m kvs :: p)) =>
    Some (set_caller i (emit DebugLevel m kvs p (world st)) st)
  | Some (Running (Info m kvs :: p)) =>
    Some (set_caller i (emit InfoLevel m kvs p (world st)) st)
  | Some (Running (Warn m kvs :: p)) =>
    Some (set_caller i (emit WarnLevel m kvs p (world st)) st)
  | Some (Running (Error m kvs :: p)) =>
    Some (set_caller i (emit ErrorLevel m kvs p (world st)) st)
  | Some (Running (Fatal m kvs :: p)) =>
    (* blockCh := make(chan struct{}); logEntry(FatalLevel, msg, kv, blockCh) *)
    let ch := chans st in
    let c := match logEntry FatalLevel m kvs (Some ch) (world st) with
             | Some e => Sending e (Waiting ch p)
             | None => Waiting ch p
             end in
    Some (mkSystem (world st) (worker st) (<[i := c]> (callers st)) (S ch)
            (closed st) (trace st) (exited st))
  | Some (Running (CallSetLevel l :: p)) =>
    Some (mkSystem (set_currLevel l (world st)) (worker st)
            (<[i := Running p]> (callers st)) (chans st) (closed st)
            (trace st) (exited st))
  | Some (Running []) => None
  | Some (Sending e next) =>
    (* entryCh <- e: the relay must be receiving *)
    match worker st with
    | RIdle =>
      Some (mkSystem (world st) (RGot e) (<[i := next]> (callers st))
              (chans st) (closed st) (trace st) (exited st))
    | _ => None
    end
  | Some (Waiting ch p) =>
    (* <-blockCh: returns once the channel is closed *)
    if bool_decide (ch ∈ closed st) then Some (set_caller i (Exiting p) st)
    else None
  | Some (Exiting p) =>
    (* os.Exit(1) *)
    Some (mkSystem (world st) (worker st) (callers st) (chans st) (closed st)
            (trace st) (Some (i, 1)))
  | None => None
  end.

(** One step of the relay goroutine. *)
Definition relay_step (st : System) : option System :=
  match worker st with
  | RIdle => None
  | RGot e =>
    let r := printOut_Out e (world st) in
    Some (mkSystem r.1 (RPrinted e r.2) (callers st) (chans st) (closed st)
            (trace st ++ [EvPrintOut e r.2]) (exited st))
  | RPrinted e err =>
    Some (mkSystem (relay_fallback e err (world st)) (RRecovered e)
            (callers st) (chans st) (closed st)
            (trace st ++ [EvFallback e]) (exited st))
  | RRecovered e =>
    Some (mkSystem (relay_flush e (world st)) (RFlushed e) (callers st)
            (chans st) (closed st) (trace st ++ [EvFlush e]) (exited st))
  | RFlushed e =>
    (* if e.blockCh != nil { close(e.blockCh) } *)
    Some (mkSystem (world st) RIdle (callers st) (chans st)
            (match blockCh e with
             | Some ch => {[ch]} ∪ closed st
             | None => closed st
             end)
            (trace st ++ [EvClose e]) (exited st))
  end.

(** Nothing runs once [os.Exit] was called. *)
Definition exec (a : actor) (st : System) : option System :=
  match exited st with
  | Some _ => None
  | None =>
    match a with
    | ARelay => relay_step st
    | ACaller i => caller_step i st
    end
  end.

Definition step (st st' : System) : Prop := exists a, exec a st = Some st'.

(** Running a schedule, one actor after the other. *)
Fixpoint run (sched : list actor) (st : System) : option System :=
  match sched with
  | [] => Some st
  | a :: rest =>
    match exec a st with
    | Some st' => run rest st'
    | None => None
    end
  end.

(** The process at start: the relay waits, no channel exists. *)
Definition boot (W : World) (progs : list (list call)) : System :=
  mkSystem W RIdle (Running <$> progs) 0 ∅ [] None.

(** ** The text of a line *)

(** What [printPair] hands to the sink for a value, and for a pair. *)
Definition value_text (v : value) : string :=
  QuoteToASCII (Replace (Sprint v) dquote squote).

Definition pair_text (kve : kvE) : string :=
  space +:+ K kve +:+ equals +:+ value_text (V kve).

Fixpoint pairs_text (l : kvL) : string :=
  match l with
  | [] => ""
  | kve :: rest => pair_text kve +:+ pairs_text rest
  end.

Definition ts_text (displayTS : bool) (now : string) : string :=
  if displayTS then tsPrefix +:+ now +:+ tsSuffix else "".

(** The bytes one [printOut] sends when no write fails: the level name,
    the marker with a space, the message, and, for a non-empty attribute
    list only, a second marker and the pairs. *)
Definition line (e : entry) (displayTS : bool) (now : string) : string :=
  prefix +:+ ts_text displayTS now +:+ Level_String (level e)
    +:+ separatorSpace +:+ msg e
    +:+ match kv e with
        | [] => ""
        | _ :: _ => separator +:+ pairs_text (kv e)
        end
    +:+ newline.

(** The grammar as the specification words it: no message, one marker
    directly followed by the pairs. *)
Definition spec_line (ts : option string) (name : string) (l : kvL) : string :=
  prefix +:+ match ts with
             | Some t => tsPrefix +:+ t +:+ tsSuffix
             | None => ""
             end
    +:+ name +:+ separator +:+ pairs_text l +:+ newline.

Definition matches_spec_grammar (s : string) : Prop :=
  exists ts name l, name ∈ level_names /\ s = spec_line ts name l.

(** Does [p] start [s]; how often does [p] occur in [s]. *)
Fixpoint starts_with (p s : string) : bool :=
  match p, s with
  | EmptyString, _ => true
  | String a p', String b s' => Ascii.eqb a b && starts_with p' s'
  | String _ _, EmptyString => false
  end.

Fixpoint occurrences (p s : string) : nat :=
  match s with
  | EmptyString => 0
  | String _ s' => (if starts_with p s then 1 else 0) + occurrences p s'
  end%nat.

(** [w'] is [w] after accepting the bytes [t] and nothing else. *)
Definition accepted (w w' : Writer) (t : string) : Prop :=
  w_data w' = w_data w +:+ t /\ healthy w' /\
  w_syncer w' = w_syncer w /\ w_flusher w' = w_flusher w /\
  w_syncs w' = w_syncs w /\ w_flushes w' = w_flushes w.

(** A value's text is safe: wrapped in double quotes around printable
    ASCII bytes none of which is a double quote. *)
Definition quoted_safe (t : string) : Prop :=
  exists body, t = String dquote (body +:+ String dquote "") /\
    Bytes.all_printable body = true /\ Bytes.mem dquote body = false.

(** The five level names and the level each stands for. *)
Definition level_table : list (string * Level) :=
  [("DEBUG", DebugLevel); ("INFO", InfoLevel); ("WARN", WarnLevel);
   ("ERROR", ErrorLevel); ("FATAL", FatalLevel)].

(** The value of the rightmost set of [kvs] that holds the key [k], the
    right-biased union as the specification words it. *)
Definition rightmost (k : string) (kvs : list KV) : option value :=
  foldl (fun found kvi =>
           match entries kvi !! k with
           | Some v => Some v
           | None => found
           end) None kvs.

(** The flush step as the specification words it: the flush capability
    probed first, the sync capability after it. *)
Definition spec_flush_first (e : entry) (W : World) : World :=
  if level e =? FatalLevel then
    if w_flusher (out_writer W) then set_out (Flush (out_writer W)) W
    else if w_syncer (out_writer W) then set_out (Sync (out_writer W)) W
    else W
  else W.

(** Printable ASCII throughout and free of double quotes. *)
Definition safe (t : string) : bool :=
  Bytes.all_printable t && negb (Bytes.mem dquote t).

(** ** The entries in flight and the relay's log *)

Definition relay_entry (r : relay) : list entry :=
  match r with
  | RIdle => []
  | RGot e | RPrinted e _ | RRecovered e | RFlushed e => [e]
  end.

Fixpoint caller_entries (c : caller) : list entry :=
  match c with
  | Sending e next => e :: caller_entries next
  | _ => []
  end.

Definition event_entry (ev : event) : entry :=
  match ev with
  | EvPrintOut e _ | EvFallback e | EvFlush e | EvClose e => e
  end.

(** Every entry the process holds or has logged. *)
Definition entries_of (st : System) : list entry :=
  relay_entry (worker st) ++ (callers st ≫= caller_entries)
    ++ (event_entry <$> trace st).

(** The relay's four steps on [e], as they stand in its log. *)
Definition handled (e : entry) (err : option error) : list event :=
  [EvPrintOut e err; EvFallback e; EvFlush e; EvClose e].

(** The channel [ch] was closed by the relay at the end of a full pass
    over an entry that carries it. *)
Definition fired (ch : nat) (tr : list event) : Prop :=
  exists e err pre post,
    blockCh e = Some ch /\ tr = pre ++ handled e err ++ post.

(** The log ends with what the relay has done so far on its entry. *)
Definition relay_logged (r : relay) (tr : list event) : Prop :=
  match r with
  | RIdle | RGot _ => True
  | RPrinted e err => exists pre, tr = pre ++ [EvPrintOut e err]
  | RRecovered e => exists pre err, tr = pre ++ [EvPrintOut e err; EvFallback e]
  | RFlushed e =>
    exists pre err, tr = pre ++ [EvPrintOut e err; EvFallback e; EvFlush e]
  end.

(** What holds of every state the process reaches from [boot]: channels
    carried by entries were made; the log agrees with the relay's
    position; a closed channel was closed by a full pass. *)
Definition wf (st : System) : Prop :=
  (forall e ch, e ∈ entries_of st -> blockCh e = Some ch -> (ch < chans st)%nat) /\
  relay_logged (worker st) (trace st) /\
  (forall ch, ch ∈ closed st -> fired ch (trace st)).

(** Every entry carrying channel [ch] is the entry [e]. *)
Definition owns (ch : nat) (e : entry) (st : System) : Prop :=
  forall e', e' ∈ entries_of st -> blockCh e' = Some ch -> e' = e.


(** The entry [Fatal(msg, kvs...)] submits on the channel [ch]. *)
Definition fatal_entry (m : string) (kvs : list KV) (ch : nat) : entry :=
  mkEntry FatalLevel m (kvNormalize kvs) (Some ch).

(** Goroutine [i] has not called [os.Exit]. *)
Definition no_exit_by (i : nat) (st : System) : Prop :=
  forall code, exited st <> Some (i, code).

(** Where goroutine [i] stands with its call [Fatal(m, kvs...)]. *)
Definition fatal_progress (i : nat) (m : string) (kvs : list KV) (p : list call)
  (st : System) : Prop :=
  (callers st !! i = Some (Running (Fatal m kvs :: p)) /\ no_exit_by i st) \/
  exists ch, (ch < chans st)%nat /\ owns ch (fatal_entry m kvs ch) st /\
    ((callers st !! i = Some (Sending (fatal_entry m kvs ch) (Waiting ch p)) /\
      no_exit_by i st) \/
     (callers st !! i = Some (Waiting ch p) /\ no_exit_by i st) \/
     (callers st !! i = Some (Exiting p) /\ ch ∈ closed st /\
      forall code, exited st = Some (i, code) -> code = 1)).


(** The schedule that takes a [Fatal] call of goroutine [i] through, the
    relay being idle: the level test, the send, the relay's four steps, the
    receive on [blockCh], [os.Exit]. *)
Definition fatal_schedule (i : nat) : list actor :=
  [ACaller i; ACaller i; ARelay; ARelay; ARelay; ARelay; ACaller i; ACaller i].

(** ** One caller, no [Fatal]: the calls one after the other *)

(** What remains of the relay's pass over its entry. *)
Definition finish (r : relay) (W : World) : World :=
  match r with
  | RIdle => W
  | RGot e => relay_body e W
  | RPrinted e err => relay_flush e (relay_fallback e err W)
  | RRecovered e => relay_flush e W
  | RFlushed e => W
  end.

(** A non-fatal emit call run to the end of the relay's pass. *)
Definition seq_emit (l : Level) (m : string) (kvs : list KV) (W : World) : World :=
  match logEntry l m kvs None W with
  | Some e => relay_body e W
  | None => W
  end.

Definition seq_call (c : call) (W : World) : World :=
  match c with
  | Debug m kvs => seq_emit DebugLevel m kvs W
  | Info m kvs => seq_emit InfoLevel m kvs W
  | Warn m kvs => seq_emit WarnLevel m kvs W
  | Error m kvs => seq_emit ErrorLevel m kvs W
  | Fatal _ _ => W
  | CallSetLevel l => set_currLevel l W
  end.

Definition seq_prog (prog : list call) (W : World) : World :=
  foldl (fun W c => seq_call c W) W prog.

Fixpoint caller_rest (c : caller) (W : World) : World :=
  match c with
  | Running prog => seq_prog prog W
  | Sending e next => caller_rest next (relay_body e W)
  | Waiting _ _ | Exiting _ => W
  end.

Definition is_Fatal (c : call) : bool :=
  match c with
  | Fatal _ _ => true
  | _ => false
  end.

Fixpoint no_Fatal (c : caller) : Prop :=
  match c with
  | Running prog => forallb (fun c => negb (is_Fatal c)) prog = true
  | Sending _ next => no_Fatal next
  | Waiting _ _ | Exiting _ => False
  end.

(** Nothing is left to do: the caller is through its calls and the
    relay waits. *)
Definition quiescent (st : System) : Prop :=
  callers st = [Running []] /\ worker st = RIdle.

(** With one caller: the package state once the relay has finished its
    entry and the caller's remaining calls were run one after the other. *)
Definition pending (st : System) : World :=
  match callers st with
  | [c] => caller_rest c (finish (worker st) (world st))
  | _ => world st
  end.

Definition lone_caller (st : System) : Prop :=
  exists c, callers st = [c] /\ no_Fatal c /\ exited st = None.

(** The schedule for [Debug; Info; Warn; Error] at threshold WARN. *)
Definition warn_schedule : list actor :=
  [ACaller 0; ACaller 0; ACaller 0; ACaller 0; ARelay; ARelay; ARelay; ARelay;
   ACaller 0; ACaller 0; ARelay; ARelay; ARelay; ARelay]%nat.

(** [func (l kvL) Len() int] *)
Definition Len (l : kvL) : nat := length l.

(** [func (l kvL) Less(i, j int) bool] by index; [None] is the panic of
    an index out of range. *)
Definition Less_at (l : kvL) (i j : nat) : option bool :=
  match l !! i, l !! j with
  | Some a, Some b => Some (Less a b)
  | _, _ => None
  end.

(** [func (l kvL) Swap(i, j int)]: [l[i], l[j] = l[j], l[i]] reads both
    elements, then stores into [l[i]], then into [l[j]]; [None] is the
    panic of an index out of range. *)
Definition Swap (l : kvL) (i j : nat) : option kvL :=
  match l !! i, l !! j with
  | Some a, Some b => Some (<[j := a]> (<[i := b]> l))
  | _, _ => None
  end.

(** The bytes of a list of slices, one after the other. *)
Definition concat_s (l : list string) : string := foldr String.append "" l.

(** The slices one iteration of the loop over [e.kv] hands to
    [writeHelper], in order. *)
Definition pair_chunks (kve : kvE) : list string :=
  [space; K kve; equals; value_text (V kve)].

(** The slices [printOut] hands to [writeHelper], in order. *)
Definition chunks (e : entry) (displayTS : bool) (now : string) : list string :=
  [prefix] ++ (if displayTS then [tsPrefix; now; tsSuffix] else [])
    ++ [Level_String (level e); separatorSpace; msg e]
    ++ match kv e with
       | [] => []
       | _ :: _ => separator :: (kv e ≫= pair_chunks)
       end
    ++ [newline].

(** How often the byte [c] occurs in [s]. *)
Fixpoint count_byte (c : ascii) (s : string) : nat :=
  match s with
  | EmptyString => 0
  | String d r => (if Ascii.eqb c d then 1 else 0) + count_byte c r
  end%nat.

(** The line feed, the one byte of [newline]. *)
Definition LF : ascii := "010"%char.

(** [w'] has the methods of [w] and as many [Sync] and [Flush] calls
    behind it. *)
Definition same_calls (w w' : Writer) : Prop :=
  w_syncer w' = w_syncer w /\ w_flusher w' = w_flusher w /\
  w_syncs w' = w_syncs w /\ w_flushes w' = w_flushes w.

(** The log of complete passes of the relay, one per entry. *)
Definition passes_log (ps : list (entry * option error)) : list event :=
  ps ≫= (fun p => handled p.1 p.2).

(** What the relay has logged of the pass it is in. *)
Definition in_progress (r : relay) (tail : list event) : Prop :=
  match r with
  | RIdle | RGot _ => tail = []
  | RPrinted e err => tail = [EvPrintOut e err]
  | RRecovered e => exists err, tail = [EvPrintOut e err; EvFallback e]
  | RFlushed e => exists err, tail = [EvPrintOut e err; EvFallback e; EvFlush e]
  end.

(** The level a non-fatal emit function logs at. *)
Definition emit_level (c : call) : option (Level * string * list KV) :=
  match c with
  | Debug m kvs => Some (DebugLevel, m, kvs)
  | Info m kvs => Some (InfoLevel, m, kvs)
  | Warn m kvs => Some (WarnLevel, m, kvs)
  | Error m kvs => Some (ErrorLevel, m, kvs)
  | Fatal _ _ | CallSetLevel _ => None
  end.

(** The entries a run of calls sends when it starts at the threshold
    [lvl], in the order of the calls, a [SetLevel] among them changing
    the threshold for the calls after it. *)
Fixpoint emitted (prog : list call) (lvl : Level) : list entry :=
  match prog with
  | [] => []
  | CallSetLevel l :: rest => emitted rest l
  | c :: rest =>
    match emit_level c with
    | Some (l, m, kvs) =>
      if lvl <=? l then mkEntry l m (kvNormalize kvs) None :: emitted rest lvl
      else emitted rest lvl
    | None => emitted rest lvl
    end
  end.

(** The threshold after the calls. *)
Fixpoint final_level (prog : list call) (lvl : Level) : Level :=
  match prog with
  | [] => lvl
  | CallSetLevel l :: rest => final_level rest l
  | _ :: rest => final_level rest lvl
  end.

(** The lines of the entries, each stamped with the next reading of the
    clock when timestamps are displayed. *)
Fixpoint lines_from (es : list entry) (displayTS : bool) (clk : nat -> string)
  (tk : nat) : string :=
  match es with
  | [] => ""
  | e :: rest =>
    line e displayTS (clk tk)
      +:+ lines_from rest displayTS clk (if displayTS then S tk else tk)
  end.

(** No goroutine is in or before a [Fatal] call, and nothing of a
    [Fatal] call is around. *)
Definition Fatal_free (st : System) : Prop :=
  Forall no_Fatal (callers st) /\ exited st = None /\ chans st = 0%nat /\
  closed st = ∅ /\ forall e, e ∈ entries_of st -> blockCh e = None.

(** *** Reading a quoted text back: [strconv.Unquote]

    The source never calls [Unquote]; it is the reader of the text
    [QuoteToASCII] writes and serves to say what the quoting keeps. *)

(** [byte(r)] *)
Definition byte_of (r : N) : ascii := ascii_of_N (r mod 256).

(** [utf8.EncodeRune] *)
Definition EncodeRune (r : N) : string :=
  if (r <=? 0x7F)%N then String (byte_of r) ""
  else if (r <=? 0x7FF)%N then
    String (byte_of (N.lor 0xC0 (N.shiftr r 6)))
      (String (byte_of (N.lor 0x80 (N.land r 0x3F))) "")
  else
    let r := if ValidRune r then r else RuneError in
    if (r <=? 0xFFFF)%N then
      String (byte_of (N.lor 0xE0 (N.shiftr r 12)))
        (String (byte_of (N.lor 0x80 (N.land (N.shiftr r 6) 0x3F)))
           (String (byte_of (N.lor 0x80 (N.land r 0x3F))) ""))
    else
      String (byte_of (N.lor 0xF0 (N.shiftr r 18)))
        (String (byte_of (N.lor 0x80 (N.land (N.shiftr r 12) 0x3F)))
           (String (byte_of (N.lor 0x80 (N.land (N.shiftr r 6) 0x3F)))
              (String (byte_of (N.lor 0x80 (N.land r 0x3F))) ""))).

(** [unhex]: the value of a hexadecimal digit *)
Definition unhex (c : N) : option N :=
  (if (48 <=? c) && (c <=? 57) then Some (c - 48)
   else if (97 <=? c) && (c <=? 102) then Some (c - 97 + 10)
   else if (65 <=? c) && (c <=? 70) then Some (c - 65 + 10)
   else None)%N.

(** [for j := 0; j < n; j++ { x, ok := unhex(s[j]); v = v<<4 | x }] and
    [s = s[n:]]: the value and the rest, [None] when the text is short or
    holds another byte. *)
Fixpoint hex_value (n : nat) (s : string) (v : N) : option (N * string) :=
  match n with
  | O => Some (v, s)
  | S m =>
    match s with
    | EmptyString => None
    | String c t =>
      match unhex (Bytes.code c) with
      | Some x => hex_value m t (N.lor (N.shiftl v 4) x)
      | None => None
      end
    end
  end.

(** The two further digits of an octal escape. *)
Fixpoint oct_value (n : nat) (s : string) (v : N) : option (N * string) :=
  match n with
  | O => Some (v, s)
  | S m =>
    match s with
    | EmptyString => None
    | String c t =>
      if ((48 <=? Bytes.code c) && (Bytes.code c <=? 55))%N
      then oct_value m t (N.lor (N.shiftl v 3) (Bytes.code c - 48))
      else None
    end
  end.

(** [strconv.UnquoteChar] called with the double quote as [quote]: the
    value, whether it is a rune to be encoded, and the tail; [None] is
    [ErrSyntax]. *)
Definition UnquoteChar (s : string) : option (N * bool * string) :=
  match s with
  | EmptyString => None
  | String c t =>
    if Ascii.eqb c dquote then None
    else if (128 <=? Bytes.code c)%N then
      let '(r, size) := DecodeRuneInString s in Some (r, true, skip size s)
    else if negb (Ascii.eqb c "\") then Some (Bytes.code c, false, t)
    else
      match t with
      | EmptyString => None
      | String c1 s2 =>
        let n1 := Bytes.code c1 in
        if (n1 =? 97)%N then Some (7%N, false, s2)          (* a *)
        else if (n1 =? 98)%N then Some (8%N, false, s2)     (* b *)
        else if (n1 =? 102)%N then Some (12%N, false, s2)   (* f *)
        else if (n1 =? 110)%N then Some (10%N, false, s2)   (* n *)
        else if (n1 =? 114)%N then Some (13%N, false, s2)   (* r *)
        else if (n1 =? 116)%N then Some (9%N, false, s2)    (* t *)
        else if (n1 =? 118)%N then Some (11%N, false, s2)   (* v *)
        else if (n1 =? 120)%N then                          (* x *)
          match hex_value 2 s2 0 with
          | Some (v, tail) => Some (v, false, tail)
          | None => None
          end
        else if ((n1 =? 117) || (n1 =? 85))%N then          (* u, U *)
          match hex_value (if (n1 =? 117)%N then 4 else 8) s2 0 with
          | Some (v, tail) => if ValidRune v then Some (v, true, tail) else None
          | None => None
          end
        else if ((48 <=? n1) && (n1 <=? 55))%N then         (* 0 .. 7 *)
          match oct_value 2 s2 (n1 - 48) with
          | Some (v, tail) => if (255 <? v)%N then None else Some (v, false, tail)
          | None => None
          end
        else if (n1 =? 92)%N then Some (92%N, false, s2)    (* backslash *)
        else if (n1 =? 34)%N then Some (34%N, false, s2)    (* the quote *)
        else None
      end
  end.

(** The bytes [Unquote] appends for one [UnquoteChar]. *)
Definition appendChar (c : N) (multibyte : bool) : string :=
  if (c <? 128)%N || negb multibyte then String (byte_of c) ""
  else EncodeRune c.

(** [for len(s) > 0 { c, multibyte, ss, err := UnquoteChar(s, quote) ... }];
    every round takes at least one byte, so [len(s)] rounds suffice. *)
Fixpoint unquote_loop (fuel : nat) (s : string) : option string :=
  match s with
  | EmptyString => Some EmptyString
  | String _ _ =>
    match fuel with
    | O => None
    | S f =>
      match UnquoteChar s with
      | Some (c, multibyte, ss) =>
        match unquote_loop f ss with
        | Some out => Some (appendChar c multibyte +:+ out)
        | None => None
        end
      | None => None
      end
    end
  end.

(** [utf8.ValidString] *)
Fixpoint valid_loop (fuel : nat) (s : string) : bool :=
  match fuel, s with
  | S f, String _ _ =>
    let '(r, size) := DecodeRuneInString s in
    if (size =? 1)%nat && (r =? RuneError)%N then false
    else valid_loop f (skip size s)
  | _, _ => true
  end.

Definition ValidString (s : string) : bool := valid_loop (String.length s) s.

(** [s[:len(s)-1]] and [s[len(s)-1]] of a non-empty string. *)
Fixpoint init_last (c : ascii) (s : string) : string * ascii :=
  match s with
  | EmptyString => (EmptyString, c)
  | String d t => let '(i, l) := init_last d t in (String c i, l)
  end.

(** [strconv.Unquote] on a text in double quotes; [None] is [ErrSyntax].
    Texts in single or back quotes, which [QuoteToASCII] never writes,
    are outside this model and get [None] as well. *)
Definition Unquote (s : string) : option string :=
  match s with
  | String q (String c t) =>
    let '(body, l) := init_last c t in
    if negb (Ascii.eqb q l) then None
    else if negb (Ascii.eqb q dquote) then None
    else if Bytes.mem "010" body then None
    else if negb (Bytes.mem "\" body) && negb (Bytes.mem dquote body)
            && ValidString body then Some body
    else unquote_loop (String.length body) body
  | _ => None
  end.

(** The first [n] bytes. *)
Fixpoint keep (n : nat) (s : string) : string :=
  match n, s with
  | S m, String c t => String c (keep m t)
  | _, _ => EmptyString
  end.

(** One round of the loop of [appendQuotedWith] on a non-empty string. *)
Definition quote_chunk (c0 : ascii) (t : string) : string :=
  let '(r, width) := DecodeRuneInString (String c0 t) in
  if (width =? 1)%nat && (r =? RuneError)%N
  then "\x" +:+ hex_byte (Bytes.code c0)
  else escapedRune r.

(** ** How the process ends *)





(** * Properties *)

(** ** Strings *)

Lemma app_nil_r_s (s : string) : s +:+ "" = s.
Proof. induction s as [|c s IH]; [reflexivity|]. change (String c (s +:+ "") = String c s). by rewrite IH. Qed.

Lemma app_assoc_s (a b c : string) : (a +:+ b) +:+ c = a +:+ (b +:+ c).
Proof.
  induction a as [|x a IH]; [reflexivity|].
  change (String x ((a +:+ b) +:+ c) = String x (a +:+ (b +:+ c))).
  by rewrite IH.
Qed.

Lemma app_cons_s (x : ascii) (a b : string) : String x a +:+ b = String x (a +:+ b).
Proof. reflexivity. Qed.

(** ** Writing to a sink that accepts *)

Lemma healthy_tail (w : Writer) o rest :
  healthy w -> w_script w = o :: rest -> o = None /\ Forall (fun o => o = None) rest.
Proof. unfold healthy. intros H E. rewrite E in H. by inversion H. Qed.

Lemma accepted_refl (w : Writer) : healthy w -> accepted w w "".
Proof. intros H. unfold accepted. by rewrite app_nil_r_s. Qed.

Lemma writeHelper_accepted (w0 w : Writer) (t b : string) :
  accepted w0 w t ->
  exists w', writeHelper b (w, None) = (w', None) /\ accepted w0 w' (t +:+ b).
Proof.
  intros (Hd & Hh & Hs & Hf & Hn & Hm).
  unfold writeHelper, Write; simpl.
  destruct (w_script w) as [|o rest] eqn:E.
  - eexists; split; [reflexivity|].
    unfold accepted, healthy; simpl. rewrite Hd, app_assoc_s.
    repeat split; auto.
  - destruct (healthy_tail w o rest Hh E) as [-> Hrest].
    eexists; split; [reflexivity|].
    unfold accepted, healthy; simpl. rewrite Hd, app_assoc_s.
    repeat split; auto.
Qed.

Lemma printPair_accepted (w0 w : Writer) (t : string) (kve : kvE) :
  accepted w0 w t ->
  exists w', printPair (w, None) kve = (w', None) /\
    accepted w0 w' (t +:+ pair_text kve).
Proof.
  intros H. unfold printPair, pair_text.
  destruct (writeHelper_accepted w0 w t space H) as (w1 & -> & H1).
  destruct (writeHelper_accepted w0 w1 _ (K kve) H1) as (w2 & -> & H2).
  destruct (writeHelper_accepted w0 w2 _ equals H2) as (w3 & -> & H3).
  destruct (writeHelper_accepted w0 w3 _ (value_text (V kve)) H3) as (w4 & E4 & H4).
  exists w4. split; [exact E4|].
  rewrite !app_assoc_s in H4. exact H4.
Qed.

Lemma printPairs_accepted (l : kvL) (w0 w : Writer) (t : string) :
  accepted w0 w t ->
  exists w', foldl printPair (w, None) l = (w', None) /\
    accepted w0 w' (t +:+ pairs_text l).
Proof.
  revert w t. induction l as [|kve l IH]; intros w t H; simpl.
  - exists w. by rewrite app_nil_r_s.
  - destruct (printPair_accepted w0 w t kve H) as (w1 & -> & H1).
    destruct (IH w1 _ H1) as (w2 & E2 & H2).
    exists w2. split; [exact E2|]. by rewrite app_assoc_s in H2.
Qed.

Lemma printOut_accepted (e : entry) (w : Writer) (displayTS : bool) (now : string) :
  healthy w ->
  exists w', printOut e w displayTS now = (w', None) /\
    accepted w w' (line e displayTS now).
Proof.
  intros Hh. unfold printOut, line.
  destruct (writeHelper_accepted w w "" prefix (accepted_refl w Hh)) as (w1 & -> & H1).
  change ("" +:+ prefix) with prefix in H1.
  assert (exists w2, (if displayTS
            then writeHelper tsSuffix (writeHelper now (writeHelper tsPrefix (w1, None)))
            else (w1, None)) = (w2, None) /\
          accepted w w2 (prefix +:+ ts_text displayTS now)) as (w2 & -> & H2).
  { destruct displayTS; simpl.
    - destruct (writeHelper_accepted w w1 _ tsPrefix H1) as (wa & -> & Ha).
      destruct (writeHelper_accepted w wa _ now Ha) as (wb & -> & Hb).
      destruct (writeHelper_accepted w wb _ tsSuffix Hb) as (wc & -> & Hc).
      exists wc. split; [reflexivity|]. rewrite !app_assoc_s in Hc. exact Hc.
    - exists w1. split; [reflexivity|]. by rewrite app_nil_r_s. }
  destruct (writeHelper_accepted w w2 _ (Level_String (level e)) H2) as (w3 & -> & H3).
  destruct (writeHelper_accepted w w3 _ separatorSpace H3) as (w4 & -> & H4).
  destruct (writeHelper_accepted w w4 _ (msg e) H4) as (w5 & -> & H5).
  destruct (kv e) as [|kve l] eqn:Ekv.
  - simpl. destruct (writeHelper_accepted w w5 _ newline H5) as (w6 & -> & H6).
    exists w6. split; [reflexivity|]. rewrite ?app_assoc_s in H6. rewrite ?app_assoc_s. exact H6.
  - change ((0 <? length (kve :: l))%nat) with true. cbv iota.
    destruct (writeHelper_accepted w w5 _ separator H5) as (w6 & -> & H6).
    destruct (printPairs_accepted (kve :: l) w w6 _ H6) as (w7 & -> & H7).
    destruct (writeHelper_accepted w w7 _ newline H7) as (w8 & -> & H8).
    exists w8. split; [reflexivity|]. rewrite ?app_assoc_s in H8. rewrite ?app_assoc_s. exact H8.
Qed.

(** ** C1: the shape of a line *)

Section LineShape.

#[local] Arguments String.append !s1 s2 /.

Lemma mem_app_cons (c : ascii) (a r : string) :
  Bytes.mem c (a +:+ String c r) = true.
Proof.
  induction a as [|x a IH]; simpl.
  - by rewrite Ascii.eqb_refl.
  - destruct (Ascii.eqb c x); [reflexivity|exact IH].
Qed.

Lemma pairs_text_newline_not_bar (l : kvL) :
  pairs_text l +:+ newline <> " bar" +:+ newline.
Proof.
  destruct l as [|kve l]; [discriminate|].
  unfold pairs_text; fold pairs_text. unfold pair_text, space, equals.
  rewrite !app_assoc_s. simpl. intros E. injection E as E.
  match type of E with
  | ?a +:+ String ?c ?r = _ => pose proof (mem_app_cons c a r) as Hm
  end.
  rewrite E in Hm. discriminate Hm.
Qed.

Lemma level_String_defined (l : Level) :
  level_defined l -> Level_String l ∈ level_names.
Proof.
  unfold level_defined, DebugLevel, FatalLevel. intros H.
  assert (l = 0 \/ l = 1 \/ l = 2 \/ l = 3 \/ l = 4) as Hl by lia.
  clear H.
  destruct Hl as [-> | [-> | [-> | [-> | ->]]]]; vm_compute; set_solver.
Qed.

(** C1, as stated, fails: the line of [Info("bar")] is not a sentence of
    the specification's grammar for any timestamp, level name and
    attribute list, and the line of an entry with one attribute carries
    the marker twice. *)
Lemma printOut_not_spec_grammar :
  (printOut (mkEntry InfoLevel "bar" [] None) Buffer false "").2 = None /\
  ~ matches_spec_grammar
      (w_data (printOut (mkEntry InfoLevel "bar" [] None) Buffer false "").1) /\
  occurrences separator
    (w_data (printOut (mkEntry ErrorLevel "buz"
                         (kvNormalize [Some {[ "a" := VString "b" ]}]) None)
               Buffer false "").1) = 2%nat.
Proof.
  split; [reflexivity|]. split; [|vm_compute; reflexivity].
  change (w_data (printOut (mkEntry InfoLevel "bar" [] None) Buffer false "").1)
    with ("~ INFO -- bar" +:+ newline).
  intros (ts & name & l & Hname & E).
  unfold spec_line, prefix, tsPrefix, separator in E.
  destruct ts as [t|]; simpl in E; [discriminate E|].
  unfold level_names in Hname.
  rewrite !elem_of_cons in Hname.
  destruct Hname as [-> | [-> | [-> | [-> | [-> | Hn]]]]];
    simpl in E; try discriminate E; [|by apply elem_of_nil in Hn].
  injection E as E. symmetry in E.
  by apply pairs_text_newline_not_bar in E.
Qed.

(** C1, amended: on a sink that accepts its writes, [printOut] reports no
    error and appends ["~ "], the bracketed timestamp when displayed, the
    level name, [" -- "], the message, then [" --"] and the pairs when
    the attribute list is not empty and nothing when it is, and a
    newline; a level of the five prints as one of the five names. *)
Theorem printOut_line_format (e : entry) (w : Writer) (displayTS : bool)
  (now : string) :
  healthy w ->
  (printOut e w displayTS now).2 = None /\
  w_data (printOut e w displayTS now).1 =
    w_data w +:+ "~ "
      +:+ (if displayTS then "[" +:+ now +:+ "] " else "")
      +:+ Level_String (level e) +:+ " -- " +:+ msg e
      +:+ match kv e with
          | [] => ""
          | _ :: _ => " --" +:+ pairs_text (kv e)
          end
      +:+ newline /\
  (level_defined (level e) -> Level_String (level e) ∈ level_names).
Proof.
  intros Hh.
  destruct (printOut_accepted e w displayTS now Hh) as (w' & E & Hacc & _).
  rewrite E. split; [reflexivity|]. split; [exact Hacc|].
  apply level_String_defined.
Qed.

Lemma printOut_line_format_witness :
  healthy Buffer /\
  w_data (printOut (mkEntry WarnLevel "baz" [mkKvE "a" (VInt 1)] None)
            Buffer true "noon").1 =
    "~ [noon] WARN -- baz -- a=" +:+ String dquote ("1" +:+ String dquote newline).
Proof.
  assert (healthy Buffer) as Hh by constructor.
  split; [exact Hh|].
  destruct (printOut_line_format
              (mkEntry WarnLevel "baz" [mkKvE "a" (VInt 1)] None)
              Buffer true "noon" Hh) as (_ & E & _).
  rewrite E. reflexivity.
Defined.

End LineShape.

(** ** C4: the flush attempt on a fatal entry *)

Lemma out_writer_set_out (w : Writer) (W : World) : out_writer (set_out w W) = w.
Proof. unfold out_writer, set_out. by destruct (Out W). Qed.

(** C4, as stated, fails: on a sink that has both methods the relay calls
    [Sync] and leaves [Flush] alone, where probing flush first would call
    [Flush]. *)
Lemma relay_flush_not_flush_first :
  let W := mkWorld InfoLevel (Some (mkWriter "" [] true true 0 0)) Buffer
             false (fun _ => "") 0 in
  let e := mkEntry FatalLevel "boom" [] None in
  w_syncs (out_writer (relay_flush e W)) = 1%nat /\
  w_flushes (out_writer (relay_flush e W)) = 0%nat /\
  w_flushes (out_writer (spec_flush_first e W)) = 1%nat /\
  relay_flush e W <> spec_flush_first e W.
Proof. repeat split; try reflexivity. discriminate. Qed.

(** C4, amended: on a FATAL entry the relay probes the sink for [Sync]
    first and for [Flush] only when [Sync] is missing; it calls the one
    it finds, so at most one of the two; when both are missing the step
    changes nothing and reports nothing; the bytes written are left
    as they are. *)
Theorem relay_flush_sync_then_flush (e : entry) (W : World) :
  level e = FatalLevel ->
  (w_syncer (out_writer W) = true ->
     out_writer (relay_flush e W) = Sync (out_writer W)) /\
  (w_syncer (out_writer W) = false -> w_flusher (out_writer W) = true ->
     out_writer (relay_flush e W) = Flush (out_writer W)) /\
  (w_syncer (out_writer W) = false -> w_flusher (out_writer W) = false ->
     relay_flush e W = W) /\
  (w_syncs (out_writer (relay_flush e W)) + w_flushes (out_writer (relay_flush e W))
   <= w_syncs (out_writer W) + w_flushes (out_writer W) + 1)%nat /\
  w_data (out_writer (relay_flush e W)) = w_data (out_writer W).
Proof.
  intros Hl. unfold relay_flush. rewrite Hl. change (FatalLevel =? FatalLevel) with true.
  cbv iota.
  destruct (w_syncer (out_writer W)) eqn:Hs; [|destruct (w_flusher (out_writer W)) eqn:Hf];
    rewrite ?out_writer_set_out; repeat split; intros; try congruence;
    simpl; lia.
Qed.

Lemma relay_flush_sync_then_flush_witness :
  level (mkEntry FatalLevel "boom" [] None) = FatalLevel /\
  w_flushes (out_writer (relay_flush (mkEntry FatalLevel "boom" [] None)
     (mkWorld InfoLevel (Some (mkWriter "" [] false true 0 0)) Buffer false
        (fun _ => "") 0))) = 1%nat.
Proof.
  split; [reflexivity|].
  destruct (relay_flush_sync_then_flush (mkEntry FatalLevel "boom" [] None)
    (mkWorld InfoLevel (Some (mkWriter "" [] false true 0 0)) Buffer false
       (fun _ => "") 0) eq_refl) as (_ & H & _).
  rewrite (H eq_refl eq_refl). reflexivity.
Defined.

(** ** C3: falling back to [defaultOut] *)

Lemma erre_kv (err : error) : kv (erre err) = [mkKvE "err" (VError err)].
Proof.
  unfold erre, kvTo, kvTo_visit, entries; simpl.
  rewrite map_to_list_singleton. reflexivity.
Qed.

(** The line written about a failed write. *)
Lemma erre_line (err : error) (displayTS : bool) (now : string) :
  line (erre err) displayTS now =
    "~ " +:+ ts_text displayTS now
      +:+ "ERROR -- Could not write to error Out -- err="
      +:+ QuoteToASCII (Replace (Error_text err) dquote squote) +:+ newline.
Proof.
  unfold line. rewrite erre_kv. unfold erre; simpl.
  unfold pair_text, value_text; simpl.
  unfold prefix, separatorSpace, separator, space, equals.
  change (Level_String ErrorLevel) with "ERROR".
  rewrite !app_assoc_s. reflexivity.
Qed.

(** C3: when the write of an entry to a configured sink other than
    [defaultOut] fails, the relay makes exactly two [printOut] calls on
    [defaultOut], the first for the synthetic ERROR entry that quotes the
    failure, the second for the failed entry, and drops what they return;
    [Out] stays as the failed write left it.  With a [defaultOut] that
    accepts its writes this appends exactly those two lines.  The
    emitting goroutine gets nothing back: the send hands the entry over
    and the goroutine goes on with what follows, the package state
    untouched. *)
Theorem relay_fallback_two_lines (e : entry) (W W1 : World) (w : Writer)
  (err : error) :
  Out W = Some w ->
  printOut_Out e W = (W1, Some err) ->
  defaultOut (relay_fallback e (Some err) W1) =
    (printOut e
       (printOut (erre err) (defaultOut W) (DisplayTimestamp W)
          (clock W (ticks W1))).1
       (DisplayTimestamp W) (clock W (ticks (tick W1)))).1 /\
  Out (relay_fallback e (Some err) W1) = Out W1 /\
  (healthy (defaultOut W) ->
   w_data (defaultOut (relay_fallback e (Some err) W1)) =
     w_data (defaultOut W)
       +:+ line (erre err) (DisplayTimestamp W) (clock W (ticks W1))
       +:+ line e (DisplayTimestamp W) (clock W (ticks (tick W1)))) /\
  line (erre err) (DisplayTimestamp W) (clock W (ticks W1)) =
    "~ " +:+ ts_text (DisplayTimestamp W) (clock W (ticks W1))
      +:+ "ERROR -- Could not write to error Out -- err="
      +:+ QuoteToASCII (Replace (Error_text err) dquote squote) +:+ newline /\
  (forall st st' i next,
     callers st !! i = Some (Sending e next) ->
     exec (ACaller i) st = Some st' ->
     callers st' !! i = Some next /\ world st' = world st).
Proof.
  intros HOut Hpr.
  assert (Out W1 = Some (printOut e w (DisplayTimestamp W) (clock W (ticks W))).1
          /\ defaultOut W1 = defaultOut W /\ DisplayTimestamp W1 = DisplayTimestamp W
          /\ clock W1 = clock W) as (HO1 & Hd1 & Ht1 & Hc1).
  { unfold printOut_Out, out_writer, set_out, tick in Hpr. rewrite HOut in Hpr.
    injection Hpr as <- _. simpl. done. }
  assert (defaultOut (relay_fallback e (Some err) W1) =
    (printOut e
       (printOut (erre err) (defaultOut W) (DisplayTimestamp W)
          (clock W (ticks W1))).1
       (DisplayTimestamp W) (clock W (ticks (tick W1)))).1) as Hcalls.
  { unfold relay_fallback. rewrite HO1. unfold printOut_defaultOut, tick; simpl.
    by rewrite Hd1, Ht1, Hc1. }
  split; [exact Hcalls|]. split; [|split; [|split; [apply erre_line|]]].
  - unfold relay_fallback. by rewrite HO1.
  - intros Hh. rewrite Hcalls.
    destruct (printOut_accepted (erre err) (defaultOut W) (DisplayTimestamp W)
                (clock W (ticks W1)) Hh) as (wa & Ea & Hda & Hha & _).
    rewrite Ea. cbn [fst].
    destruct (printOut_accepted e wa (DisplayTimestamp W)
                (clock W (ticks (tick W1))) Hha) as (wb & Eb & Hdb & _).
    rewrite Eb. cbn [fst]. by rewrite Hdb, Hda, app_assoc_s.
  - intros st st' i next Hc Hex. unfold exec in Hex.
    destruct (exited st); [discriminate|]. unfold caller_step in Hex.
    rewrite Hc in Hex. destruct (worker st); try discriminate.
    injection Hex as <-. simpl. split; [|reflexivity].
    apply list_lookup_insert_eq. by eapply lookup_lt_Some.
Qed.

Lemma relay_fallback_two_lines_witness :
  let W := mkWorld InfoLevel
             (Some (mkWriter "" [Some (errorString "disk full")] false false 0 0))
             Buffer false (fun _ => "") 0 in
  let e := mkEntry ErrorLevel "buz" [] None in
  healthy (defaultOut W) /\
  (printOut_Out e W).2 = Some (errorString "disk full") /\
  w_data (defaultOut (relay_fallback e (Some (errorString "disk full"))
                        (printOut_Out e W).1)) =
    "~ ERROR -- Could not write to error Out -- err="
      +:+ String dquote ("disk full" +:+ String dquote newline)
      +:+ "~ ERROR -- buz" +:+ newline.
Proof.
  intros W e.
  assert (healthy (defaultOut W)) as Hh by constructor.
  split; [exact Hh|]. split; [reflexivity|].
  destruct (relay_fallback_two_lines e W (printOut_Out e W).1
              (mkWriter "" [Some (errorString "disk full")] false false 0 0)
              (errorString "disk full") eq_refl eq_refl) as (_ & _ & E & _).
  rewrite (E Hh). reflexivity.
Defined.

(** ** C9: [Merge] *)

Lemma range_insert_list_to_map (order : list (string * value))
  (acc : gmap string value) :
  NoDup order.*1 -> range_insert order acc = list_to_map order ∪ acc.
Proof.
  unfold range_insert. revert acc.
  induction order as [|[k v] order IH]; intros acc Hnd; simpl.
  - by rewrite (left_id_L ∅ (∪)).
  - apply NoDup_cons in Hnd as [Hk Hnd].
    rewrite IH by exact Hnd.
    rewrite <- insert_union_l.
    symmetry. apply insert_union_r. by apply not_elem_of_list_to_map.
Qed.

(** Whatever sequence the [range] loop visits the entries of [m] in, the
    loop leaves the union, with [m] winning. *)
Lemma range_insert_any_order (m acc : gmap string value)
  (order : list (string * value)) :
  order ≡ₚ map_to_list m -> range_insert order acc = m ∪ acc.
Proof.
  intros Hp.
  assert (NoDup order.*1) as Hnd.
  { rewrite Hp. apply NoDup_fst_map_to_list. }
  rewrite range_insert_list_to_map by exact Hnd.
  f_equal. rewrite <- (list_to_map_to_list m).
  by apply list_to_map_proper.
Qed.

Lemma Merge_loop_lookup (kvs : list KV) (acc : gmap string value) (k : string) :
  foldl (fun kv kvi => range_insert (map_to_list (entries kvi)) kv) acc kvs !! k =
  foldl (fun found kvi =>
           match entries kvi !! k with
           | Some v => Some v
           | None => found
           end) (acc !! k) kvs.
Proof.
  revert acc. induction kvs as [|kvi kvs IH]; intros acc; simpl; [reflexivity|].
  rewrite IH. f_equal.
  rewrite (range_insert_any_order (entries kvi) acc) by reflexivity.
  rewrite lookup_union. by destruct (entries kvi !! k), (acc !! k).
Qed.

Lemma rightmost_app (k : string) (l1 l2 : list KV) :
  rightmost k (l1 ++ l2) =
  foldl (fun found kvi =>
           match entries kvi !! k with
           | Some v => Some v
           | None => found
           end) (rightmost k l1) l2.
Proof. unfold rightmost. by rewrite foldl_app. Qed.

Lemma rightmost_absent (k : string) (l : list KV) (found : option value) :
  Forall (fun kvj => entries kvj !! k = None) l ->
  foldl (fun found kvi =>
           match entries kvi !! k with
           | Some v => Some v
           | None => found
           end) found l = found.
Proof.
  intros H. revert found. induction H as [|kvj l Hj _ IH]; intros found; simpl.
  - reflexivity.
  - by rewrite Hj, IH.
Qed.

Lemma rightmost_Some (k : string) (kvs : list KV) (v : value) :
  rightmost k kvs = Some v -> exists kvi, kvi ∈ kvs /\ entries kvi !! k = Some v.
Proof.
  induction kvs as [|kvi kvs IH] using rev_ind; [discriminate|].
  rewrite rightmost_app; simpl.
  destruct (entries kvi !! k) as [v'|] eqn:E.
  - intros [= ->]. exists kvi. split; [|exact E].
    apply elem_of_app. right. by apply list_elem_of_singleton.
  - intros H. destruct (IH H) as (kvj & Hin & Hj).
    exists kvj. split; [|exact Hj]. apply elem_of_app. by left.
Qed.

Lemma rightmost_None (k : string) (kvs : list KV) :
  rightmost k kvs = None -> Forall (fun kvj => entries kvj !! k = None) kvs.
Proof.
  induction kvs as [|kvi kvs IH] using rev_ind; [constructor|].
  rewrite rightmost_app; simpl.
  destruct (entries kvi !! k) as [v'|] eqn:E; [discriminate|].
  intros H. apply Forall_app. split; [by apply IH|]. by repeat constructor.
Qed.

(** C9: [Merge] returns a map, never nil; a key is in it exactly when some
    input holds the key; its value is the one of the rightmost input
    holding the key; and [Merge] of no sets is the empty map. *)
Theorem Merge_right_biased_union (kvs : list KV) :
  exists m, Merge kvs = Some m /\
    (forall k, m !! k = rightmost k kvs) /\
    (forall k, is_Some (m !! k) <->
       exists kvi, kvi ∈ kvs /\ is_Some (entries kvi !! k)) /\
    (forall l1 kvi l2 k v,
       kvs = l1 ++ kvi :: l2 ->
       entries kvi !! k = Some v ->
       Forall (fun kvj => entries kvj !! k = None) l2 ->
       m !! k = Some v) /\
    Merge [] = Some ∅.
Proof.
  eexists. split; [reflexivity|].
  assert (forall k,
    foldl (fun kv kvi => range_insert (map_to_list (entries kvi)) kv) ∅ kvs !! k
    = rightmost k kvs) as Hlk.
  { intros k. rewrite Merge_loop_lookup. by rewrite lookup_empty. }
  split; [exact Hlk|]. split; [|split; [|reflexivity]].
  - intros k. rewrite Hlk. split.
    + intros [v Hv]. destruct (rightmost_Some k kvs v Hv) as (kvi & Hin & E).
      exists kvi. split; [exact Hin|]. by rewrite E.
    + intros (kvi & Hin & [v Hv]).
      destruct (rightmost k kvs) as [x|] eqn:E; [by eexists|].
      apply rightmost_None in E. rewrite Forall_forall in E.
      rewrite (E kvi Hin) in Hv. discriminate.
  - intros l1 kvi l2 k v -> Hv Hl2. rewrite Hlk.
    rewrite rightmost_app. simpl. rewrite Hv.
    by apply rightmost_absent.
Qed.

Lemma Merge_right_biased_union_witness :
  exists m,
    Merge [Some {[ "a" := VInt 1; "b" := VInt 2 ]}; None; Some {[ "a" := VInt 3 ]}]
      = Some m /\ m !! "a" = Some (VInt 3) /\ m !! "b" = Some (VInt 2).
Proof.
  destruct (Merge_right_biased_union
    [Some {[ "a" := VInt 1; "b" := VInt 2 ]}; None; Some {[ "a" := VInt 3 ]}])
    as (m & E & _ & _ & H & _).
  exists m. split; [exact E|]. split.
  - apply (H [Some {[ "a" := VInt 1; "b" := VInt 2 ]}; None] (Some {[ "a" := VInt 3 ]})
             [] "a" (VInt 3) eq_refl); [reflexivity|constructor].
  - apply (H [] (Some {[ "a" := VInt 1; "b" := VInt 2 ]}) [None; Some {[ "a" := VInt 3 ]}]
             "b" (VInt 2) eq_refl); [reflexivity|].
    repeat constructor.
Defined.

(** ** C7: the sorted attribute list *)

Lemma not_after_le (a b : kvE) : not_after a b <-> String.le (K a) (K b).
Proof.
  unfold not_after, Less, String.le, String.ltb, String.leb.
  rewrite (String.compare_antisym (K b) (K a)).
  destruct (String.compare (K a) (K b)); simpl; split; intros H;
    try done; try discriminate.
Qed.

Lemma not_after_total : Total not_after.
Proof.
  intros a b. rewrite !not_after_le. apply (total String.le).
Qed.

Lemma not_after_trans : Transitive not_after.
Proof.
  intros a b c. rewrite !not_after_le. apply (transitivity (R := String.le)).
Qed.

#[local] Existing Instance not_after_total.
#[local] Existing Instance not_after_trans.

Lemma not_after_antisym (a b : kvE) : not_after a b -> not_after b a -> K a = K b.
Proof. rewrite !not_after_le. apply (anti_symm String.le). Qed.

Lemma Less_of_not_after (a b : kvE) : not_after a b -> K a <> K b -> Less a b = true.
Proof.
  unfold not_after, Less, String.ltb.
  rewrite (String.compare_antisym (K b) (K a)).
  destruct (String.compare (K a) (K b)) eqn:E; simpl; try done.
  intros _ H. by apply String.compare_eq_iff in E.
Qed.

Lemma kvTo_visit_sort (order : list (string * value)) :
  kvTo_visit order = sort_Sort ((fun p => mkKvE p.1 p.2) <$> order).
Proof.
  unfold kvTo_visit. f_equal.
  assert (forall acc, foldl (fun kvl p => kvl ++ [mkKvE p.1 p.2]) acc order
                      = acc ++ ((fun p => mkKvE p.1 p.2) <$> order)) as H.
  { induction order as [|p order IH]; intros acc; simpl.
    - by rewrite app_nil_r.
    - rewrite IH. by rewrite <- app_assoc. }
  apply (H []).
Qed.

Lemma keys_of_entries (order : list (string * value)) :
  K <$> ((fun p => mkKvE p.1 p.2) <$> order) = order.*1.
Proof. rewrite <- list_fmap_compose. reflexivity. Qed.

Lemma NoDup_keys_eq (l : kvL) (x y : kvE) :
  NoDup (K <$> l) -> x ∈ l -> y ∈ l -> K x = K y -> x = y.
Proof.
  induction l as [|z l IH]; intros Hnd Hx Hy E; [by apply elem_of_nil in Hx|].
  simpl in Hnd. apply NoDup_cons in Hnd as [Hz Hnd].
  apply elem_of_cons in Hx as [-> | Hx]; apply elem_of_cons in Hy as [-> | Hy].
  - reflexivity.
  - exfalso. apply Hz. rewrite E. by apply list_elem_of_fmap_2.
  - exfalso. apply Hz. rewrite <- E. by apply list_elem_of_fmap_2.
  - by apply IH.
Qed.

(** A list with distinct keys has one sorted arrangement, so any sorting
    procedure driven by [Less] returns what [sort_Sort] returns. *)
Lemma sorted_arrangement_unique (l l' : kvL) :
  NoDup (K <$> l) -> l' ≡ₚ l -> StronglySorted not_after l' -> l' = sort_Sort l.
Proof.
  intros Hnd Hp Hs.
  apply (StronglySorted_unique_strong not_after); [|exact Hs| |].
  - intros x1 x2 H1 H2 R12 R21.
    apply (NoDup_keys_eq l); [exact Hnd| | |by apply not_after_antisym].
    + by rewrite <- Hp.
    + unfold sort_Sort in H2. by rewrite merge_sort_Permutation in H2.
  - apply StronglySorted_merge_sort; apply _.
  - unfold sort_Sort. by rewrite merge_sort_Permutation.
Qed.

Lemma sort_Sort_strict (l : kvL) :
  NoDup (K <$> l) -> StronglySorted (fun a b => Less a b = true) (sort_Sort l).
Proof.
  intros Hnd.
  assert (NoDup (K <$> sort_Sort l)) as Hnd'.
  { unfold sort_Sort. by rewrite merge_sort_Permutation. }
  assert (StronglySorted not_after (sort_Sort l)) as Hs
    by (apply StronglySorted_merge_sort; apply _).
  clear Hnd. induction Hs as [|a s Hs IH Ha]; [constructor|].
  simpl in Hnd'. apply NoDup_cons in Hnd' as [Hk Hnd'].
  constructor; [by apply IH|].
  rewrite Forall_forall in Ha |- *. intros b Hb.
  apply Less_of_not_after; [by apply Ha|].
  intros E. apply Hk. rewrite E. by apply list_elem_of_fmap_2.
Qed.

Lemma kvTo_visit_perm (r1 r2 : list (string * value)) :
  NoDup r1.*1 -> r1 ≡ₚ r2 -> kvTo_visit r1 = kvTo_visit r2.
Proof.
  intros Hnd Hp. rewrite !kvTo_visit_sort.
  apply sorted_arrangement_unique.
  - rewrite keys_of_entries. by rewrite <- Hp.
  - unfold sort_Sort. rewrite merge_sort_Permutation. by rewrite Hp.
  - apply StronglySorted_merge_sort; apply _.
Qed.

(** C7: let the same pairs, with distinct keys, be put into two maps in
    the orders [l1] and [l2], and let the [range] loops of [kvTo] visit
    the two maps in any orders [r1] and [r2].  Both calls return the same
    list, so the same text of pairs is written; the list is strictly
    increasing in the byte-wise order of the keys and holds exactly the
    pairs given. *)
Theorem kvTo_order_insensitive (l1 l2 r1 r2 : list (string * value)) :
  NoDup l1.*1 ->
  l1 ≡ₚ l2 ->
  r1 ≡ₚ map_to_list (list_to_map l1 : gmap string value) ->
  r2 ≡ₚ map_to_list (list_to_map l2 : gmap string value) ->
  kvTo_visit r1 = kvTo_visit r2 /\
  pairs_text (kvTo_visit r1) = pairs_text (kvTo_visit r2) /\
  StronglySorted (fun a b => Less a b = true) (kvTo_visit r1) /\
  (forall k v, mkKvE k v ∈ kvTo_visit r1 <-> (k, v) ∈ l1) /\
  kvTo (Some (list_to_map l1)) = kvTo_visit r1.
Proof.
  intros Hnd Hl Hr1 Hr2.
  assert ((list_to_map l1 : gmap string value) = list_to_map l2) as Hm
    by (by apply list_to_map_proper).
  assert (NoDup r1.*1) as Hnd1 by (rewrite Hr1; apply NoDup_fst_map_to_list).
  assert (kvTo_visit r1 = kvTo_visit r2) as E.
  { apply kvTo_visit_perm; [exact Hnd1|]. by rewrite Hr1, Hr2, Hm. }
  split; [exact E|]. split; [by rewrite E|]. split; [|split].
  - rewrite kvTo_visit_sort. apply sort_Sort_strict.
    by rewrite keys_of_entries.
  - intros k v. rewrite kvTo_visit_sort. unfold sort_Sort.
    rewrite merge_sort_Permutation, Hr1.
    rewrite list_elem_of_fmap. split.
    + intros ([k' v'] & [= -> ->] & Hin).
      apply elem_of_map_to_list in Hin. by apply elem_of_list_to_map in Hin.
    + intros Hin. exists (k, v). split; [reflexivity|].
      apply elem_of_map_to_list. by apply elem_of_list_to_map.
  - unfold kvTo, entries; simpl. symmetry. by apply kvTo_visit_perm.
Qed.

Lemma kvTo_order_insensitive_witness :
  kvTo_visit [("foo", VString "a"); ("bar", VString "a")] =
  kvTo_visit [("bar", VString "a"); ("foo", VString "a")] /\
  kvTo_visit [("foo", VString "a"); ("bar", VString "a")] =
  [mkKvE "bar" (VString "a"); mkKvE "foo" (VString "a")].
Proof.
  assert (NoDup [("foo", VString "a"); ("bar", VString "a")].*1) as Hnd.
  { simpl. apply NoDup_cons. split; [|apply NoDup_singleton].
    intros H%list_elem_of_singleton. discriminate H. }
  assert ([("foo", VString "a"); ("bar", VString "a")]
          ≡ₚ [("bar", VString "a"); ("foo", VString "a")]) as Hp by apply perm_swap.
  destruct (kvTo_order_insensitive
              [("foo", VString "a"); ("bar", VString "a")]
              [("bar", VString "a"); ("foo", VString "a")]
              [("foo", VString "a"); ("bar", VString "a")]
              [("bar", VString "a"); ("foo", VString "a")]
              Hnd Hp) as (E & _).
  - rewrite map_to_list_to_map by exact Hnd. reflexivity.
  - rewrite map_to_list_to_map.
    + reflexivity.
    + by rewrite <- Hp.
  - split; [exact E|]. reflexivity.
Defined.

(** ** C10: [SetLevelFromString] *)

Section LevelFromString.

Variable unicode_ToUpper : string -> string.
Variable unicode_Quote : string -> string.

Lemma SetLevelFromString_known (ls : string) (cur l : Level) :
  (ToUpper unicode_ToUpper ls, l) ∈ level_table ->
  SetLevelFromString unicode_ToUpper unicode_Quote ls cur = (l, None).
Proof.
  unfold level_table. rewrite !elem_of_cons.
  intros [E | [E | [E | [E | [E | E]]]]]; [..|by apply elem_of_nil in E];
    injection E as Eu ->; unfold SetLevelFromString; rewrite Eu; reflexivity.
Qed.

Lemma SetLevelFromString_unknown (ls : string) (cur : Level) :
  (forall l, (ToUpper unicode_ToUpper ls, l) ∉ level_table) ->
  SetLevelFromString unicode_ToUpper unicode_Quote ls cur =
    (cur, Some (errorString ("unknown log level " +:+ Quote unicode_Quote ls))).
Proof.
  intros Hn. unfold SetLevelFromString.
  repeat match goal with
  | |- context [String.eqb ?u ?name] =>
    destruct (String.eqb_spec u name) as [E|_];
      [exfalso; eapply Hn; rewrite E; unfold level_table;
       rewrite !elem_of_cons; eauto 10|]
  end.
  reflexivity.
Qed.

End LevelFromString.

(** C10: [SetLevelFromString] looks the upper-cased input up among the
    five names.  On a hit it sets the level of that name and returns no
    error.  On a miss it returns the error whose text quotes the input and
    the level read back by [GetLevel] is the one before the call.  Two
    ASCII inputs that differ only in the case of letters get the same
    answer. *)
Theorem SetLevelFromString_spec (unicode_ToUpper unicode_Quote : string -> string)
  (ls : string) (cur : Level) :
  (forall l, (ToUpper unicode_ToUpper ls, l) ∈ level_table ->
     SetLevelFromString unicode_ToUpper unicode_Quote ls cur = (l, None)) /\
  ((forall l, (ToUpper unicode_ToUpper ls, l) ∉ level_table) ->
     SetLevelFromString unicode_ToUpper unicode_Quote ls cur =
       (cur, Some (errorString ("unknown log level " +:+ Quote unicode_Quote ls))) /\
     GetLevel (SetLevelFromString unicode_ToUpper unicode_Quote ls cur).1 = cur) /\
  (Bytes.all_ascii ls = true ->
     ToUpper unicode_ToUpper ls = Bytes.map Bytes.upper ls /\
     Quote unicode_Quote ls = QuoteToASCII ls) /\
  (forall ls', Bytes.all_ascii ls = true -> Bytes.all_ascii ls' = true ->
     Bytes.map Bytes.upper ls = Bytes.map Bytes.upper ls' ->
     (SetLevelFromString unicode_ToUpper unicode_Quote ls cur).1 =
     (SetLevelFromString unicode_ToUpper unicode_Quote ls' cur).1 /\
     ((SetLevelFromString unicode_ToUpper unicode_Quote ls cur).2 = None <->
      (SetLevelFromString unicode_ToUpper unicode_Quote ls' cur).2 = None)).
Proof.
  split; [intros l; apply SetLevelFromString_known|].
  split; [intros Hn; rewrite SetLevelFromString_unknown by exact Hn; done|].
  split; [intros Ha; unfold ToUpper, Quote; by rewrite Ha|].
  intros ls' Ha Ha' E.
  assert (ToUpper unicode_ToUpper ls = ToUpper unicode_ToUpper ls') as Eu
    by (unfold ToUpper; by rewrite Ha, Ha', E).
  unfold SetLevelFromString. rewrite Eu.
  repeat match goal with
  | |- context [String.eqb ?u ?name] => destruct (String.eqb u name)
  end; simpl; split; try reflexivity; split; intros; try done.
Qed.

Lemma SetLevelFromString_spec_witness :
  SetLevelFromString (fun s => s) (fun s => s) "wArn" InfoLevel = (WarnLevel, None) /\
  SetLevelFromString (fun s => s) (fun s => s) "BOGUS" WarnLevel =
    (WarnLevel,
     Some (errorString ("unknown log level " +:+
                        String dquote ("BOGUS" +:+ String dquote "")))).
Proof.
  split.
  - apply (SetLevelFromString_spec (fun s => s) (fun s => s) "wArn" InfoLevel).
    unfold level_table. rewrite !elem_of_cons. right. right. left. reflexivity.
  - destruct (SetLevelFromString_spec (fun s => s) (fun s => s) "BOGUS" WarnLevel)
      as (_ & H & _).
    destruct H as [E _]; [|exact E].
    intros l. unfold level_table. rewrite !elem_of_cons, elem_of_nil.
    intros [E | [E | [E | [E | [E | []]]]]]; discriminate E.
Defined.

(** ** C8: the text of a value *)

Lemma all_printable_app a b :
  Bytes.all_printable (a +:+ b) = Bytes.all_printable a && Bytes.all_printable b.
Proof.
  induction a as [|x a IH]; [reflexivity|].
  change (Bytes.all_printable (String x (a +:+ b)) = Bytes.all_printable (String x a) && Bytes.all_printable b).
  simpl. rewrite IH. by rewrite andb_assoc.
Qed.

Lemma mem_app c a b : Bytes.mem c (a +:+ b) = Bytes.mem c a || Bytes.mem c b.
Proof.
  induction a as [|x a IH]; [reflexivity|].
  change (Bytes.mem c (String x (a +:+ b)) = Bytes.mem c (String x a) || Bytes.mem c b).
  simpl. rewrite IH. by destruct (Ascii.eqb c x).
Qed.

Lemma safe_app a b : safe (a +:+ b) = safe a && safe b.
Proof.
  unfold safe. rewrite all_printable_app, mem_app.
  destruct (Bytes.all_printable a), (Bytes.all_printable b), (Bytes.mem dquote a), (Bytes.mem dquote b); reflexivity.
Qed.

Lemma lowerhex_safe n : safe (String (Bytes.lowerhex n) "") = true.
Proof. unfold Bytes.lowerhex. repeat case_match; reflexivity. Qed.

Lemma hex_byte_safe b : safe (hex_byte b) = true.
Proof.
  unfold hex_byte.
  change (String ?x (String ?y "")) with (String x "" +:+ String y "").
  by rewrite safe_app, !lowerhex_safe.
Qed.

Lemma hex_digits_safe d r : safe (hex_digits d r) = true.
Proof.
  induction d as [|d IH]; [reflexivity|].
  simpl hex_digits.
  change (String ?x ?y) with (String x "" +:+ y).
  by rewrite safe_app, lowerhex_safe, IH.
Qed.

Lemma code_ascii_of_N r : (r < 256)%N -> Bytes.code (ascii_of_N r) = r.
Proof. apply N_ascii_embedding. Qed.

Lemma escapedRune_safe r : r <> 34%N -> safe (escapedRune r) = true.
Proof.
  intros Hr. unfold escapedRune.
  destruct (N.eqb_spec r 34) as [|_]; [done|].
  destruct (N.eqb_spec r 92) as [->|_]; [reflexivity|]. simpl orb. cbv iota.
  destruct ((r <? 128)%N && (32 <=? r)%N && (r <? 127)%N) eqn:Hp.
  - apply andb_prop in Hp as [Hp H3]. apply andb_prop in Hp as [H1 H2].
    assert (r < 256)%N as Hb by (apply N.ltb_lt in H1; lia).
    change (safe (String (ascii_of_N r) ""))
      with (Bytes.printable (ascii_of_N r) && true
            && negb (if Ascii.eqb dquote (ascii_of_N r) then true else false)).
    unfold Bytes.printable. rewrite (code_ascii_of_N r Hb), H2, H3.
    destruct (Ascii.eqb_spec dquote (ascii_of_N r)) as [E|_]; [|reflexivity].
    exfalso. apply Hr. rewrite <- (code_ascii_of_N r Hb). by rewrite <- E.
  - repeat match goal with
    | |- context [N.eqb r ?k] => destruct (N.eqb r k); [reflexivity|]
    end.
    repeat match goal with
    | |- context [if ?b then _ else _] => destruct b
    end; rewrite safe_app; rewrite ?hex_byte_safe, ?hex_digits_safe; reflexivity.
Qed.

Lemma N_lor_ge_l a b : (a <= N.lor a b)%N.
Proof.
  apply N.ldiff_le. apply N.bits_inj. intros n.
  rewrite N.ldiff_spec, N.lor_spec, N.bits_0.
  by destruct (N.testbit a n), (N.testbit b n).
Qed.

Lemma N_lor_ge_r a b : (b <= N.lor a b)%N.
Proof. rewrite N.lor_comm. apply N_lor_ge_l. Qed.

Lemma code_bound c : (Bytes.code c < 256)%N.
Proof. apply N_ascii_bounded. Qed.

Lemma utf8_first_Some s0 sz lo hi :
  utf8_first s0 = Some (sz, lo, hi) ->
  (hi <= 0xBF)%N /\
  ((sz = 2%nat /\ 0xC2 <= s0 <= 0xDF)%N \/
  (sz = 3%nat /\ ((s0 = 0xE0 /\ lo = 0xA0) \/ (0xE1 <= s0 <= 0xEF)))%N \/
  (sz = 4%nat /\ ((s0 = 0xF0 /\ lo = 0x90) \/ (0xF1 <= s0 <= 0xF4)))%N).
Proof.
  unfold utf8_first.
  repeat match goal with
  | |- context [N.ltb ?a ?b] => destruct (N.ltb_spec a b)
  | |- context [N.leb ?a ?b] => destruct (N.leb_spec a b)
  | |- context [N.eqb ?a ?b] => destruct (N.eqb_spec a b)
  end; intros [= <- <- <-] || discriminate; lia.
Qed.

Ltac Zify.zify_post_hook ::= Z.to_euclidean_division_equations.

Lemma land_low (a : N) (n : N) : N.land a (N.ones n) = (a mod 2 ^ n)%N.
Proof. apply N.land_ones. Qed.

Lemma decode_high (c0 : ascii) (t : string) :
  (128 <= Bytes.code c0)%N ->
  (128 <= (DecodeRuneInString (String c0 t)).1)%N.
Proof.
  intros Hc. unfold DecodeRuneInString.
  destruct (N.ltb_spec (Bytes.code c0) 128) as [Hlt|_]; [lia|].
  destruct (utf8_first (Bytes.code c0)) as [[[sz lo] hi]|] eqn:Ef;
    [|destruct t; unfold RuneError; simpl; lia].
  apply utf8_first_Some in Ef as [Hhi' Ef].
  destruct t as [|c1 t1]; [unfold RuneError; simpl; lia|].
  destruct (negb _) eqn:H1; [unfold RuneError; simpl; lia|].
  apply negb_false_iff, andb_prop in H1 as [Hlo Hhi].
  apply N.leb_le in Hlo, Hhi.
  pose proof (code_bound c0) as B0. pose proof (code_bound c1) as B1.
  assert (forall x, N.land x 0x1F = x mod 32)%N as L5 by (intros x; apply (land_low x 5)).
  assert (forall x, N.land x 0x0F = x mod 16)%N as L4 by (intros x; apply (land_low x 4)).
  assert (forall x, N.land x 0x07 = x mod 8)%N as L3 by (intros x; apply (land_low x 3)).
  assert (forall x, N.land x 0x3F = x mod 64)%N as L6 by (intros x; apply (land_low x 6)).
  destruct Ef as [[-> R]|[[-> R]|[-> R]]]; simpl Nat.leb; cbv iota.
  - simpl fst. etrans; [|apply N_lor_ge_l].
    rewrite N.shiftl_mul_pow2, L5. change (2 ^ 6)%N with 64%N. lia.
  - destruct t1 as [|c2 t2]; [unfold RuneError; simpl; lia|].
    destruct (negb _) eqn:H2; [unfold RuneError; simpl; lia|].
    simpl fst. rewrite !N.shiftl_mul_pow2, L4, L6.
    change (2 ^ 12)%N with 4096%N. change (2 ^ 6)%N with 64%N.
    pose proof (N_lor_ge_l ((Bytes.code c0 mod 16) * 4096)
      (N.lor ((Bytes.code c1 mod 64) * 64) (N.land (Bytes.code c2) 63))).
    pose proof (N_lor_ge_r ((Bytes.code c0 mod 16) * 4096)
      (N.lor ((Bytes.code c1 mod 64) * 64) (N.land (Bytes.code c2) 63))).
    pose proof (N_lor_ge_l ((Bytes.code c1 mod 64) * 64) (N.land (Bytes.code c2) 63)).
    lia.
  - destruct t1 as [|c2 t2]; [unfold RuneError; simpl; lia|].
    destruct (negb (utf8_cont (Bytes.code c2))) eqn:H2; [unfold RuneError; simpl; lia|].
    destruct t2 as [|c3 t3]; [unfold RuneError; simpl; lia|].
    destruct (negb (utf8_cont (Bytes.code c3))) eqn:H3; [unfold RuneError; simpl; lia|].
    simpl fst. rewrite !N.shiftl_mul_pow2, L3, !L6.
    change (2 ^ 18)%N with 262144%N. change (2 ^ 12)%N with 4096%N.
    match goal with
    | |- (_ <= N.lor ?a (N.lor ?b ?c))%N =>
      pose proof (N_lor_ge_l a (N.lor b c)); pose proof (N_lor_ge_r a (N.lor b c));
      pose proof (N_lor_ge_l b c)
    end.
    lia.
Qed.

Lemma decode_ascii (c0 : ascii) (t : string) :
  (Bytes.code c0 < 128)%N -> DecodeRuneInString (String c0 t) = (Bytes.code c0, 1%nat).
Proof.
  intros H. unfold DecodeRuneInString.
  by destruct (N.ltb_spec (Bytes.code c0) 128) as [_|Hge]; [|lia].
Qed.

Lemma decode_width_pos (c0 : ascii) (t : string) :
  (1 <= (DecodeRuneInString (String c0 t)).2)%nat.
Proof.
  unfold DecodeRuneInString.
  repeat match goal with
  | |- context [if ?b then _ else _] => destruct b
  | |- context [match ?x with _ => _ end] => destruct x
  end; simpl; lia.
Qed.

Lemma code_dquote (c : ascii) : c <> dquote -> Bytes.code c <> 34%N.
Proof.
  intros Hc E. apply Hc. rewrite <- (ascii_N_embedding c).
  unfold Bytes.code in E. by rewrite E.
Qed.

Lemma chunk_safe (c0 : ascii) (t : string) (r : N) (width : nat) :
  c0 <> dquote ->
  DecodeRuneInString (String c0 t) = (r, width) ->
  safe (if (width =? 1)%nat && (r =? RuneError)%N
        then "\x" +:+ hex_byte (Bytes.code c0)
        else escapedRune r) = true.
Proof.
  intros Hc E.
  destruct ((width =? 1)%nat && (r =? RuneError)%N).
  - by rewrite safe_app, hex_byte_safe.
  - apply escapedRune_safe.
    destruct (N.lt_ge_cases (Bytes.code c0) 128) as [Hlt|Hge].
    + rewrite decode_ascii in E by exact Hlt. injection E as <- _.
      by apply code_dquote.
    + pose proof (decode_high c0 t Hge) as H. rewrite E in H. simpl in H. lia.
Qed.

Lemma mem_skip (c : ascii) (n : nat) (s : string) :
  Bytes.mem c s = false -> Bytes.mem c (skip n s) = false.
Proof.
  revert s. induction n as [|n IH]; intros s H; [by destruct s|].
  destruct s as [|x s]; [reflexivity|]. cbn [Bytes.mem skip] in H |- *.
  apply IH. by destruct (Ascii.eqb c x).
Qed.

Lemma quote_loop_safe (fuel : nat) (s : string) :
  Bytes.mem dquote s = false -> safe (quote_loop fuel s) = true.
Proof.
  revert s. induction fuel as [|f IH]; intros s Hs; [reflexivity|].
  destruct s as [|c0 t]; [reflexivity|].
  unfold quote_loop; fold quote_loop.
  destruct (DecodeRuneInString (String c0 t)) as [r width] eqn:E.
  rewrite safe_app. apply andb_true_intro. split.
  - apply (chunk_safe c0 t r width); [|exact E].
    intros ->. cbn [Bytes.mem] in Hs. by rewrite Ascii.eqb_refl in Hs.
  - apply IH. by apply mem_skip.
Qed.

Lemma length_skip (n : nat) (s : string) :
  (String.length (skip n s) = String.length s - n)%nat.
Proof.
  revert s. induction n as [|n IH]; intros s; [destruct s; simpl; lia|].
  destruct s as [|x s]; [reflexivity|]. simpl. apply IH.
Qed.

(** Any fuel of at least [len(s)] gives the loop's full output. *)
Lemma quote_loop_fuel (f1 f2 : nat) (s : string) :
  (String.length s <= f1)%nat -> (String.length s <= f2)%nat ->
  quote_loop f1 s = quote_loop f2 s.
Proof.
  revert f2 s. induction f1 as [|f1 IH]; intros f2 s H1 H2.
  - destruct s; [by destruct f2|simpl in H1; lia].
  - destruct s as [|c0 t]; [by destruct f2|].
    destruct f2 as [|f2]; [simpl in H2; lia|].
    unfold quote_loop; fold quote_loop.
    pose proof (decode_width_pos c0 t) as Hw.
    destruct (DecodeRuneInString (String c0 t)) as [r width]. simpl in Hw.
    f_equal. apply IH; rewrite length_skip; simpl in *; lia.
Qed.

Lemma Replace_no_dquote (s : string) : Bytes.mem dquote (Replace s dquote squote) = false.
Proof.
  induction s as [|c s IH]; [reflexivity|].
  unfold Replace in *. cbn [Bytes.map Bytes.mem].
  destruct (Ascii.eqb_spec c dquote) as [->|Hc]; [exact IH|].
  destruct (Ascii.eqb_spec dquote c) as [E|_]; [by symmetry in E|exact IH].
Qed.

Lemma Replace_length (s : string) (old new : ascii) :
  String.length (Replace s old new) = String.length s.
Proof.
  induction s as [|c s IH]; [reflexivity|].
  unfold Replace in *. cbn [Bytes.map String.length]. by rewrite IH.
Qed.

Lemma Replace_id (s : string) (old new : ascii) :
  Bytes.mem old s = false -> Replace s old new = s.
Proof.
  induction s as [|c s IH]; [reflexivity|].
  unfold Replace in *. cbn [Bytes.map Bytes.mem].
  rewrite (Ascii.eqb_sym c old).
  destruct (Ascii.eqb old c); [discriminate|]. intros H. by rewrite IH.
Qed.

Lemma QuoteToASCII_safe (s : string) :
  Bytes.mem dquote s = false -> quoted_safe (QuoteToASCII s).
Proof.
  intros Hs. exists (quote_loop (String.length s) s). split; [reflexivity|].
  pose proof (quote_loop_safe (String.length s) s Hs) as H.
  unfold safe in H. apply andb_prop in H as [H1 H2].
  split; [exact H1|]. by apply negb_true_iff.
Qed.

(** *** Reading a quoted text back *)

Lemma lor_disjoint (a b : N) (k : N) :
  (a mod 2 ^ k = 0)%N -> (b < 2 ^ k)%N -> N.lor a b = (a + b)%N.
Proof.
  intros Ha Hb.
  assert (N.land a b = 0%N) as Hl.
  { apply N.bits_inj. intros n. rewrite N.land_spec, N.bits_0.
    destruct (N.lt_ge_cases n k) as [Hn|Hn].
    - assert (N.testbit a n = false) as ->; [|reflexivity].
      rewrite <- (N.mod_pow2_bits_low a k n Hn). rewrite Ha. apply N.bits_0.
    - assert (N.testbit b n = false) as ->; [|apply andb_false_r].
      rewrite <- (N.mod_small b (2 ^ k) Hb). by apply N.mod_pow2_bits_high. }
  rewrite <- N.lxor_lor by exact Hl. symmetry. by apply N.add_nocarry_lxor.
Qed.

Lemma unhex_lowerhex (x : N) : (x < 16)%N -> unhex (Bytes.code (Bytes.lowerhex x)) = Some x.
Proof.
  intros Hx.
  assert (x = 0 \/ x = 1 \/ x = 2 \/ x = 3 \/ x = 4 \/ x = 5 \/ x = 6 \/ x = 7 \/
          x = 8 \/ x = 9 \/ x = 10 \/ x = 11 \/ x = 12 \/ x = 13 \/ x = 14 \/ x = 15)%N
    as H by lia.
  repeat destruct H as [->|H]; try reflexivity. by subst x.
Qed.

Lemma hex_value_digits (n : nat) (r v : N) (rest : string) :
  hex_value n (hex_digits n r +:+ rest) v =
    Some ((v * 16 ^ N.of_nat n + r mod 16 ^ N.of_nat n)%N, rest).
Proof.
  revert v. induction n as [|n IH]; intros v.
  - simpl. rewrite N.mod_1_r. do 2 f_equal. lia.
  - cbn [hex_digits hex_value]. change (String ?c ?a +:+ rest) with (String c (a +:+ rest)).
    cbn [hex_value].
    rewrite unhex_lowerhex.
    2:{ change 15%N with (N.ones 4). rewrite N.land_ones. apply N.mod_upper_bound. discriminate. }
    rewrite IH. do 2 f_equal.
    change 15%N with (N.ones 4). rewrite N.land_ones.
    rewrite N.shiftr_div_pow2, N.shiftl_mul_pow2.
    rewrite (lor_disjoint _ _ 4).
    2:{ change (2 ^ 4)%N with 16%N. rewrite N.Div0.mod_mul. reflexivity. }
    2:{ apply N.mod_upper_bound. discriminate. }
    replace (2 ^ (4 * N.of_nat n))%N with (16 ^ N.of_nat n)%N
      by (rewrite N.pow_mul_r; reflexivity).
    rewrite Nat2N.inj_succ, N.pow_succ_r'.
    change (2 ^ 4)%N with 16%N.
    set (p := (16 ^ N.of_nat n)%N).
    assert (0 < p)%N as Hp by (apply N.neq_0_lt_0, N.pow_nonzero; discriminate).
    rewrite (N.mul_comm 16 p).
    rewrite (N.Div0.mod_mul_r r p 16). lia.
Qed.

Lemma hex_value_byte (b : N) (rest : string) :
  (b < 256)%N -> hex_value 2 (hex_byte b +:+ rest) 0 = Some (b, rest).
Proof.
  intros Hb. unfold hex_byte.
  change (String ?c (String ?d "") +:+ rest) with (String c (String d rest)).
  cbn [hex_value].
  rewrite N.shiftr_div_pow2. change (2 ^ 4)%N with 16%N.
  rewrite unhex_lowerhex by lia.
  change 15%N with (N.ones 4). rewrite N.land_ones. change (2 ^ 4)%N with 16%N.
  rewrite unhex_lowerhex by lia.
  do 2 f_equal.
  rewrite !N.shiftl_mul_pow2. change (2 ^ 4)%N with 16%N.
  rewrite N.lor_0_l.
  rewrite (lor_disjoint _ _ 4).
  - lia.
  - change (2 ^ 4)%N with 16%N. lia.
  - change (2 ^ 4)%N with 16%N. lia.
Qed.

Lemma byte_of_code (c : ascii) (n : N) : n = Bytes.code c -> byte_of n = c.
Proof.
  intros ->. unfold byte_of. rewrite N.mod_small by apply code_bound.
  apply ascii_N_embedding.
Qed.

Lemma keep_skip (n : nat) (s : string) : keep n s +:+ skip n s = s.
Proof.
  revert s. induction n as [|n IH]; intros [|c t]; try reflexivity.
  cbn [keep skip]. change (String c (keep n t) +:+ skip n t)
    with (String c (keep n t +:+ skip n t)). by rewrite IH.
Qed.

(** The escape of an ASCII byte reads back as that byte. *)
Lemma UnquoteChar_ascii (c0 : ascii) (rest : string) :
  (Bytes.code c0 < 128)%N ->
  UnquoteChar (escapedRune (Bytes.code c0) +:+ rest) = Some (Bytes.code c0, false, rest).
Proof.
  intros Hc. destruct c0 as [b0 b1 b2 b3 b4 b5 b6 b7].
  destruct b7; [exfalso; destruct b0, b1, b2, b3, b4, b5, b6; vm_compute in Hc; discriminate Hc|].
  clear Hc. destruct b0, b1, b2, b3, b4, b5, b6; vm_compute; reflexivity.
Qed.

Lemma UnquoteChar_x (b : N) (rest : string) :
  (b < 256)%N -> UnquoteChar ("\x" +:+ hex_byte b +:+ rest) = Some (b, false, rest).
Proof.
  intros Hb.
  change (UnquoteChar ("\x" +:+ hex_byte b +:+ rest))
    with (match hex_value 2 (hex_byte b +:+ rest) 0 with
          | Some (v, tail) => Some (v, false, tail)
          | None => None
          end).
  by rewrite hex_value_byte.
Qed.

Lemma UnquoteChar_u (r : N) (rest : string) :
  (r < 0x10000)%N -> ValidRune r = true ->
  UnquoteChar ("\u" +:+ hex_digits 4 r +:+ rest) = Some (r, true, rest).
Proof.
  intros Hr Hv.
  change (UnquoteChar ("\u" +:+ hex_digits 4 r +:+ rest))
    with (match hex_value 4 (hex_digits 4 r +:+ rest) 0 with
          | Some (v, tail) => if ValidRune v then Some (v, true, tail) else None
          | None => None
          end).
  rewrite hex_value_digits. change (16 ^ N.of_nat 4)%N with 0x10000%N.
  rewrite N.mul_0_l, N.add_0_l, N.mod_small by exact Hr. by rewrite Hv.
Qed.

Lemma UnquoteChar_U (r : N) (rest : string) :
  (r < 0x100000000)%N -> ValidRune r = true ->
  UnquoteChar ("\U" +:+ hex_digits 8 r +:+ rest) = Some (r, true, rest).
Proof.
  intros Hr Hv.
  change (UnquoteChar ("\U" +:+ hex_digits 8 r +:+ rest))
    with (match hex_value 8 (hex_digits 8 r +:+ rest) 0 with
          | Some (v, tail) => if ValidRune v then Some (v, true, tail) else None
          | None => None
          end).
  rewrite hex_value_digits. change (16 ^ N.of_nat 8)%N with 0x100000000%N.
  rewrite N.mul_0_l, N.add_0_l, N.mod_small by exact Hr. by rewrite Hv.
Qed.

(** A rune above ASCII is written as [\u] or [\U] with its hexadecimal
    digits. *)
Lemma escapedRune_high (r : N) :
  (128 <= r)%N -> ValidRune r = true ->
  escapedRune r = if (r <? 0x10000)%N then "\u" +:+ hex_digits 4 r
                  else "\U" +:+ hex_digits 8 r.
Proof.
  intros Hr Hv. unfold escapedRune. rewrite Hv.
  repeat match goal with
  | |- context [N.eqb ?a ?b] => destruct (N.eqb_spec a b); [lia|]
  | |- context [N.ltb r ?b] =>
    lazymatch b with
    | 0x10000%N => fail
    | _ => destruct (N.ltb_spec r b); [lia|]
    end
  end.
  reflexivity.
Qed.

Ltac bits_to_arith :=
  change 0x3F%N with (N.ones 6); change 0x1F%N with (N.ones 5);
  change 0x0F%N with (N.ones 4); change 0x07%N with (N.ones 3);
  rewrite ?N.land_ones, ?N.shiftl_mul_pow2, ?N.shiftr_div_pow2;
  change (2 ^ 3)%N with 8%N; change (2 ^ 4)%N with 16%N;
  change (2 ^ 5)%N with 32%N; change (2 ^ 6)%N with 64%N;
  change (2 ^ 12)%N with 4096%N; change (2 ^ 18)%N with 262144%N.

Lemma decode2 (s0 s1 : N) :
  (0xC2 <= s0 <= 0xDF)%N -> (0x80 <= s1 <= 0xBF)%N ->
  N.lor (N.shiftl (N.land s0 0x1F) 6) (N.land s1 0x3F) =
    ((s0 - 0xC0) * 64 + (s1 - 0x80))%N.
Proof.
  intros H0 H1. bits_to_arith.
  rewrite (lor_disjoint _ _ 6); change (2 ^ 6)%N with 64%N; lia.
Qed.

Lemma decode3 (s0 s1 s2 : N) :
  (0xE0 <= s0 <= 0xEF)%N -> (0x80 <= s1 <= 0xBF)%N -> (0x80 <= s2 <= 0xBF)%N ->
  N.lor (N.shiftl (N.land s0 0x0F) 12)
    (N.lor (N.shiftl (N.land s1 0x3F) 6) (N.land s2 0x3F)) =
    ((s0 - 0xE0) * 4096 + (s1 - 0x80) * 64 + (s2 - 0x80))%N.
Proof.
  intros H0 H1 H2. bits_to_arith.
  rewrite (lor_disjoint (s1 mod 64 * 64) _ 6); change (2 ^ 6)%N with 64%N; [|lia|lia].
  rewrite (lor_disjoint _ _ 12); change (2 ^ 12)%N with 4096%N; lia.
Qed.

Lemma decode4 (s0 s1 s2 s3 : N) :
  (0xF0 <= s0 <= 0xF4)%N -> (0x80 <= s1 <= 0xBF)%N -> (0x80 <= s2 <= 0xBF)%N ->
  (0x80 <= s3 <= 0xBF)%N ->
  N.lor (N.shiftl (N.land s0 0x07) 18)
    (N.lor (N.shiftl (N.land s1 0x3F) 12)
       (N.lor (N.shiftl (N.land s2 0x3F) 6) (N.land s3 0x3F))) =
    ((s0 - 0xF0) * 262144 + (s1 - 0x80) * 4096 + (s2 - 0x80) * 64 + (s3 - 0x80))%N.
Proof.
  intros H0 H1 H2 H3. bits_to_arith.
  rewrite (lor_disjoint (s2 mod 64 * 64) _ 6); change (2 ^ 6)%N with 64%N; [|lia|lia].
  rewrite (lor_disjoint (s1 mod 64 * 4096) _ 12); change (2 ^ 12)%N with 4096%N; [|lia|lia].
  rewrite (lor_disjoint _ _ 18); change (2 ^ 18)%N with 262144%N; lia.
Qed.

(** Encoding the rune of two, three or four well-formed bytes gives the
    bytes back. *)
Lemma encode2 (c0 c1 : ascii) (r : N) :
  (0xC2 <= Bytes.code c0 <= 0xDF)%N -> (0x80 <= Bytes.code c1 <= 0xBF)%N ->
  r = ((Bytes.code c0 - 0xC0) * 64 + (Bytes.code c1 - 0x80))%N ->
  (128 <= r < 0x10000)%N /\ ValidRune r = true /\
  EncodeRune r = String c0 (String c1 "").
Proof.
  intros H0 H1 Hr.
  assert (128 <= r <= 0x7FF)%N as Hb by lia.
  split; [lia|]. split.
  { unfold ValidRune. destruct (N.ltb_spec r 0xD800); [reflexivity|lia]. }
  unfold EncodeRune.
  destruct (N.leb_spec r 0x7F); [lia|]. destruct (N.leb_spec r 0x7FF); [|lia].
  bits_to_arith.
  rewrite (lor_disjoint 192 _ 6), (lor_disjoint 128 _ 6);
    change (2 ^ 6)%N with 64%N; try lia.
  f_equal; [|f_equal]; apply byte_of_code; lia.
Qed.

Lemma encode3 (c0 c1 c2 : ascii) (r : N) :
  (0xE0 <= Bytes.code c0 <= 0xEF)%N -> (0x80 <= Bytes.code c1 <= 0xBF)%N ->
  (0x80 <= Bytes.code c2 <= 0xBF)%N ->
  (Bytes.code c0 = 0xE0 -> 0xA0 <= Bytes.code c1)%N ->
  (Bytes.code c0 = 0xED -> Bytes.code c1 <= 0x9F)%N ->
  r = ((Bytes.code c0 - 0xE0) * 4096 + (Bytes.code c1 - 0x80) * 64
       + (Bytes.code c2 - 0x80))%N ->
  (128 <= r < 0x10000)%N /\ ValidRune r = true /\
  EncodeRune r = String c0 (String c1 (String c2 "")).
Proof.
  intros H0 H1 H2 HE0 HED Hr.
  assert (0x800 <= r <= 0xFFFF)%N as Hb by lia.
  assert (ValidRune r = true) as Hv.
  { unfold ValidRune. destruct (N.ltb_spec r 0xD800); [reflexivity|].
    destruct (N.ltb_spec 0xDFFF r); [|lia].
    destruct (N.leb_spec r 0x10FFFF); [reflexivity|lia]. }
  split; [lia|]. split; [exact Hv|].
  unfold EncodeRune. rewrite Hv.
  destruct (N.leb_spec r 0x7F); [lia|]. destruct (N.leb_spec r 0x7FF); [lia|].
  destruct (N.leb_spec r 0xFFFF); [|lia].
  bits_to_arith.
  rewrite (lor_disjoint 224 _ 4), !(lor_disjoint 128 _ 6);
    change (2 ^ 6)%N with 64%N; change (2 ^ 4)%N with 16%N; try lia.
  f_equal; [|f_equal; [|f_equal]]; apply byte_of_code; lia.
Qed.

Lemma encode4 (c0 c1 c2 c3 : ascii) (r : N) :
  (0xF0 <= Bytes.code c0 <= 0xF4)%N -> (0x80 <= Bytes.code c1 <= 0xBF)%N ->
  (0x80 <= Bytes.code c2 <= 0xBF)%N -> (0x80 <= Bytes.code c3 <= 0xBF)%N ->
  (Bytes.code c0 = 0xF0 -> 0x90 <= Bytes.code c1)%N ->
  (Bytes.code c0 = 0xF4 -> Bytes.code c1 <= 0x8F)%N ->
  r = ((Bytes.code c0 - 0xF0) * 262144 + (Bytes.code c1 - 0x80) * 4096
       + (Bytes.code c2 - 0x80) * 64 + (Bytes.code c3 - 0x80))%N ->
  (0x10000 <= r < 0x100000000)%N /\ ValidRune r = true /\
  EncodeRune r = String c0 (String c1 (String c2 (String c3 ""))).
Proof.
  intros H0 H1 H2 H3 HF0 HF4 Hr.
  assert (0x10000 <= r <= 0x10FFFF)%N as Hb by lia.
  assert (ValidRune r = true) as Hv.
  { unfold ValidRune. destruct (N.ltb_spec r 0xD800); [reflexivity|].
    destruct (N.ltb_spec 0xDFFF r); [|lia].
    destruct (N.leb_spec r 0x10FFFF); [reflexivity|lia]. }
  split; [lia|]. split; [exact Hv|].
  unfold EncodeRune. rewrite Hv.
  destruct (N.leb_spec r 0x7F); [lia|]. destruct (N.leb_spec r 0x7FF); [lia|].
  destruct (N.leb_spec r 0xFFFF); [lia|].
  bits_to_arith.
  rewrite (lor_disjoint 240 _ 3), !(lor_disjoint 128 _ 6);
    change (2 ^ 6)%N with 64%N; change (2 ^ 3)%N with 8%N; try lia.
  f_equal; [|f_equal; [|f_equal; [|f_equal]]]; apply byte_of_code; lia.
Qed.

(** What [DecodeRuneInString] accepts as a sequence of two to four bytes
    is the encoding of the rune it returns. *)
Lemma decode_multibyte (c0 : ascii) (t : string) (r : N) (w : nat) :
  DecodeRuneInString (String c0 t) = (r, w) -> w <> 1%nat ->
  (128 <= r < 0x100000000)%N /\ ValidRune r = true /\
  EncodeRune r = keep w (String c0 t).
Proof.
  unfold DecodeRuneInString.
  destruct (N.ltb_spec (Bytes.code c0) 128) as [Hlt|Hge]; [by intros [= <- <-]|].
  destruct (utf8_first (Bytes.code c0)) as [[[sz lo] hi]|] eqn:Ef;
    [|by destruct t; intros [= <- <-]].
  pose proof Ef as Ef'. apply utf8_first_Some in Ef' as [Hhi' Hsz].
  assert (0x80 <= lo)%N as Hlo'.
  { revert Ef. unfold utf8_first.
    repeat match goal with
    | |- context [if ?b then _ else _] => destruct b
    end; intros [= <- <- <-] || discriminate; lia. }
  destruct t as [|c1 t1]; [by intros [= <- <-]|].
  destruct (negb _) eqn:H1; [by intros [= <- <-]|].
  apply negb_false_iff, andb_prop in H1 as [Hlo Hhi].
  apply N.leb_le in Hlo, Hhi.
  assert (Bytes.code c0 = 0xE0 -> 0xA0 <= Bytes.code c1)%N as HE0.
  { intros E. rewrite E in Ef. injection Ef as <- <- <-. exact Hlo. }
  assert (Bytes.code c0 = 0xED -> Bytes.code c1 <= 0x9F)%N as HED.
  { intros E. rewrite E in Ef. injection Ef as <- <- <-. exact Hhi. }
  assert (Bytes.code c0 = 0xF0 -> 0x90 <= Bytes.code c1)%N as HF0.
  { intros E. rewrite E in Ef. injection Ef as <- <- <-. exact Hlo. }
  assert (Bytes.code c0 = 0xF4 -> Bytes.code c1 <= 0x8F)%N as HF4.
  { intros E. rewrite E in Ef. injection Ef as <- <- <-. exact Hhi. }
  assert (0x80 <= Bytes.code c1 <= 0xBF)%N as Hc1 by lia.
  destruct Hsz as [[-> H0]|[[-> H0]|[-> H0]]].
  - cbn [Nat.leb]. intros [= <- <-] _.
    destruct (encode2 c0 c1 _ H0 Hc1 (decode2 _ _ H0 Hc1))
      as (Hb & Hv & He).
    split; [lia|]. split; [exact Hv|]. exact He.
  - cbn [Nat.leb].
    destruct t1 as [|c2 t2]; [by intros [= <- <-]|].
    destruct (negb _) eqn:H2; [by intros [= <- <-]|].
    apply negb_false_iff in H2. unfold utf8_cont in H2.
    apply andb_prop in H2 as [H2a H2b]. apply N.leb_le in H2a, H2b.
    intros [= <- <-] _.
    assert (0xE0 <= Bytes.code c0 <= 0xEF)%N as H0' by lia.
    assert (0x80 <= Bytes.code c2 <= 0xBF)%N as Hc2 by lia.
    destruct (encode3 c0 c1 c2 _ H0' Hc1 Hc2 HE0 HED (decode3 _ _ _ H0' Hc1 Hc2))
      as (Hb & Hv & He).
    split; [lia|]. split; [exact Hv|]. exact He.
  - cbn [Nat.leb].
    destruct t1 as [|c2 t2]; [by intros [= <- <-]|].
    destruct (negb _) eqn:H2; [by intros [= <- <-]|].
    apply negb_false_iff in H2. unfold utf8_cont in H2.
    apply andb_prop in H2 as [H2a H2b]. apply N.leb_le in H2a, H2b.
    destruct t2 as [|c3 t3]; [by intros [= <- <-]|].
    destruct (negb _) eqn:H3; [by intros [= <- <-]|].
    apply negb_false_iff in H3. unfold utf8_cont in H3.
    apply andb_prop in H3 as [H3a H3b]. apply N.leb_le in H3a, H3b.
    intros [= <- <-] _.
    assert (0xF0 <= Bytes.code c0 <= 0xF4)%N as H0' by lia.
    assert (0x80 <= Bytes.code c2 <= 0xBF)%N as Hc2 by lia.
    assert (0x80 <= Bytes.code c3 <= 0xBF)%N as Hc3 by lia.
    destruct (encode4 c0 c1 c2 c3 _ H0' Hc1 Hc2 Hc3 HF0 HF4
                (decode4 _ _ _ _ H0' Hc1 Hc2 Hc3))
      as (Hb & Hv & He).
    split; [lia|]. split; [exact Hv|]. exact He.
Qed.

Lemma length_app_s (a b : string) :
  String.length (a +:+ b) = (String.length a + String.length b)%nat.
Proof.
  induction a as [|x a IH]; [reflexivity|].
  change (S (String.length (a +:+ b)) = S (String.length a + String.length b)).
  by rewrite IH.
Qed.

Lemma quote_loop_step (f : nat) (c0 : ascii) (t : string) :
  quote_loop (S f) (String c0 t) =
    quote_chunk c0 t
      +:+ quote_loop f (skip (DecodeRuneInString (String c0 t)).2 (String c0 t)).
Proof.
  unfold quote_loop; fold quote_loop. unfold quote_chunk.
  by destruct (DecodeRuneInString (String c0 t)) as [r width].
Qed.

(** A lone byte above ASCII that starts no sequence decodes to
    [RuneError]. *)
Lemma decode_width1_high (c0 : ascii) (t : string) (r : N) :
  (128 <= Bytes.code c0)%N ->
  DecodeRuneInString (String c0 t) = (r, 1%nat) -> r = RuneError.
Proof.
  intros Hc. unfold DecodeRuneInString.
  destruct (N.ltb_spec (Bytes.code c0) 128) as [Hlt|_]; [lia|].
  repeat match goal with
  | |- context [if ?b then _ else _] => destruct b
  | |- context [match ?x with _ => _ end] => destruct x
  end; intros [= <-] || discriminate; reflexivity.
Qed.

(** What one round of the quoting loop writes for the bytes it takes
    reads back as those bytes. *)
Lemma quote_chunk_reads (c0 : ascii) (t rest : string) :
  exists v mb,
    UnquoteChar (quote_chunk c0 t +:+ rest) = Some (v, mb, rest) /\
    appendChar v mb = keep (DecodeRuneInString (String c0 t)).2 (String c0 t).
Proof.
  unfold quote_chunk.
  destruct (N.lt_ge_cases (Bytes.code c0) 128) as [Hlt|Hge].
  - rewrite decode_ascii by exact Hlt. cbn [snd Nat.eqb andb].
    destruct (N.eqb_spec (Bytes.code c0) RuneError) as [E|_];
      [unfold RuneError in E; lia|].
    exists (Bytes.code c0), false. split; [by apply UnquoteChar_ascii|].
    unfold appendChar. rewrite orb_true_r. cbn [keep]. f_equal. by apply byte_of_code.
  - destruct (DecodeRuneInString (String c0 t)) as [r w] eqn:E. cbn [snd].
    destruct (Nat.eqb_spec w 1) as [->|Hw].
    + rewrite (decode_width1_high c0 t r Hge E). cbn [andb]. rewrite N.eqb_refl.
      exists (Bytes.code c0), false. split.
      * change (("\x" +:+ hex_byte (Bytes.code c0)) +:+ rest)
          with ("\x" +:+ hex_byte (Bytes.code c0) +:+ rest).
        apply UnquoteChar_x, code_bound.
      * unfold appendChar. rewrite orb_true_r. cbn [keep]. f_equal. by apply byte_of_code.
    + cbn [andb].
      destruct (decode_multibyte c0 t r w E Hw) as (Hb & Hv & He).
      rewrite escapedRune_high by (lia || exact Hv).
      exists r, true. split.
      * destruct (N.ltb_spec r 0x10000) as [Hr|Hr].
        -- change (("\u" +:+ hex_digits 4 r) +:+ rest)
             with ("\u" +:+ hex_digits 4 r +:+ rest).
           by apply UnquoteChar_u.
        -- change (("\U" +:+ hex_digits 8 r) +:+ rest)
             with ("\U" +:+ hex_digits 8 r +:+ rest).
           apply UnquoteChar_U; [lia|exact Hv].
      * unfold appendChar. destruct (N.ltb_spec r 128) as [Hr|_]; [lia|]. exact He.
Qed.

Lemma unquote_loop_step (f : nat) (s ss : string) (v : N) (mb : bool) :
  UnquoteChar s = Some (v, mb, ss) ->
  unquote_loop (S f) s =
    match unquote_loop f ss with
    | Some out => Some (appendChar v mb +:+ out)
    | None => None
    end.
Proof. intros E. destruct s as [|c t]; [discriminate E|]. cbn [unquote_loop]. by rewrite E. Qed.

Lemma quote_chunk_nonempty (c0 : ascii) (t : string) :
  (1 <= String.length (quote_chunk c0 t))%nat.
Proof.
  destruct (quote_chunk_reads c0 t "") as (v & mb & E & _).
  destruct (quote_chunk c0 t) as [|x y]; [discriminate E|]. simpl. lia.
Qed.

(** The loop of [Unquote] undoes the loop of [QuoteToASCII]. *)
Lemma unquote_quote_loop (n : nat) :
  forall (s : string) (F : nat),
  (String.length s <= n)%nat -> (String.length (quote_loop n s) <= F)%nat ->
  unquote_loop F (quote_loop n s) = Some s.
Proof.
  induction n as [|n IH]; intros s F Hn HF.
  - destruct s; [by destruct F|simpl in Hn; lia].
  - destruct s as [|c0 t]; [by destruct F|].
    rewrite quote_loop_step in HF |- *.
    set (w := (DecodeRuneInString (String c0 t)).2) in *.
    pose proof (decode_width_pos c0 t) as Hw. fold w in Hw.
    pose proof (quote_chunk_nonempty c0 t) as Hc.
    rewrite length_app_s in HF.
    destruct F as [|F]; [lia|].
    destruct (quote_chunk_reads c0 t (quote_loop n (skip w (String c0 t))))
      as (v & mb & E & Ha).
    rewrite (unquote_loop_step F _ _ v mb E).
    rewrite IH.
    + rewrite Ha. fold w. by rewrite keep_skip.
    + rewrite length_skip. simpl in Hn |- *. lia.
    + lia.
Qed.

Lemma init_last_snoc (c l : ascii) (t : string) :
  init_last c (t +:+ String l "") = (String c t, l).
Proof.
  revert c. induction t as [|d t IH]; intros c; [reflexivity|].
  change (init_last c (String d (t +:+ String l ""))
          = (String c (String d t), l)).
  cbn [init_last]. by rewrite IH.
Qed.

Lemma Unquote_wrapped (b : string) :
  Unquote (String dquote (b +:+ String dquote "")) =
    if Bytes.mem "010" b then None
    else if negb (Bytes.mem "\" b) && negb (Bytes.mem dquote b) && ValidString b
    then Some b
    else unquote_loop (String.length b) b.
Proof.
  destruct b as [|c t]; [reflexivity|].
  change (String c t +:+ String dquote "") with (String c (t +:+ String dquote "")).
  unfold Unquote. rewrite init_last_snoc. by rewrite Ascii.eqb_refl.
Qed.

Lemma printable_no_newline (b : string) :
  Bytes.all_printable b = true -> Bytes.mem "010" b = false.
Proof.
  induction b as [|c t IH]; [reflexivity|]. cbn [Bytes.all_printable Bytes.mem].
  intros [Hc Ht]%andb_prop. rewrite (IH Ht).
  destruct (Ascii.eqb_spec "010" c) as [<-|_]; [discriminate Hc|reflexivity].
Qed.

Lemma escapedRune_printable (r : N) : Bytes.all_printable (escapedRune r) = true.
Proof.
  destruct (N.eq_dec r 34%N) as [->|Hr]; [reflexivity|].
  pose proof (escapedRune_safe r Hr) as H. unfold safe in H.
  by apply andb_prop in H as [H _].
Qed.

Lemma quote_loop_printable (n : nat) (s : string) :
  Bytes.all_printable (quote_loop n s) = true.
Proof.
  revert s. induction n as [|n IH]; intros s; [reflexivity|].
  destruct s as [|c0 t]; [reflexivity|].
  rewrite quote_loop_step, all_printable_app, IH, andb_true_r.
  unfold quote_chunk. destruct (DecodeRuneInString (String c0 t)) as [r w].
  destruct (_ && _).
  - pose proof (hex_byte_safe (Bytes.code c0)) as H. unfold safe in H.
    apply andb_prop in H as [H _].
    by rewrite all_printable_app, H.
  - apply escapedRune_printable.
Qed.

(** A text of printable ASCII without backslash and double quote reads
    as itself. *)
Lemma unquote_loop_plain (b : string) :
  forall F : nat,
  Bytes.all_printable b = true -> Bytes.mem "\" b = false ->
  Bytes.mem dquote b = false -> (String.length b <= F)%nat ->
  unquote_loop F b = Some b.
Proof.
  induction b as [|c t IH]; intros F Hp Hb Hq HF; [by destruct F|].
  destruct F as [|F]; [simpl in HF; lia|].
  cbn [Bytes.all_printable Bytes.mem] in Hp, Hb, Hq.
  apply andb_prop in Hp as [Hc Hp].
  destruct (Ascii.eqb_spec "\" c) as [|Hnb]; [discriminate Hb|].
  destruct (Ascii.eqb_spec dquote c) as [|Hnq]; [discriminate Hq|].
  assert (UnquoteChar (String c t) = Some (Bytes.code c, false, t)) as E.
  { unfold UnquoteChar.
    destruct (Ascii.eqb_spec c dquote) as [->|_]; [done|].
    unfold Bytes.printable in Hc. apply andb_prop in Hc as [_ Hc].
    apply N.ltb_lt in Hc.
    destruct (N.leb_spec 128 (Bytes.code c)); [lia|].
    destruct (Ascii.eqb_spec c "\") as [->|_]; [done|]. reflexivity. }
  rewrite (unquote_loop_step F _ _ _ _ E), IH; try done; [|simpl in HF; lia].
  unfold appendChar. rewrite orb_true_r.
  by rewrite (byte_of_code c (Bytes.code c) eq_refl).
Qed.

(** Reading back what [QuoteToASCII] writes gives the bytes it was
    called on, whatever they are. *)
Lemma Unquote_QuoteToASCII (s : string) : Unquote (QuoteToASCII s) = Some s.
Proof.
  unfold QuoteToASCII. rewrite Unquote_wrapped.
  set (Q := quote_loop (String.length s) s).
  pose proof (quote_loop_printable (String.length s) s) as Hp. fold Q in Hp.
  rewrite (printable_no_newline Q Hp).
  pose proof (unquote_quote_loop (String.length s) s (String.length Q)
                (le_n _) (le_n _)) as Hloop. fold Q in Hloop.
  destruct (negb (Bytes.mem "\" Q) && negb (Bytes.mem dquote Q) && ValidString Q)
    eqn:Hfast; [|exact Hloop].
  apply andb_prop in Hfast as [Hfast _]. apply andb_prop in Hfast as [Hb Hq].
  apply negb_true_iff in Hb, Hq.
  rewrite (unquote_loop_plain Q _ Hp Hb Hq (le_n _)) in Hloop. exact Hloop.
Qed.

Lemma escapedRune_plain (c : ascii) :
  Bytes.printable c = true -> c <> dquote -> c <> "\"%char ->
  escapedRune (Bytes.code c) = String c "".
Proof.
  intros Hp Hq Hb. destruct c as [b0 b1 b2 b3 b4 b5 b6 b7].
  destruct b0, b1, b2, b3, b4, b5, b6, b7;
    first [discriminate Hp | by destruct Hq | by destruct Hb | reflexivity].
Qed.

(** Printable ASCII without backslash and double quote is written as it
    is. *)
Lemma quote_loop_plain (t : string) :
  forall n : nat,
  (String.length t <= n)%nat ->
  Bytes.all_printable t = true -> Bytes.mem "\" t = false ->
  Bytes.mem dquote t = false -> quote_loop n t = t.
Proof.
  induction t as [|c t IH]; intros n Hn Hp Hb Hq; [by destruct n|].
  destruct n as [|n]; [simpl in Hn; lia|].
  cbn [Bytes.all_printable Bytes.mem] in Hp, Hb, Hq.
  apply andb_prop in Hp as [Hc Hp].
  destruct (Ascii.eqb_spec "\" c) as [|Hnb]; [discriminate Hb|].
  destruct (Ascii.eqb_spec dquote c) as [|Hnq]; [discriminate Hq|].
  assert (Bytes.code c < 128)%N as Hlt.
  { unfold Bytes.printable in Hc. apply andb_prop in Hc as [_ Hc].
    apply N.ltb_lt in Hc. lia. }
  rewrite quote_loop_step. unfold quote_chunk.
  rewrite decode_ascii by exact Hlt. cbn [snd skip Nat.eqb andb].
  destruct (N.eqb_spec (Bytes.code c) RuneError) as [E|_];
    [unfold RuneError in E; lia|].
  rewrite escapedRune_plain by (exact Hc || congruence).
  change (String c "" +:+ quote_loop n t) with (String c (quote_loop n t)).
  rewrite IH; [reflexivity|simpl in Hn; lia|exact Hp|exact Hb|exact Hq].
Qed.

Lemma Replace_get (s : string) (n : nat) :
  String.get n (Replace s dquote squote) =
    (fun c => if Ascii.eqb c dquote then squote else c) <$> String.get n s.
Proof.
  revert n. induction s as [|c s IH]; intros n; [reflexivity|].
  destruct n as [|n]; [reflexivity|]. apply IH.
Qed.

(** C8: for every attribute value the line writer sends, after the key and
    the equals sign, [QuoteToASCII] of the value's [Sprint] text in which
    each double quote was replaced by a single quote.  [Sprint] gives the
    default text of the value; the replacement works byte by byte, turns
    every double quote into a single quote and leaves every other byte
    (so it keeps the length, leaves no double quote, and changes nothing
    when there was none).  The quoted text is wrapped in double quotes
    and between them holds printable ASCII bytes only, none a double
    quote; reading it back with [Unquote] gives exactly the bytes that
    were quoted, so every byte outside printable ASCII is written as an
    escape and none is lost; and a text of printable ASCII without a
    backslash is written between the quotes as it is. *)
Theorem printPair_value_quoting (k : string) (v : value) (w : Writer) :
  healthy w ->
  (printPair (w, None) (mkKvE k v)).2 = None /\
  w_data (printPair (w, None) (mkKvE k v)).1 =
    w_data w +:+ " " +:+ k +:+ "="
      +:+ QuoteToASCII (Replace (Sprint v) dquote squote) /\
  String.length (Replace (Sprint v) dquote squote) = String.length (Sprint v) /\
  Bytes.mem dquote (Replace (Sprint v) dquote squote) = false /\
  (Bytes.mem dquote (Sprint v) = false ->
     Replace (Sprint v) dquote squote = Sprint v) /\
  quoted_safe (QuoteToASCII (Replace (Sprint v) dquote squote)) /\
  match v with
  | VNil => Sprint v = "<nil>"
  | VBool b => Sprint v = if b then "true" else "false"
  | VInt z => Sprint v = pretty z
  | VString s => Sprint v = s
  | VError e => Sprint v = Error_text e
  | VOther t => Sprint v = t
  end /\
  (forall n,
     String.get n (Replace (Sprint v) dquote squote) =
       (fun c => if Ascii.eqb c dquote then squote else c)
         <$> String.get n (Sprint v)) /\
  Unquote (QuoteToASCII (Replace (Sprint v) dquote squote)) =
    Some (Replace (Sprint v) dquote squote) /\
  (Bytes.all_printable (Sprint v) = true -> Bytes.mem "\" (Sprint v) = false ->
     QuoteToASCII (Replace (Sprint v) dquote squote) =
       String dquote (Replace (Sprint v) dquote squote +:+ String dquote "")).
Proof.
  intros Hh.
  destruct (printPair_accepted w w "" (mkKvE k v) (accepted_refl w Hh))
    as (w' & E & Hd & _).
  rewrite E. split; [reflexivity|]. split; [exact Hd|].
  split; [apply Replace_length|]. split; [apply Replace_no_dquote|].
  split; [apply Replace_id|].
  split; [apply QuoteToASCII_safe, Replace_no_dquote|].
  split; [by destruct v as [|[]| | | |]|].
  split; [apply Replace_get|]. split; [apply Unquote_QuoteToASCII|].
  intros Hp Hb. unfold QuoteToASCII. do 2 f_equal.
  apply quote_loop_plain; [lia| | |apply Replace_no_dquote].
  - clear Hb. induction (Sprint v) as [|c s IH]; [reflexivity|].
    cbn [Bytes.all_printable] in Hp. apply andb_prop in Hp as [Hc Hs].
    unfold Replace. cbn [Bytes.map Bytes.all_printable].
    fold (Replace s dquote squote). rewrite (IH Hs), andb_true_r.
    destruct (Ascii.eqb c dquote); [reflexivity|exact Hc].
  - clear Hp. induction (Sprint v) as [|c s IH]; [reflexivity|].
    cbn [Bytes.mem] in Hb.
    destruct (Ascii.eqb_spec "\" c) as [|Hc]; [discriminate Hb|].
    unfold Replace. cbn [Bytes.map Bytes.mem].
    fold (Replace s dquote squote). rewrite (IH Hb).
    destruct (Ascii.eqb_spec c dquote) as [->|_]; [reflexivity|].
    by destruct (Ascii.eqb_spec "\" c).
Qed.

Lemma printPair_value_quoting_witness :
  healthy Buffer /\
  (* two double quotes, a line feed, a backslash, U+00E9 in two bytes, the
     stray byte 255 and U+1F600 in four bytes *)
  w_data (printPair (Buffer, None)
            (mkKvE "q"
               (VString ("say " +:+ String dquote "hi" +:+ String dquote ""
                         +:+ String "010" "\é" +:+ String "255" "😀")))).1 =
    " q=" +:+ String dquote "say 'hi'\n\\\u00e9\xff\U0001f600" +:+ String dquote "" /\
  Unquote (String dquote "say 'hi'\n\\\u00e9\xff\U0001f600" +:+ String dquote "") =
    Some ("say 'hi'" +:+ String "010" "\é" +:+ String "255" "😀") /\
  w_data (printPair (Buffer, None) (mkKvE "n" (VInt (-42)))).1 =
    " n=" +:+ String dquote "-42" +:+ String dquote "" /\
  w_data (printPair (Buffer, None) (mkKvE "e" VNil)).1 =
    " e=" +:+ String dquote "<nil>" +:+ String dquote "" /\
  w_data (printPair (Buffer, None) (mkKvE "b" (VBool true))).1 =
    " b=" +:+ String dquote "true" +:+ String dquote "" /\
  w_data (printPair (Buffer, None)
            (mkKvE "err" (VError (errorString "disk full")))).1 =
    " err=" +:+ String dquote "disk full" +:+ String dquote "".
Proof.
  assert (healthy Buffer) as Hh by constructor.
  split; [exact Hh|].
  destruct (printPair_value_quoting "q"
              (VString ("say " +:+ String dquote "hi" +:+ String dquote ""
                        +:+ String "010" "\é" +:+ String "255" "😀"))
              Buffer Hh) as (_ & E & _ & _ & _ & _ & _ & _ & U & _).
  split; [rewrite E; reflexivity|]. split; [exact U|].
  destruct (printPair_value_quoting "n" (VInt (-42)) Buffer Hh) as (_ & En & _).
  destruct (printPair_value_quoting "e" VNil Buffer Hh) as (_ & Ee & _).
  destruct (printPair_value_quoting "b" (VBool true) Buffer Hh) as (_ & Eb & _).
  destruct (printPair_value_quoting "err" (VError (errorString "disk full")) Buffer Hh)
    as (_ & Eerr & _).
  rewrite En, Ee, Eb, Eerr. repeat split; vm_compute; reflexivity.
Defined.

(** ** The process: what every step preserves *)

Lemma elem_of_bind_insert {A B} (f : A -> list B) (l : list A) (i : nat) (x : A) (y : B) :
  y ∈ (<[i := x]> l ≫= f) -> y ∈ (l ≫= f) \/ y ∈ f x.
Proof.
  rewrite !list_elem_of_bind. intros (z & Hy & Hz).
  apply list_elem_of_lookup in Hz as [j Hj].
  destruct (decide (i = j)) as [->|Hne].
  - destruct (decide (j < length l)%nat) as [Hlt|Hge].
    + rewrite list_lookup_insert_eq in Hj by exact Hlt. injection Hj as ->. by right.
    + rewrite list_insert_ge in Hj by lia. left. exists z. split; [exact Hy|].
      apply list_elem_of_lookup. by exists j.
  - rewrite list_lookup_insert_ne in Hj by exact Hne. left. exists z.
    split; [exact Hy|]. apply list_elem_of_lookup. by exists j.
Qed.

Lemma elem_of_bind_lookup {A B} (f : A -> list B) (l : list A) (i : nat) (x : A) (y : B) :
  l !! i = Some x -> y ∈ f x -> y ∈ (l ≫= f).
Proof.
  intros Hl Hy. apply list_elem_of_bind. exists x. split; [exact Hy|].
  apply list_elem_of_lookup. by exists i.
Qed.

(** The cases of one step. *)
Ltac exec_cases Hex :=
  unfold exec in Hex;
  match type of Hex with
  | context [exited ?st] => destruct (exited st) eqn:Hexited; [discriminate Hex|]
  end;
  match type of Hex with
  | match ?a with ARelay => _ | ACaller _ => _ end = _ => destruct a as [|?]
  end;
  [ unfold relay_step in Hex;
    match type of Hex with
    | context [worker ?st] => destruct (worker st) eqn:Hworker
    end; simplify_eq
  | unfold caller_step, emit, logEntry, GetLevel in Hex;
    match type of Hex with
    | context [callers ?st !! ?j] =>
      destruct (callers st !! j) as [[[|[] ?]| | |]|] eqn:Hcaller
    end;
    repeat match type of Hex with
    | context [if ?b then _ else _] => destruct b eqn:?
    | context [match worker ?st with _ => _ end] => destruct (worker st) eqn:Hworker
    end; simplify_eq ].

Lemma elem_of_entries_of (e : entry) (st : System) :
  e ∈ entries_of st <->
  e ∈ relay_entry (worker st) \/ e ∈ (callers st ≫= caller_entries) \/
  e ∈ (event_entry <$> trace st).
Proof. unfold entries_of. by rewrite !elem_of_app. Qed.

Lemma exec_entries (a : actor) (st st' : System) :
  exec a st = Some st' ->
  (chans st <= chans st')%nat /\
  forall e', e' ∈ entries_of st' ->
    e' ∈ entries_of st \/ blockCh e' = None \/
    (exists i m kvs p,
       a = ACaller i /\
       callers st !! i = Some (Running (Fatal m kvs :: p)) /\
       e' = fatal_entry m kvs (chans st) /\ chans st' = S (chans st)).
Proof.
  intros Hex. exec_cases Hex; (split; [simpl; lia|]); intros e' H;
    apply elem_of_entries_of in H; rewrite elem_of_entries_of;
    simpl in H; rewrite ?Hworker in *; simpl in H |- *;
    rewrite ?fmap_app, ?elem_of_app in H; simpl in H;
    rewrite ?elem_of_cons, ?elem_of_nil in H |- *.
  all: try tauto.
  all: destruct H as [H|[H|H]]; try tauto.
  all: try (apply elem_of_bind_insert in H as [H|H]; [tauto|]; simpl in H;
            rewrite ?elem_of_cons, ?elem_of_nil in H).
  all: try tauto.
  all: try (destruct H as [-> | []]; simpl; tauto).
  all: try (left; right; left; eapply elem_of_bind_lookup; [exact Hcaller|]; simpl;
            rewrite ?elem_of_cons; tauto).
  - destruct H as [-> | []]. right. right. do 4 eexists.
    split; [reflexivity|]. split; [exact Hcaller|]. split; reflexivity.
  - apply list_elem_of_singleton in H as ->. left. right. left.
    eapply elem_of_bind_lookup; [exact Hcaller|]. simpl. by left.
Qed.

Lemma step_entries (st st' : System) :
  step st st' ->
  (chans st <= chans st')%nat /\
  forall e', e' ∈ entries_of st' ->
    e' ∈ entries_of st \/ blockCh e' = None \/
    (exists m kvs, e' = fatal_entry m kvs (chans st) /\ chans st' = S (chans st)).
Proof.
  intros [a Hex]. destruct (exec_entries a st st' Hex) as [Hm He].
  split; [exact Hm|]. intros e' H.
  destruct (He e' H) as [?|[?|(i & m & kvs & p & _ & _ & ? & ?)]]; eauto 6.
Qed.

Lemma step_chans_mono (st st' : System) : rtc step st st' -> (chans st <= chans st')%nat.
Proof.
  induction 1 as [|x y z Hxy _ IH]; [lia|].
  apply step_entries in Hxy as [Hle _]. lia.
Qed.

(** What one step does to the log and to the closed channels. *)
Lemma step_trace (st st' : System) :
  step st st' ->
  (trace st' = trace st /\ closed st' = closed st /\ worker st' = worker st) \/
  (trace st' = trace st /\ closed st' = closed st /\
     worker st = RIdle /\ exists e, worker st' = RGot e) \/
  (exists e, worker st = RGot e /\ exists err, worker st' = RPrinted e err /\
     trace st' = trace st ++ [EvPrintOut e err] /\ closed st' = closed st) \/
  (exists e err, worker st = RPrinted e err /\ worker st' = RRecovered e /\
     trace st' = trace st ++ [EvFallback e] /\ closed st' = closed st) \/
  (exists e, worker st = RRecovered e /\ worker st' = RFlushed e /\
     trace st' = trace st ++ [EvFlush e] /\ closed st' = closed st) \/
  (exists e, worker st = RFlushed e /\ worker st' = RIdle /\
     trace st' = trace st ++ [EvClose e] /\
     closed st' = match blockCh e with
                  | Some ch => {[ch]} ∪ closed st
                  | None => closed st
                  end).
Proof.
  intros [a Hex]. exec_cases Hex; simpl; rewrite ?Hworker; eauto 12.
Qed.

Lemma fired_snoc (ch : nat) (tr : list event) (ev : event) :
  fired ch tr -> fired ch (tr ++ [ev]).
Proof.
  intros (e & err & pre & post & Hch & ->).
  exists e, err, pre, (post ++ [ev]). split; [exact Hch|].
  by rewrite <- !app_assoc.
Qed.

Lemma wf_boot (W : World) (progs : list (list call)) : wf (boot W progs).
Proof.
  unfold wf, boot; simpl. split; [|split; [exact I|]].
  - intros e ch H. apply elem_of_entries_of in H. simpl in H.
    destruct H as [H|[H|H]]; try by apply elem_of_nil in H.
    apply list_elem_of_bind in H as (c & He & Hc).
    apply list_elem_of_fmap in Hc as (p & -> & _). by apply elem_of_nil in He.
  - intros ch H. by apply not_elem_of_empty in H.
Qed.

Lemma wf_step (st st' : System) : wf st -> step st st' -> wf st'.
Proof.
  intros (Hfresh & Hlog & Hfired) Hstep.
  destruct (step_entries st st' Hstep) as [Hmono Hent].
  split; [|split].
  - intros e ch He Hch. destruct (Hent e He) as [H|[H|H]].
    + specialize (Hfresh e ch H Hch). lia.
    + congruence.
    + destruct H as (m & kvs & -> & ->). simpl in Hch.
      injection Hch as <-. lia.
  - destruct (step_trace st st' Hstep)
      as [(Ht & _ & Hw)|[(Ht & _ & _ & e & Hw)|[(e & Hw & err & Hw' & Ht & _)|
         [(e & err & Hw & Hw' & Ht & _)|[(e & Hw & Hw' & Ht & _)|
         (e & Hw & Hw' & Ht & _)]]]]].
    + by rewrite Ht, Hw.
    + by rewrite Hw.
    + rewrite Hw', Ht. by exists (trace st).
    + rewrite Hw', Ht. rewrite Hw in Hlog. destruct Hlog as (pre & ->).
      exists pre, err. by rewrite <- app_assoc.
    + rewrite Hw', Ht. rewrite Hw in Hlog. destruct Hlog as (pre & err & ->).
      exists pre, err. by rewrite <- app_assoc.
    + by rewrite Hw'.
  - intros ch Hch.
    destruct (step_trace st st' Hstep)
      as [(Ht & Hc & _)|[(Ht & Hc & _)|[(e & _ & err & _ & Ht & Hc)|
         [(e & err & _ & _ & Ht & Hc)|[(e & _ & _ & Ht & Hc)|
         (e & Hw & _ & Ht & Hc)]]]]]; rewrite Ht; rewrite Hc in Hch.
    1-2: by apply Hfired.
    1-3: by apply fired_snoc, Hfired.
    rewrite Hw in Hlog. destruct Hlog as (pre & err & Hlog).
    destruct (blockCh e) as [c|] eqn:Ec; [|by apply fired_snoc, Hfired].
    apply elem_of_union in Hch as [Hch|Hch]; [|by apply fired_snoc, Hfired].
    apply elem_of_singleton in Hch as ->.
    exists e, err, pre, []. split; [exact Ec|].
    rewrite Hlog. unfold handled. rewrite app_nil_r, <- app_assoc. reflexivity.
Qed.

Lemma wf_reach (st st' : System) : wf st -> rtc step st st' -> wf st'.
Proof. intros Hwf H. induction H as [|x y z Hxy _ IH]; [exact Hwf|]. eauto using wf_step. Qed.

(** ** C2: [Fatal] exits after the relay is through with its entry *)

Lemma exec_callers_other (a : actor) (st st' : System) (i : nat) :
  exec a st = Some st' -> a <> ACaller i -> callers st' !! i = callers st !! i.
Proof.
  intros Hex Ha. exec_cases Hex; simpl; try reflexivity;
    apply list_lookup_insert_ne; congruence.
Qed.

Lemma exec_exited (a : actor) (st st' : System) :
  exec a st = Some st' ->
  exited st = None /\
  (exited st' = None \/ exists j, a = ACaller j /\ exited st' = Some (j, 1)).
Proof.
  intros Hex. exec_cases Hex; simpl; split; try done; try (by left).
  right. by exists i.
Qed.

Lemma step_closed_mono (st st' : System) (ch : nat) :
  step st st' -> ch ∈ closed st -> ch ∈ closed st'.
Proof.
  intros Hstep Hch.
  destruct (step_trace st st' Hstep)
    as [(_ & Hc & _)|[(_ & Hc & _)|[(e & _ & err & _ & _ & Hc)|
       [(e & err & _ & _ & _ & Hc)|[(e & _ & _ & _ & Hc)|
       (e & _ & _ & _ & Hc)]]]]]; rewrite Hc; try exact Hch.
  destruct (blockCh e); [|exact Hch]. apply elem_of_union. by right.
Qed.

Lemma owns_step (ch : nat) (e : entry) (st st' : System) :
  (ch < chans st)%nat -> owns ch e st -> step st st' -> owns ch e st'.
Proof.
  intros Hlt Hown Hstep e' He' Hch.
  destruct (step_entries st st' Hstep) as [_ Hent].
  destruct (Hent e' He') as [H|[H|(m & kvs & -> & _)]].
  - by apply Hown.
  - congruence.
  - simpl in Hch. injection Hch as <-. lia.
Qed.

Lemma fatal_progress_step (i : nat) (m : string) (kvs : list KV) (p : list call)
  (st st' : System) :
  wf st -> fatal_progress i m kvs p st -> step st st' ->
  fatal_progress i m kvs p st'.
Proof.
  intros Hwf Hprog Hstep. pose proof Hstep as [a Hex].
  destruct (exec_exited a st st' Hex) as [Hex0 Hex'].
  destruct (step_entries st st' Hstep) as [Hmono _].
  destruct (decide (a = ACaller i)) as [->|Hne].
  - (* goroutine [i] moves *)
    destruct Hprog as [[Hc Hno]|(ch & Hlt & Hown & [[Hc Hno]|[[Hc Hno]|(Hc & Hcl & Hcode)]])].
    + right. exists (chans st).
      assert (i < length (callers st))%nat as Hi by (by eapply lookup_lt_Some).
      destruct (exec_entries _ _ _ Hex) as [_ Hent].
      pose proof Hex as Hex2.
      unfold exec in Hex2. rewrite Hex0 in Hex2. unfold caller_step in Hex2.
      rewrite Hc in Hex2. injection Hex2 as <-. simpl.
      split; [lia|]. split.
      * intros e' He' Hch.
        destruct (Hent e' He') as [H|[H|(i0 & m0 & kvs0 & p0 & Ha & Hc0 & -> & _)]].
        -- destruct Hwf as (Hfresh & _). specialize (Hfresh e' _ H Hch). lia.
        -- congruence.
        -- injection Ha as <-. rewrite Hc in Hc0. by injection Hc0 as <- <- <-.
      * rewrite list_lookup_insert_eq by exact Hi.
        unfold logEntry. destruct (GetLevel _ <=? FatalLevel).
        -- left. split; [reflexivity|]. intros code. simpl. by rewrite Hex0.
        -- right. left. split; [reflexivity|]. intros code. simpl. by rewrite Hex0.
    + right. exists ch. split; [lia|]. split; [by eapply owns_step|].
      assert (i < length (callers st))%nat as Hi by (by eapply lookup_lt_Some).
      unfold exec in Hex. rewrite Hex0 in Hex. unfold caller_step in Hex.
      rewrite Hc in Hex. destruct (worker st); try discriminate.
      injection Hex as <-. simpl. right. left.
      rewrite list_lookup_insert_eq by exact Hi. split; [reflexivity|].
      intros code. by rewrite Hex0.
    + right. exists ch. split; [lia|]. split; [by eapply owns_step|].
      assert (i < length (callers st))%nat as Hi by (by eapply lookup_lt_Some).
      unfold exec in Hex. rewrite Hex0 in Hex. unfold caller_step in Hex.
      rewrite Hc in Hex. destruct (bool_decide (ch ∈ closed st)) eqn:Hb; [|discriminate].
      apply bool_decide_eq_true in Hb.
      injection Hex as <-. simpl. right. right.
      rewrite list_lookup_insert_eq by exact Hi. split; [reflexivity|].
      split; [exact Hb|]. intros code. by rewrite Hex0.
    + right. exists ch. split; [lia|]. split; [by eapply owns_step|].
      unfold exec in Hex. rewrite Hex0 in Hex. unfold caller_step in Hex.
      rewrite Hc in Hex. injection Hex as <-. simpl. right. right.
      split; [exact Hc|]. split; [exact Hcl|]. by intros code [= <-].
  - (* another goroutine or the relay moves *)
    assert (no_exit_by i st') as Hno'.
    { intros code E. destruct Hex' as [E'|(j & -> & E')]; rewrite E' in E; [discriminate|].
      injection E as <- _. by apply Hne. }
    unfold fatal_progress in Hprog.
    rewrite <- (exec_callers_other a st st' i Hex Hne) in Hprog.
    destruct Hprog as [[Hc Hno]|(ch & Hlt & Hown & [[Hc Hno]|[[Hc Hno]|(Hc & Hcl & Hcode)]])].
    + by left.
    + right. exists ch. split; [lia|]. split; [by eapply owns_step|]. by left.
    + right. exists ch. split; [lia|]. split; [by eapply owns_step|]. right. by left.
    + right. exists ch. split; [lia|]. split; [by eapply owns_step|]. right. right.
      split; [exact Hc|]. split; [by eapply step_closed_mono|].
      intros code E. by destruct (Hno' code).
Qed.

Lemma fatal_progress_reach (i : nat) (m : string) (kvs : list KV) (p : list call)
  (st st' : System) :
  wf st -> fatal_progress i m kvs p st -> rtc step st st' ->
  wf st' /\ fatal_progress i m kvs p st'.
Proof.
  intros Hwf Hprog H. induction H as [|x y z Hxy _ IH]; [done|].
  apply IH; [by eapply wf_step|by eapply fatal_progress_step].
Qed.

Lemma fatal_schedule_exits (st : System) (i : nat) (m : string) (kvs : list KV)
  (p : list call) :
  exited st = None -> worker st = RIdle ->
  callers st !! i = Some (Running (Fatal m kvs :: p)) ->
  currLevel (world st) <= FatalLevel ->
  exists st', run (fatal_schedule i) st = Some st' /\ exited st' = Some (i, 1) /\
    trace st' = trace st ++ handled (fatal_entry m kvs (chans st))
                              (printOut_Out (fatal_entry m kvs (chans st)) (world st)).2 /\
    world st' = relay_body (fatal_entry m kvs (chans st)) (world st).
Proof.
  intros Hex Hw Hc Hl.
  assert (i < length (callers st))%nat as Hi by (by eapply lookup_lt_Some).
  apply Z.leb_le in Hl.
  eexists. split.
  { unfold fatal_schedule, run.
    (* the level test *)
    unfold exec at 1. rewrite Hex. unfold caller_step at 1. rewrite Hc.
    unfold logEntry, GetLevel. rewrite Hl. cbv zeta.
    (* the send *)
    unfold exec at 1. cbn [exited]. rewrite ?Hex.
    unfold caller_step at 1. cbn [callers worker].
    rewrite list_lookup_insert_eq by exact Hi. rewrite Hw.
    (* the relay *)
    do 4 (unfold exec at 1; cbn [exited]; rewrite ?Hex;
          unfold relay_step at 1; cbn [worker blockCh]).
    (* the receive on blockCh *)
    unfold exec at 1. cbn [exited]. rewrite ?Hex.
    unfold caller_step at 1. cbn [callers closed].
    rewrite list_lookup_insert_eq by (by rewrite length_insert).
    rewrite bool_decide_eq_true_2
      by (apply elem_of_union; left; by apply elem_of_singleton).
    (* os.Exit(1) *)
    unfold exec at 1. unfold set_caller. cbn [exited]. rewrite ?Hex.
    unfold caller_step at 1. cbn [callers].
    rewrite list_lookup_insert_eq by (by rewrite !length_insert).
    reflexivity. }
  cbn [exited trace world fst snd]. split; [reflexivity|].
  split; [|reflexivity].
  unfold handled. by rewrite <- !app_assoc.
Qed.

(** C2: let goroutine [i] stand before a call [Fatal(m, kvs...)] in a
    state reached from [boot].  In whatever state the process reaches:
    while goroutine [i] waits on its [blockCh] and the channel is not
    closed, it cannot move; and if [os.Exit] was called by goroutine [i],
    the status is 1 and the relay's log holds, for the entry of this
    call, the write to [Out], the fallback step, the flush step and the
    closing of the channel, in that order.  And the exit does come: from
    an idle relay, with the threshold at most FATAL, the schedule of the
    call ends in [os.Exit(1)] with the world the relay's work on the
    entry leaves. *)
Theorem Fatal_exits_after_relay (W : World) (progs : list (list call))
  (st0 st : System) (i : nat) (m : string) (kvs : list KV) (p : list call) :
  rtc step (boot W progs) st0 ->
  exited st0 = None ->
  callers st0 !! i = Some (Running (Fatal m kvs :: p)) ->
  rtc step st0 st ->
  (forall ch, callers st !! i = Some (Waiting ch p) -> ch ∉ closed st ->
     exec (ACaller i) st = None) /\
  (forall code, exited st = Some (i, code) ->
     code = 1 /\
     exists ch err pre post,
       ch ∈ closed st /\
       trace st = pre ++ [EvPrintOut (fatal_entry m kvs ch) err;
                          EvFallback (fatal_entry m kvs ch);
                          EvFlush (fatal_entry m kvs ch);
                          EvClose (fatal_entry m kvs ch)] ++ post) /\
  (worker st0 = RIdle -> currLevel (world st0) <= FatalLevel ->
     exists st1, run (fatal_schedule i) st0 = Some st1 /\
       exited st1 = Some (i, 1) /\
       world st1 = relay_body (fatal_entry m kvs (chans st0)) (world st0)).
Proof.
  intros Hboot Hex0 Hc Hreach.
  assert (wf st0) as Hwf by (eapply wf_reach; [apply wf_boot|exact Hboot]).
  assert (fatal_progress i m kvs p st0) as Hprog0.
  { left. split; [exact Hc|]. intros code. by rewrite Hex0. }
  destruct (fatal_progress_reach i m kvs p st0 st Hwf Hprog0 Hreach) as [Hwf' Hprog].
  split; [|split].
  - intros ch Hw Hncl. unfold exec. destruct (exited st); [reflexivity|].
    unfold caller_step. rewrite Hw. by rewrite bool_decide_eq_false_2.
  - intros code Hexit.
    destruct Hprog as [[_ Hno]|(ch & Hlt & Hown & [[_ Hno]|[[_ Hno]|(_ & Hcl & Hcode)]])];
      try (by destruct (Hno code)).
    split; [by apply Hcode|].
    destruct Hwf' as (_ & _ & Hfired).
    destruct (Hfired ch Hcl) as (e & err & pre & post & Hch & Ht).
    assert (e = fatal_entry m kvs ch) as ->.
    { apply Hown; [|exact Hch]. apply elem_of_entries_of. right. right.
      rewrite Ht. unfold handled. rewrite !fmap_app. simpl.
      apply elem_of_app. right. by left. }
    by exists ch, err, pre, post.
  - intros Hw Hl.
    destruct (fatal_schedule_exits st0 i m kvs p Hex0 Hw Hc Hl) as (st1 & Hr & He & _ & HW).
    by exists st1.
Qed.

Lemma run_reach (sched : list actor) (st st' : System) :
  run sched st = Some st' -> rtc step st st'.
Proof.
  revert st. induction sched as [|a sched IH]; intros st H; simpl in H.
  - injection H as <-. apply rtc_refl.
  - destruct (exec a st) as [st1|] eqn:E; [|discriminate].
    eapply rtc_l; [by exists a|]. by apply IH.
Qed.

Lemma Fatal_exits_after_relay_witness :
  exists st,
    run (fatal_schedule 0)
      (boot (mkWorld InfoLevel (Some Buffer) Buffer false (fun _ => "") 0)
         [[Fatal "boom" []]]) = Some st /\
    exited st = Some (0%nat, 1) /\
    w_data (out_writer (world st)) = "~ FATAL -- boom" +:+ newline /\
    exists ch err pre post,
      ch ∈ closed st /\
      trace st = pre ++ [EvPrintOut (fatal_entry "boom" [] ch) err;
                         EvFallback (fatal_entry "boom" [] ch);
                         EvFlush (fatal_entry "boom" [] ch);
                         EvClose (fatal_entry "boom" [] ch)] ++ post.
Proof.
  eexists. split; [vm_compute; reflexivity|].
  split; [reflexivity|]. split; [reflexivity|].
  eapply (Fatal_exits_after_relay
            (mkWorld InfoLevel (Some Buffer) Buffer false (fun _ => "") 0)
            [[Fatal "boom" []]]
            (boot (mkWorld InfoLevel (Some Buffer) Buffer false (fun _ => "") 0)
               [[Fatal "boom" []]]) _ 0%nat "boom" [] []).
  - apply rtc_refl.
  - reflexivity.
  - reflexivity.
  - apply (run_reach (fatal_schedule 0)). vm_compute. reflexivity.
  - reflexivity.
Defined.

(** ** C6: [Fatal] above the threshold *)













(** ** C5: emitting at or above the threshold *)

Lemma printOut_Out_set_currLevel (e : entry) (l : Level) (W : World) :
  printOut_Out e (set_currLevel l W) =
    (set_currLevel l (printOut_Out e W).1, (printOut_Out e W).2).
Proof. unfold printOut_Out, set_currLevel, out_writer, set_out, tick; simpl. by destruct (Out W). Qed.

Lemma printOut_defaultOut_set_currLevel (e : entry) (l : Level) (W : World) :
  printOut_defaultOut e (set_currLevel l W) =
    (set_currLevel l (printOut_defaultOut e W).1, (printOut_defaultOut e W).2).
Proof. reflexivity. Qed.

Lemma relay_fallback_set_currLevel (e : entry) (err : option error) (l : Level) (W : World) :
  relay_fallback e err (set_currLevel l W) = set_currLevel l (relay_fallback e err W).
Proof.
  unfold relay_fallback. destruct err as [er|]; [|reflexivity].
  change (Out (set_currLevel l W)) with (Out W).
  destruct (Out W); [|reflexivity].
  by rewrite !printOut_defaultOut_set_currLevel.
Qed.

Lemma relay_flush_set_currLevel (e : entry) (l : Level) (W : World) :
  relay_flush e (set_currLevel l W) = set_currLevel l (relay_flush e W).
Proof.
  unfold relay_flush. destruct (level e =? FatalLevel); [|reflexivity].
  change (out_writer (set_currLevel l W)) with (out_writer W).
  destruct (w_syncer (out_writer W)); [|destruct (w_flusher (out_writer W))];
    try reflexivity; unfold set_out, set_currLevel; simpl; by destruct (Out W).
Qed.

Lemma relay_body_set_currLevel (e : entry) (l : Level) (W : World) :
  relay_body e (set_currLevel l W) = set_currLevel l (relay_body e W).
Proof.
  unfold relay_body. rewrite printOut_Out_set_currLevel. simpl.
  by rewrite relay_fallback_set_currLevel, relay_flush_set_currLevel.
Qed.

Lemma finish_set_currLevel (r : relay) (l : Level) (W : World) :
  finish r (set_currLevel l W) = set_currLevel l (finish r W).
Proof.
  destruct r; simpl; try reflexivity.
  - apply relay_body_set_currLevel.
  - by rewrite relay_fallback_set_currLevel, relay_flush_set_currLevel.
  - apply relay_flush_set_currLevel.
Qed.

Lemma currLevel_printOut_Out (e : entry) (W : World) :
  currLevel (printOut_Out e W).1 = currLevel W.
Proof. unfold printOut_Out, set_out, tick; simpl. by destruct (Out W). Qed.

Lemma currLevel_relay_fallback (e : entry) (err : option error) (W : World) :
  currLevel (relay_fallback e err W) = currLevel W.
Proof. unfold relay_fallback. destruct err; [|reflexivity]. by destruct (Out W). Qed.

Lemma currLevel_relay_flush (e : entry) (W : World) :
  currLevel (relay_flush e W) = currLevel W.
Proof.
  unfold relay_flush, set_out. destruct (level e =? FatalLevel); [|reflexivity].
  destruct (w_syncer _); [by destruct (Out W)|].
  destruct (w_flusher _); [by destruct (Out W)|reflexivity].
Qed.

Lemma currLevel_finish (r : relay) (W : World) : currLevel (finish r W) = currLevel W.
Proof.
  destruct r; simpl; try reflexivity; unfold relay_body;
    by rewrite ?currLevel_relay_flush, ?currLevel_relay_fallback, ?currLevel_printOut_Out.
Qed.

Lemma logEntry_finish (l : Level) (m : string) (kvs : list KV) (ch : option nat)
  (r : relay) (W : World) :
  logEntry l m kvs ch (finish r W) = logEntry l m kvs ch W.
Proof. unfold logEntry. by rewrite currLevel_finish. Qed.

Lemma finish_step_relay (st st' : System) :
  relay_step st = Some st' -> finish (worker st') (world st') = finish (worker st) (world st).
Proof.
  unfold relay_step. destruct (worker st); intros [= <-]; reflexivity.
Qed.

Lemma lone_caller_step (st st' : System) :
  lone_caller st -> step st st' -> lone_caller st' /\ pending st' = pending st.
Proof.
  intros (c & Hc & Hnf & Hex0) [a Hex]. unfold exec in Hex. rewrite Hex0 in Hex.
  destruct a as [|i].
  - assert (callers st' = callers st /\ exited st' = exited st) as [Hc' He'].
    { unfold relay_step in Hex. destruct (worker st); by simplify_eq. }
    split.
    + exists c. by rewrite Hc', He'.
    + unfold pending. rewrite Hc', Hc. by rewrite (finish_step_relay st st' Hex).
  - unfold caller_step in Hex. rewrite Hc in Hex.
    destruct i as [|i]; [|discriminate]. simpl in Hex.
    unfold pending. rewrite Hc.
    destruct c as [[|c0 p]|e next| |]; try discriminate; try (by destruct Hnf).
    + simpl in Hnf. apply andb_prop in Hnf as [Hc0 Hp].
      destruct c0; try discriminate Hc0; injection Hex as <-;
        unfold set_caller; cbn [callers worker world exited]; rewrite ?Hc;
        cbn [insert list_insert caller_rest seq_prog foldl seq_call];
        unfold emit, seq_emit; rewrite ?logEntry_finish;
        try (destruct (logEntry _ _ _ _ _); cbn [caller_rest seq_prog];
             (split; [eexists; split; [reflexivity|]; by split|reflexivity])).
      split; [eexists; split; [reflexivity|]; by split|].
      by rewrite finish_set_currLevel.
    + destruct (worker st) eqn:Hw; try discriminate. injection Hex as <-.
      cbn [callers worker world exited]. rewrite ?Hc.
      cbn [insert list_insert caller_rest finish].
      split; [eexists; split; [reflexivity|]; by split|reflexivity].
Qed.

Lemma lone_caller_reach (st st' : System) :
  lone_caller st -> rtc step st st' -> lone_caller st' /\ pending st' = pending st.
Proof.
  intros Hl H. induction H as [|x y z Hxy _ IH]; [done|].
  destruct (lone_caller_step x y Hl Hxy) as [Hl' Hp].
  destruct (IH Hl') as [Hl'' Hp']. split; [exact Hl''|congruence].
Qed.

(** A lone caller without [Fatal]: once nothing is left to do, the
    package state is the one the calls leave when each is run to the end
    of the relay's pass before the next starts. *)
Lemma lone_caller_quiescent (W : World) (prog : list call) (st : System) :
  forallb (fun c => negb (is_Fatal c)) prog = true ->
  rtc step (boot W [prog]) st -> quiescent st -> world st = seq_prog prog W.
Proof.
  intros Hnf Hreach [Hc Hw].
  assert (lone_caller (boot W [prog])) as Hl by (by exists (Running prog)).
  destruct (lone_caller_reach _ _ Hl Hreach) as [_ Hp].
  unfold pending in Hp. rewrite Hc, Hw in Hp. simpl in Hp. exact Hp.
Qed.

Lemma relay_body_accepted (e : entry) (W : World) (w : Writer) :
  Out W = Some w -> healthy w -> level e <> FatalLevel ->
  exists w', accepted w w' (line e (DisplayTimestamp W) (clock W (ticks W))) /\
    relay_body e W =
      mkWorld (currLevel W) (Some w') (defaultOut W) (DisplayTimestamp W)
        (clock W) (ticks (tick W)).
Proof.
  intros HO Hh Hl.
  destruct (printOut_accepted e w (DisplayTimestamp W) (clock W (ticks W)) Hh)
    as (w' & E & Hacc).
  exists w'. split; [exact Hacc|].
  unfold relay_body, printOut_Out, out_writer. rewrite HO, E. simpl.
  unfold relay_flush. rewrite (proj2 (Z.eqb_neq _ _) Hl).
  unfold set_out, tick. rewrite HO. reflexivity.
Qed.

Lemma logEntry_threshold (l : Level) (m : string) (kvs : list KV) (ch : option nat)
  (W : World) :
  (GetLevel (currLevel W) <= l ->
     logEntry l m kvs ch W = Some (mkEntry l m (kvNormalize kvs) ch)) /\
  (l < GetLevel (currLevel W) -> logEntry l m kvs ch W = None).
Proof.
  unfold logEntry. split; intros H.
  - by rewrite (proj2 (Z.leb_le _ _) H).
  - by rewrite (proj2 (Z.leb_gt _ _) H).
Qed.

Lemma warn_schedule_runs (W : World) (m1 m2 m3 m4 : string)
  (k1 k2 k3 k4 : list KV) :
  currLevel W = WarnLevel ->
  exists st,
    run warn_schedule
      (boot W [[Debug m1 k1; Info m2 k2; Warn m3 k3; Error m4 k4]]) = Some st /\
    quiescent st.
Proof.
  intros HW. destruct W as [lvl out dflt ts clk tk]. simpl in HW. subst lvl.
  eexists. split; [|split].
  - unfold warn_schedule, run, boot.
    repeat (unfold exec at 1; cbn [exited];
            first [ unfold caller_step at 1; cbn [callers worker world];
                    cbn [fmap list_fmap lookup list_lookup insert list_insert];
                    unfold emit, logEntry, GetLevel, set_caller;
                    cbn [currLevel world callers worker chans closed trace exited];
                    change (WarnLevel <=? DebugLevel) with false;
                    change (WarnLevel <=? InfoLevel) with false;
                    change (WarnLevel <=? WarnLevel) with true;
                    change (WarnLevel <=? ErrorLevel) with true;
                    cbv iota;
                    cbn [insert list_insert]
                  | unfold relay_step at 1; cbn [worker world callers chans closed trace exited blockCh] ];
            rewrite ?currLevel_printOut_Out, ?currLevel_relay_fallback, ?currLevel_relay_flush;
            cbn [currLevel]).
    reflexivity.
  - reflexivity.
  - reflexivity.
Qed.

(** C5: [logEntry] builds and sends an entry exactly when the requested
    level is at or above the threshold; each of the five emit functions
    goes through that test with its own level before anything is sent.
    With the threshold at WARN and a sink that accepts its writes, once
    the calls [Debug], [Info], [Warn], [Error] of a lone caller are
    through and the relay is idle, the sink holds two more lines, the
    one of [Warn] then the one of [Error], whatever the interleaving; and
    the process does get there. *)
Theorem emit_iff_above_threshold (W : World) (w : Writer) (m1 m2 m3 m4 : string)
  (k1 k2 k3 k4 : list KV) :
  (forall l m kvs ch W',
     (GetLevel (currLevel W') <= l <->
        logEntry l m kvs ch W' = Some (mkEntry l m (kvNormalize kvs) ch)) /\
     (l < GetLevel (currLevel W') <-> logEntry l m kvs ch W' = None)) /\
  (forall st i m kvs p,
     exited st = None ->
     (callers st !! i = Some (Running (Debug m kvs :: p)) ->
        exec (ACaller i) st =
          Some (set_caller i
                  match logEntry DebugLevel m kvs None (world st) with
                  | Some e => Sending e (Running p)
                  | None => Running p
                  end st)) /\
     (callers st !! i = Some (Running (Info m kvs :: p)) ->
        exec (ACaller i) st =
          Some (set_caller i
                  match logEntry InfoLevel m kvs None (world st) with
                  | Some e => Sending e (Running p)
                  | None => Running p
                  end st)) /\
     (callers st !! i = Some (Running (Warn m kvs :: p)) ->
        exec (ACaller i) st =
          Some (set_caller i
                  match logEntry WarnLevel m kvs None (world st) with
                  | Some e => Sending e (Running p)
                  | None => Running p
                  end st)) /\
     (callers st !! i = Some (Running (Error m kvs :: p)) ->
        exec (ACaller i) st =
          Some (set_caller i
                  match logEntry ErrorLevel m kvs None (world st) with
                  | Some e => Sending e (Running p)
                  | None => Running p
                  end st)) /\
     (callers st !! i = Some (Running (Fatal m kvs :: p)) ->
        exists st', exec (ACaller i) st = Some st' /\
          callers st' !! i =
            Some match logEntry FatalLevel m kvs (Some (chans st)) (world st) with
                 | Some e => Sending e (Waiting (chans st) p)
                 | None => Waiting (chans st) p
                 end /\
          world st' = world st /\ worker st' = worker st)) /\
  (currLevel W = WarnLevel -> Out W = Some w -> healthy w ->
   (forall st,
      rtc step (boot W [[Debug m1 k1; Info m2 k2; Warn m3 k3; Error m4 k4]]) st ->
      quiescent st ->
      w_data (out_writer (world st)) =
        w_data w
          +:+ line (mkEntry WarnLevel m3 (kvNormalize k3) None)
                (DisplayTimestamp W) (clock W (ticks W))
          +:+ line (mkEntry ErrorLevel m4 (kvNormalize k4) None)
                (DisplayTimestamp W) (clock W (ticks (tick W))) /\
      defaultOut (world st) = defaultOut W) /\
   (exists st,
      run warn_schedule
        (boot W [[Debug m1 k1; Info m2 k2; Warn m3 k3; Error m4 k4]]) = Some st /\
      quiescent st)).
Proof.
  split; [|split].
  - intros l m kvs ch W'. unfold logEntry. split.
    + destruct (Z.leb_spec (GetLevel (currLevel W')) l); split; intros; try done; lia.
    + destruct (Z.leb_spec (GetLevel (currLevel W')) l); split; intros; try done; lia.
  - intros st i m kvs p Hex0. unfold exec. rewrite Hex0. unfold caller_step.
    repeat split; intros Hc; rewrite Hc; try reflexivity.
    eexists. split; [reflexivity|]. simpl.
    split; [|done]. apply list_lookup_insert_eq. by eapply lookup_lt_Some.
  - intros HW HO Hh. split; [|by apply warn_schedule_runs].
    intros st Hreach Hq.
    rewrite (lone_caller_quiescent W
               [Debug m1 k1; Info m2 k2; Warn m3 k3; Error m4 k4] st eq_refl Hreach Hq).
    unfold seq_prog; simpl. unfold seq_emit.
    destruct (logEntry_threshold DebugLevel m1 k1 None W) as [_ ->]; [|unfold GetLevel; rewrite HW; done].
    destruct (logEntry_threshold InfoLevel m2 k2 None W) as [_ ->]; [|unfold GetLevel; rewrite HW; done].
    destruct (logEntry_threshold WarnLevel m3 k3 None W) as [-> _]; [|unfold GetLevel; rewrite HW; done].
    destruct (relay_body_accepted (mkEntry WarnLevel m3 (kvNormalize k3) None) W w HO Hh)
      as (w3 & (Hd3 & Hh3 & _) & ->); [done|].
    match goal with
    | |- context [logEntry ErrorLevel m4 k4 None ?W3] =>
      destruct (logEntry_threshold ErrorLevel m4 k4 None W3) as [-> _];
        [|unfold GetLevel; simpl; rewrite HW; done];
      destruct (relay_body_accepted (mkEntry ErrorLevel m4 (kvNormalize k4) None) W3 w3
                  eq_refl Hh3) as (w4 & (Hd4 & _) & ->); [done|]
    end.
    simpl. unfold out_writer; simpl. split; [|reflexivity].
    rewrite Hd4, Hd3. simpl. by rewrite app_assoc_s.
Qed.

Lemma emit_iff_above_threshold_witness :
  exists st,
    run warn_schedule
      (boot (mkWorld WarnLevel (Some Buffer) Buffer false (fun _ => "") 0)
         [[Debug "foo" []; Info "bar" []; Warn "baz" []; Error "buz" []]])
      = Some st /\
    w_data (out_writer (world st)) =
      "~ WARN -- baz" +:+ newline +:+ "~ ERROR -- buz" +:+ newline.
Proof.
  eexists. split; [vm_compute; reflexivity|].
  destruct (emit_iff_above_threshold (mkWorld WarnLevel (Some Buffer) Buffer false (fun _ => "") 0)
              Buffer "foo" "bar" "baz" "buz" [] [] [] []) as (_ & _ & H).
  assert (healthy Buffer) as Hh by constructor.
  destruct (H eq_refl eq_refl Hh) as [Hq _].
  edestruct Hq as [E _]; [apply (run_reach warn_schedule); vm_compute; reflexivity| |].
  - split; reflexivity.
  - rewrite E. reflexivity.
Defined.

(** * Further properties *)

(** ** Attribute sets: [Copy], [Set], [Merge] *)

Lemma range_insert_entries (kv : KV) (acc : gmap string value) :
  range_insert (map_to_list (entries kv)) acc = entries kv ∪ acc.
Proof. by apply range_insert_any_order. Qed.

Lemma Merge_entries (kvs : list KV) :
  entries (Merge kvs) = foldl (fun acc kvi => entries kvi ∪ acc) ∅ kvs.
Proof.
  unfold Merge; simpl. generalize (∅ : gmap string value).
  induction kvs as [|kvi kvs IH]; intros acc; simpl; [reflexivity|].
  by rewrite range_insert_entries, IH.
Qed.

Lemma Merge_fold_acc (kvs : list KV) (acc : gmap string value) :
  foldl (fun acc kvi => entries kvi ∪ acc) acc kvs =
  foldl (fun acc kvi => entries kvi ∪ acc) ∅ kvs ∪ acc.
Proof.
  revert acc. induction kvs as [|kvi kvs IH]; intros acc; simpl.
  - by rewrite (left_id_L ∅ (∪)).
  - rewrite IH, (IH (entries kvi ∪ ∅)).
    by rewrite (right_id_L ∅ (∪)), (assoc_L (∪)).
Qed.

Lemma Copy_entries (kv : KV) : entries (Copy kv) = entries kv.
Proof. unfold Copy; simpl. rewrite range_insert_entries. apply (right_id_L ∅ (∪)). Qed.

(** X1 ([Copy]): the copy is never nil, also of a nil map, and holds
    exactly the pairs of the original: every lookup agrees. *)
Theorem Copy_same_entries (kv : KV) :
  Copy kv <> None /\
  entries (Copy kv) = entries kv /\
  (forall k, entries (Copy kv) !! k = entries kv !! k) /\
  Copy None = Some ∅.
Proof.
  pose proof (Copy_entries kv) as E.
  split; [discriminate|]. split; [exact E|]. split; [by rewrite E|].
  reflexivity.
Qed.

(** X2 ([Set]): the result is never nil, also on a nil receiver; it
    maps [k] to [v] and agrees with the receiver on every other key; it
    is what [Merge] gives for the receiver followed by the one-pair map. *)
Theorem Set_lookup (kv : KV) (k : string) (v : value) :
  Set_ kv k v <> None /\
  entries (Set_ kv k v) !! k = Some v /\
  (forall k', k' <> k -> entries (Set_ kv k v) !! k' = entries kv !! k') /\
  Set_ None k v = Some {[ k := v ]} /\
  Set_ kv k v = Merge [kv; Some {[ k := v ]}].
Proof.
  assert (entries (Set_ kv k v) = <[k := v]> (entries kv)) as E.
  { unfold Set_. simpl. f_equal. apply (Copy_entries kv). }
  split; [discriminate|]. split; [by rewrite E, lookup_insert_eq|].
  split; [intros k' Hk; by rewrite E, lookup_insert_ne|].
  split.
  - reflexivity.
  - change (Set_ kv k v) with (Some (entries (Set_ kv k v))).
    change (Merge [kv; Some {[k := v]}])
      with (Some (entries (Merge [kv; Some {[k := v]}]))).
    f_equal. rewrite E, Merge_entries. cbn [foldl entries default].
    rewrite (right_id_L ∅ (∪)). by rewrite insert_union_singleton_l.
Qed.

Lemma Set_lookup_witness :
  entries (Set_ (Some {[ "a" := VInt 1 ]}) "a" (VInt 2)) !! "a" = Some (VInt 2) /\
  entries (Set_ (Some {[ "a" := VInt 1; "b" := VInt 7 ]}) "a" (VInt 2)) !! "b"
    = Some (VInt 7).
Proof.
  split.
  - apply (Set_lookup (Some {[ "a" := VInt 1 ]}) "a" (VInt 2)).
  - destruct (Set_lookup (Some {[ "a" := VInt 1; "b" := VInt 7 ]}) "a" (VInt 2))
      as (_ & _ & H & _).
    rewrite (H "b"); [reflexivity|discriminate].
Defined.

(** X3 ([Merge]): merging is associative over its argument list, merging
    the merges of two halves gives the merge of the whole; one set
    merges to its copy; nil sets among the arguments change nothing; and
    a set merged after itself adds nothing. *)
Theorem Merge_compose (l1 l2 : list KV) (kv : KV) :
  Merge (l1 ++ l2) = Merge [Merge l1; Merge l2] /\
  Merge [kv] = Copy kv /\
  Merge (l1 ++ None :: l2) = Merge (l1 ++ l2) /\
  Merge (l1 ++ [kv; kv]) = Merge (l1 ++ [kv]).
Proof.
  assert (forall l, Merge l = Some (entries (Merge l))) as Hsome by reflexivity.
  split; [|split; [|split]].
  - rewrite (Hsome (l1 ++ l2)), (Hsome [Merge l1; Merge l2]). f_equal.
    rewrite (Merge_entries (l1 ++ l2)), (Merge_entries [_; _]), foldl_app.
    cbn [foldl]. rewrite Merge_fold_acc, !Merge_entries.
    by rewrite (right_id_L ∅ (∪)).
  - reflexivity.
  - rewrite (Hsome (l1 ++ None :: l2)), (Hsome (l1 ++ l2)). f_equal.
    rewrite !Merge_entries, !foldl_app. cbn [foldl entries default].
    by rewrite (left_id_L ∅ (∪)).
  - rewrite (Hsome (l1 ++ [kv; kv])), (Hsome (l1 ++ [kv])). f_equal.
    rewrite !Merge_entries, !foldl_app. cbn [foldl].
    by rewrite (assoc_L (∪)), (idemp_L (∪)).
Qed.

(** ** The sorted list: [kvTo], [kvNormalize], [Len], [Less], [Swap] *)

Lemma pairs_of_entries (order : list (string * value)) :
  (fun e => (K e, V e)) <$> ((fun p => mkKvE p.1 p.2) <$> order) = order.
Proof.
  rewrite <- list_fmap_compose. rewrite <- (list_fmap_id order) at 2.
  apply list_fmap_ext. by intros _ [k v] _.
Qed.

Lemma kvTo_perm (kv : KV) :
  kvTo kv ≡ₚ (fun p => mkKvE p.1 p.2) <$> map_to_list (entries kv).
Proof. unfold kvTo. rewrite kvTo_visit_sort. apply merge_sort_Permutation. Qed.

Lemma kvTo_keys_NoDup (kv : KV) : NoDup (K <$> kvTo kv).
Proof. rewrite kvTo_perm, keys_of_entries. apply NoDup_fst_map_to_list. Qed.

Lemma kvTo_elem (kv : KV) (k : string) (v : value) :
  mkKvE k v ∈ kvTo kv <-> entries kv !! k = Some v.
Proof.
  rewrite kvTo_perm, list_elem_of_fmap. split.
  - intros ([k' v'] & [= -> ->] & Hin). by apply elem_of_map_to_list in Hin.
  - intros H. exists (k, v). split; [reflexivity|]. by apply elem_of_map_to_list.
Qed.

Lemma kvTo_sorted (kv : KV) :
  StronglySorted (fun a b => Less a b = true) (kvTo kv).
Proof.
  unfold kvTo. rewrite kvTo_visit_sort. apply sort_Sort_strict.
  rewrite keys_of_entries. apply NoDup_fst_map_to_list.
Qed.

(** X4 ([kvTo]): the list holds each pair of the map once: putting its
    pairs back into a map gives the map's entries, its length is the
    map's size, its keys are distinct and strictly increasing; a nil map
    and an empty map give the empty list. *)
Theorem kvTo_round_trip (kv : KV) :
  list_to_map ((fun e => (K e, V e)) <$> kvTo kv) = entries kv /\
  length (kvTo kv) = size (entries kv) /\
  NoDup (K <$> kvTo kv) /\
  StronglySorted (fun a b => Less a b = true) (kvTo kv) /\
  (forall k v, mkKvE k v ∈ kvTo kv <-> entries kv !! k = Some v) /\
  kvTo None = [] /\ kvTo (Some ∅) = [].
Proof.
  split; [|split; [|split; [|split; [|split; [|split]]]]].
  - transitivity (list_to_map (map_to_list (entries kv)) : gmap string value);
      [|apply list_to_map_to_list].
    apply list_to_map_proper.
    + rewrite <- list_fmap_compose. apply (kvTo_keys_NoDup kv).
    + rewrite kvTo_perm. by rewrite pairs_of_entries.
  - rewrite kvTo_perm, length_fmap. apply length_map_to_list.
  - apply kvTo_keys_NoDup.
  - apply kvTo_sorted.
  - apply kvTo_elem.
  - reflexivity.
  - reflexivity.
Qed.

(** X5 ([kvNormalize]): the list an entry carries holds the pair
    [(k, v)] exactly when [v] is the value of the rightmost argument
    holding [k]; it is strictly increasing by key; with no argument, or
    nil arguments only, it is empty. *)
Theorem kvNormalize_rightmost (kvs : list KV) :
  (forall k v, mkKvE k v ∈ kvNormalize kvs <-> rightmost k kvs = Some v) /\
  StronglySorted (fun a b => Less a b = true) (kvNormalize kvs) /\
  NoDup (K <$> kvNormalize kvs) /\
  kvNormalize [] = [] /\
  (Forall (fun kvi => kvi = None) kvs -> kvNormalize kvs = []).
Proof.
  assert (forall k, entries (Merge kvs) !! k = rightmost k kvs) as Hlk.
  { intros k. unfold Merge; simpl. rewrite Merge_loop_lookup. by rewrite lookup_empty. }
  split; [|split; [|split; [|split]]].
  - intros k v. unfold kvNormalize. by rewrite kvTo_elem, Hlk.
  - apply (kvTo_sorted (Merge kvs)).
  - apply kvTo_keys_NoDup.
  - reflexivity.
  - intros Hnil.
    assert (entries (Merge kvs) = ∅) as E.
    { apply map_eq. intros k. rewrite Hlk, lookup_empty.
      apply rightmost_absent. eapply Forall_impl; [exact Hnil|].
      intros kvi ->. apply lookup_empty. }
    unfold kvNormalize, kvTo. rewrite E. reflexivity.
Qed.

Lemma kvNormalize_rightmost_witness :
  kvNormalize [None; None] = [] /\
  mkKvE "a" (VInt 3)
    ∈ kvNormalize [Some {[ "a" := VInt 1; "b" := VInt 2 ]}; Some {[ "a" := VInt 3 ]}].
Proof.
  split.
  - apply (kvNormalize_rightmost [None; None]). repeat constructor.
  - apply (kvNormalize_rightmost
             [Some {[ "a" := VInt 1; "b" := VInt 2 ]}; Some {[ "a" := VInt 3 ]}]).
    reflexivity.
Defined.

(** X6 ([Less]): the comparison is a strict order on the keys: never
    true of a pair with itself, transitive, never true both ways, and
    deciding between any two distinct keys. *)
Theorem Less_strict_order (a b c : kvE) :
  Less a a = false /\
  (Less a b = true -> Less b c = true -> Less a c = true) /\
  (Less a b = true -> Less b a = false) /\
  (K a <> K b -> Less a b = true \/ Less b a = true) /\
  (Less a b = false -> Less b a = false -> K a = K b).
Proof.
  assert (forall x y, Less x y = true <-> not_after x y /\ K x <> K y) as Hlt.
  { intros x y. split.
    - intros H. assert (not_after x y) as Hxy.
      { destruct (total not_after x y) as [?|Hyx]; [done|].
        unfold not_after in Hyx. congruence. }
      split; [exact Hxy|]. intros E.
      assert (not_after y x) as Hyx.
      { apply not_after_le. rewrite E. reflexivity. }
      unfold not_after in Hyx. congruence.
    - intros [H1 H2]. by apply Less_of_not_after. }
  split; [|split; [|split; [|split]]].
  - destruct (Less a a) eqn:E; [|reflexivity]. apply Hlt in E as [_ E]. done.
  - intros [H1 N1]%Hlt [H2 N2]%Hlt. apply Hlt. split; [by etrans|].
    intros E. apply N1. apply not_after_antisym; [exact H1|].
    apply not_after_le. rewrite E. by apply not_after_le.
  - intros [H1 N1]%Hlt. destruct (Less b a) eqn:E; [|reflexivity].
    apply Hlt in E as [H2 _]. destruct N1. by apply not_after_antisym.
  - intros N. destruct (total not_after a b) as [H|H].
    + left. by apply Hlt.
    + right. apply Hlt. split; [exact H|]. congruence.
  - intros H1 H2. by apply not_after_antisym.
Qed.

Lemma Less_strict_order_witness :
  Less (mkKvE "bar" VNil) (mkKvE "foo" VNil) = true /\
  Less (mkKvE "foo" VNil) (mkKvE "bar" VNil) = false.
Proof.
  split; [reflexivity|].
  by apply (Less_strict_order (mkKvE "bar" VNil) (mkKvE "foo" VNil) (mkKvE "foo" VNil)).
Defined.

(** X7 ([Swap], [Len], [Less] by index): within bounds [Swap] exchanges
    the two elements and touches no other, so the list stays a
    permutation of itself with the same [Len], and swapping again gives
    the list back; [Less] compares the keys at the two indices; with an
    index at or beyond [Len] both panic. *)
Theorem Swap_exchanges (l : kvL) (i j : nat) :
  ((i < Len l)%nat -> (j < Len l)%nat ->
   exists l',
     Swap l i j = Some l' /\
     l' !! i = l !! j /\ l' !! j = l !! i /\
     (forall n, n <> i -> n <> j -> l' !! n = l !! n) /\
     Len l' = Len l /\ l' ≡ₚ l /\
     Swap l' i j = Some l /\
     exists a b, l !! i = Some a /\ l !! j = Some b /\
       Less_at l i j = Some (String.ltb (K a) (K b))) /\
  ((Len l <= i)%nat \/ (Len l <= j)%nat ->
   Swap l i j = None /\ Less_at l i j = None).
Proof.
  unfold Len, Swap, Less_at. split.
  - intros Hi Hj.
    destruct (lookup_lt_is_Some_2 l i Hi) as [a Ha].
    destruct (lookup_lt_is_Some_2 l j Hj) as [b Hb].
    rewrite Ha, Hb. eexists. split; [reflexivity|].
    assert (<[j:=a]> (<[i:=b]> l) !! i = Some b) as Ei.
    { destruct (decide (i = j)) as [->|Hne].
      - rewrite list_lookup_insert_eq by (by rewrite length_insert). congruence.
      - rewrite list_lookup_insert_ne by congruence. by apply list_lookup_insert_eq. }
    assert (<[j:=a]> (<[i:=b]> l) !! j = Some a) as Ej.
    { apply list_lookup_insert_eq. by rewrite length_insert. }
    assert (forall n, n <> i -> n <> j -> <[j:=a]> (<[i:=b]> l) !! n = l !! n) as En.
    { intros n Hni Hnj. by rewrite !list_lookup_insert_ne by congruence. }
    split; [by rewrite Ei|]. split; [by rewrite Ej|]. split; [exact En|].
    split; [by rewrite !length_insert|]. split.
    + apply Permutation_inj. split; [by rewrite !length_insert|].
      exists (fun n => if decide (n = i) then j else if decide (n = j) then i else n).
      split.
      * intros x y. repeat case_decide; congruence.
      * intros n. repeat case_decide; subst; try congruence.
        by apply En.
    + rewrite Ei, Ej. split.
      * f_equal. apply list_eq. intros n.
        destruct (decide (n = j)) as [->|Hnj].
        { rewrite list_lookup_insert_eq by (by rewrite !length_insert). done. }
        rewrite list_lookup_insert_ne by congruence.
        destruct (decide (n = i)) as [->|Hni].
        { rewrite list_lookup_insert_eq by (by rewrite !length_insert). done. }
        rewrite list_lookup_insert_ne by congruence. by apply En.
      * by exists a, b.
  - intros [H|H].
    + rewrite (lookup_ge_None_2 l i H). done.
    + rewrite (lookup_ge_None_2 l j H). by destruct (l !! i).
Qed.

Lemma Swap_exchanges_witness :
  Swap [mkKvE "b" VNil; mkKvE "a" VNil] 0 1 = Some [mkKvE "a" VNil; mkKvE "b" VNil] /\
  Swap [mkKvE "b" VNil; mkKvE "a" VNil] 0 2 = None.
Proof.
  destruct (Swap_exchanges [mkKvE "b" VNil; mkKvE "a" VNil] 0 1) as [H _].
  destruct (Swap_exchanges [mkKvE "b" VNil; mkKvE "a" VNil] 0 2) as [_ H'].
  split.
  - destruct H as (l' & E & _); [simpl; lia|simpl; lia|]. rewrite E. by injection E as <-.
  - apply H'. right. simpl. lia.
Defined.

(** ** [Level.String] and [SetLevelFromString] *)

(** X8 ([Level.String]): a level of the five prints as a name that
    [SetLevelFromString] reads back as the same level, so distinct levels
    of the five print differently; any other level prints as
    [unknown level], which [SetLevelFromString] rejects, leaving the
    threshold alone. *)
Theorem Level_String_round_trip (unicode_ToUpper unicode_Quote : string -> string)
  (l cur : Level) :
  (level_defined l ->
     SetLevelFromString unicode_ToUpper unicode_Quote (Level_String l) cur = (l, None)) /\
  (~ level_defined l ->
     Level_String l = "unknown level" /\
     (SetLevelFromString unicode_ToUpper unicode_Quote (Level_String l) cur).1 = cur /\
     (SetLevelFromString unicode_ToUpper unicode_Quote (Level_String l) cur).2 <> None) /\
  (forall l', level_defined l -> level_defined l' ->
     Level_String l = Level_String l' -> l = l').
Proof.
  assert (forall x, level_defined x -> x = 0 \/ x = 1 \/ x = 2 \/ x = 3 \/ x = 4) as Hcases.
  { unfold level_defined, DebugLevel, FatalLevel. intros x Hx. lia. }
  split; [|split].
  - intros H. destruct (Hcases l H) as [-> | [-> | [-> | [-> | ->]]]]; reflexivity.
  - intros H.
    assert (Level_String l = "unknown level") as E.
    { unfold Level_String, level_defined, DebugLevel, InfoLevel, WarnLevel,
        ErrorLevel, FatalLevel in *.
      repeat match goal with
      | |- context [Z.eqb ?a ?b] => destruct (Z.eqb_spec a b); [lia|]
      end. reflexivity. }
    rewrite E. split; [reflexivity|]. split; [reflexivity|discriminate].
  - intros l' H H'.
    destruct (Hcases l H) as [-> | [-> | [-> | [-> | ->]]]];
      destruct (Hcases l' H') as [-> | [-> | [-> | [-> | ->]]]];
      intros E; try reflexivity; discriminate E.
Qed.

Lemma Level_String_round_trip_witness :
  SetLevelFromString (fun s => s) (fun s => s) (Level_String ErrorLevel) DebugLevel
    = (ErrorLevel, None) /\
  Level_String 7 = "unknown level".
Proof.
  destruct (Level_String_round_trip (fun s => s) (fun s => s) ErrorLevel DebugLevel)
    as (H & _).
  destruct (Level_String_round_trip (fun s => s) (fun s => s) 7 DebugLevel)
    as (_ & H' & _).
  split.
  - apply H. unfold level_defined, DebugLevel, ErrorLevel, FatalLevel. lia.
  - apply H'. unfold level_defined, DebugLevel, FatalLevel. lia.
Defined.

(** ** [writeHelper] and [printOut]: the first failure stops the line *)

Lemma writeHelper_failed (b : string) (w : Writer) (err : error) :
  writeHelper b (w, Some err) = (w, Some err).
Proof. reflexivity. Qed.

Lemma writeHelper_fold_failed (cs : list string) (w : Writer) (err : error) :
  foldl (fun st b => writeHelper b st) (w, Some err) cs = (w, Some err).
Proof. induction cs as [|b cs IH]; [reflexivity|]. simpl. exact IH. Qed.

Lemma printPairs_chunks (l : kvL) (st : Writer * option error) :
  foldl printPair st l = foldl (fun st b => writeHelper b st) st (l ≫= pair_chunks).
Proof.
  revert st. induction l as [|kve l IH]; intros st; [reflexivity|].
  simpl. rewrite IH. reflexivity.
Qed.

(** [printOut] is the loop of [writeHelper] over the slices. *)
Lemma printOut_chunks (e : entry) (w : Writer) (displayTS : bool) (now : string) :
  printOut e w displayTS now =
    foldl (fun st b => writeHelper b st) (w, None) (chunks e displayTS now).
Proof.
  unfold printOut, chunks. rewrite !foldl_app.
  destruct displayTS; destruct (kv e) as [|kve l] eqn:E; simpl; try reflexivity;
    by rewrite printPairs_chunks.
Qed.

Lemma concat_s_app (l1 l2 : list string) :
  concat_s (l1 ++ l2) = concat_s l1 +:+ concat_s l2.
Proof.
  induction l1 as [|b l1 IH]; [reflexivity|].
  simpl. rewrite IH. by rewrite app_assoc_s.
Qed.

Lemma pairs_text_chunks (l : kvL) : concat_s (l ≫= pair_chunks) = pairs_text l.
Proof.
  induction l as [|kve l IH]; [reflexivity|].
  change (concat_s (pair_chunks kve ++ (l ≫= pair_chunks)) = pair_text kve +:+ pairs_text l).
  rewrite concat_s_app, IH. f_equal. unfold pair_chunks, pair_text; simpl.
  by rewrite app_nil_r_s.
Qed.

Lemma line_chunks (e : entry) (displayTS : bool) (now : string) :
  concat_s (chunks e displayTS now) = line e displayTS now.
Proof.
  unfold chunks, line. rewrite !concat_s_app.
  assert (concat_s (if displayTS then [tsPrefix; now; tsSuffix] else [])
          = ts_text displayTS now) as ->.
  { destruct displayTS; simpl; [|reflexivity]. by rewrite app_nil_r_s. }
  assert (concat_s match kv e with
                   | [] => []
                   | _ :: _ => separator :: (kv e ≫= pair_chunks)
                   end
          = match kv e with
            | [] => ""
            | _ :: _ => separator +:+ pairs_text (kv e)
            end) as ->.
  { destruct (kv e) as [|kve l]; [reflexivity|].
    change (separator +:+ concat_s ((kve :: l) ≫= pair_chunks)
            = separator +:+ pairs_text (kve :: l)).
    by rewrite pairs_text_chunks. }
  simpl. rewrite !app_nil_r_s, !app_assoc_s. reflexivity.
Qed.

Lemma writeHelper_fold (cs : list string) (w : Writer) :
  (forall k err,
     (k < length cs)%nat ->
     w_script w !! k = Some (Some err) ->
     (forall j err', (j < k)%nat -> w_script w !! j <> Some (Some err')) ->
     foldl (fun st b => writeHelper b st) (w, None) cs =
       (mkWriter (w_data w +:+ concat_s (take k cs)) (drop (S k) (w_script w))
          (w_syncer w) (w_flusher w) (w_syncs w) (w_flushes w), Some err)) /\
  ((forall j err', (j < length cs)%nat -> w_script w !! j <> Some (Some err')) ->
     foldl (fun st b => writeHelper b st) (w, None) cs =
       (mkWriter (w_data w +:+ concat_s cs) (drop (length cs) (w_script w))
          (w_syncer w) (w_flusher w) (w_syncs w) (w_flushes w), None)).
Proof.
  revert w. induction cs as [|b cs IH]; intros w.
  - split.
    + intros k err Hk. simpl in Hk. lia.
    + intros _. simpl. rewrite app_nil_r_s. by destruct w.
  - split.
    + intros k err Hk Hfail Hbefore. simpl.
      unfold writeHelper at 2. cbn [fst snd]. unfold Write.
      destruct (w_script w) as [|o rest] eqn:Es; [by destruct k|].
      destruct k as [|k].
      * simpl in Hfail. injection Hfail as ->.
        rewrite writeHelper_fold_failed. simpl. by rewrite app_nil_r_s.
      * destruct o as [err0|]; [by destruct (Hbefore 0%nat err0 ltac:(lia))|].
        destruct (IH (mkWriter (w_data w +:+ b) rest (w_syncer w) (w_flusher w)
                        (w_syncs w) (w_flushes w))) as [IH1 _].
        rewrite (IH1 k err); cbn [w_data w_script w_syncer w_flusher w_syncs w_flushes].
        -- simpl. by rewrite app_assoc_s.
        -- simpl in Hk. lia.
        -- exact Hfail.
        -- intros j err' Hj. apply (Hbefore (S j) err'). lia.
    + intros Hnone. simpl.
      unfold writeHelper at 2. cbn [fst snd]. unfold Write.
      destruct (w_script w) as [|o rest] eqn:Es.
      * destruct (IH (mkWriter (w_data w +:+ b) [] (w_syncer w) (w_flusher w)
                        (w_syncs w) (w_flushes w))) as [_ IH2].
        rewrite IH2; cbn [w_data w_script w_syncer w_flusher w_syncs w_flushes].
        -- simpl. rewrite app_assoc_s. by rewrite drop_nil.
        -- intros j err' _. by rewrite lookup_nil.
      * destruct o as [err0|]; [by destruct (Hnone 0%nat err0 ltac:(simpl; lia))|].
        destruct (IH (mkWriter (w_data w +:+ b) rest (w_syncer w) (w_flusher w)
                        (w_syncs w) (w_flushes w))) as [_ IH2].
        rewrite IH2; cbn [w_data w_script w_syncer w_flusher w_syncs w_flushes].
        -- simpl. by rewrite app_assoc_s.
        -- intros j err' Hj. apply (Hnone (S j) err'). simpl. lia.
Qed.

(** X9 ([printOut], [writeHelper]): [printOut] hands its slices to the
    sink one [Write] at a time.  When the [k]-th of these calls is the
    first to fail, [printOut] returns that call's error, the sink holds
    the slices before it and nothing of what follows, and [Write] is not
    called again.  When none fails the sink holds the whole line and no
    error is returned.  Neither case calls [Sync] or [Flush]. *)
Theorem printOut_first_failure (e : entry) (w : Writer) (displayTS : bool)
  (now : string) :
  (forall k err,
     (k < length (chunks e displayTS now))%nat ->
     w_script w !! k = Some (Some err) ->
     (forall j err', (j < k)%nat -> w_script w !! j <> Some (Some err')) ->
     printOut e w displayTS now =
       (mkWriter (w_data w +:+ concat_s (take k (chunks e displayTS now)))
          (drop (S k) (w_script w))
          (w_syncer w) (w_flusher w) (w_syncs w) (w_flushes w), Some err) /\
     exists rest,
       line e displayTS now =
         concat_s (take k (chunks e displayTS now)) +:+ rest) /\
  ((forall j err', (j < length (chunks e displayTS now))%nat ->
      w_script w !! j <> Some (Some err')) ->
     printOut e w displayTS now =
       (mkWriter (w_data w +:+ line e displayTS now)
          (drop (length (chunks e displayTS now)) (w_script w))
          (w_syncer w) (w_flusher w) (w_syncs w) (w_flushes w), None)) /\
  length (chunks e displayTS now) =
    (4 + (if displayTS then 3 else 0)
     + match kv e with
       | [] => 0
       | _ :: _ => 1 + 4 * length (kv e)
       end + 1)%nat.
Proof.
  destruct (writeHelper_fold (chunks e displayTS now) w) as [H1 H2].
  split; [|split].
  - intros k err Hk Hfail Hbefore. split.
    + rewrite printOut_chunks. by apply H1.
    + exists (concat_s (drop k (chunks e displayTS now))).
      rewrite <- concat_s_app, take_drop. symmetry. apply line_chunks.
  - intros Hnone. rewrite printOut_chunks, H2 by exact Hnone.
    by rewrite line_chunks.
  - unfold chunks. rewrite !length_app.
    assert (forall l : kvL, length (l ≫= pair_chunks) = (4 * length l)%nat) as Hp.
    { induction l as [|kve l IH]; [reflexivity|].
      change (length (pair_chunks kve ++ (l ≫= pair_chunks)) = (4 * length (kve :: l))%nat).
      rewrite length_app, IH. simpl. lia. }
    destruct displayTS; destruct (kv e) as [|kve l]; simpl; rewrite ?Hp; simpl; lia.
Qed.

Lemma printOut_first_failure_witness :
  printOut (mkEntry InfoLevel "bar" [] None)
    (mkWriter "" [None; None; Some (errorString "full"); Some (errorString "late")]
       true false 0 0) false "" =
  (mkWriter "~ INFO" [Some (errorString "late")] true false 0 0,
   Some (errorString "full")).
Proof.
  destruct (printOut_first_failure (mkEntry InfoLevel "bar" [] None)
    (mkWriter "" [None; None; Some (errorString "full"); Some (errorString "late")]
       true false 0 0) false "") as (H & _).
  destruct (H 2%nat (errorString "full")) as [E _].
  - simpl. lia.
  - reflexivity.
  - intros j err' Hj. destruct j as [|[|j]]; [discriminate|discriminate|lia].
  - rewrite E. reflexivity.
Defined.

(** ** One entry, one line *)

Lemma count_byte_app (c : ascii) (a b : string) :
  count_byte c (a +:+ b) = (count_byte c a + count_byte c b)%nat.
Proof.
  induction a as [|x a IH]; [reflexivity|].
  change (count_byte c (String x (a +:+ b))
          = (count_byte c (String x a) + count_byte c b)%nat).
  cbn [count_byte]. rewrite IH. lia.
Qed.

Lemma count_byte_printable (c : ascii) (s : string) :
  Bytes.printable c = false -> Bytes.all_printable s = true -> count_byte c s = 0%nat.
Proof.
  intros Hc. induction s as [|x s IH]; [reflexivity|].
  cbn [Bytes.all_printable count_byte]. intros [Hx Hs]%andb_prop.
  rewrite (IH Hs). destruct (Ascii.eqb_spec c x) as [->|_]; [congruence|reflexivity].
Qed.

Lemma count_LF_value_text (v : value) : count_byte LF (value_text v) = 0%nat.
Proof.
  unfold value_text.
  destruct (QuoteToASCII_safe (Replace (Sprint v) dquote squote)
              (Replace_no_dquote (Sprint v))) as (body & -> & Hp & _).
  change (String dquote (body +:+ String dquote ""))
    with (String dquote "" +:+ body +:+ String dquote "").
  rewrite !count_byte_app. rewrite (count_byte_printable LF body); [reflexivity..|exact Hp].
Qed.

Lemma count_LF_Level_String (l : Level) : count_byte LF (Level_String l) = 0%nat.
Proof.
  unfold Level_String.
  repeat match goal with
  | |- context [if ?b then _ else _] => destruct b; [reflexivity|]
  end. reflexivity.
Qed.

Lemma count_LF_pairs_text (l : kvL) :
  count_byte LF (pairs_text l) = sum_list_with (fun kve => count_byte LF (K kve)) l.
Proof.
  induction l as [|kve l IH]; [reflexivity|].
  cbn [pairs_text sum_list_with]. unfold pair_text.
  rewrite !count_byte_app, IH, count_LF_value_text.
  change (count_byte LF space) with 0%nat. change (count_byte LF equals) with 0%nat. lia.
Qed.

(** X10 ([printOut]): the line feeds in a line are the closing one, those
    of the message, those of the timestamp when it is displayed, and
    those of the keys, which are all written as they are; values add
    none, whatever they hold.  So an entry whose message, keys and
    timestamp are free of line feeds is written as exactly one line. *)
Theorem line_feeds (e : entry) (displayTS : bool) (now : string) :
  count_byte LF (line e displayTS now) =
    (1 + count_byte LF (msg e)
     + (if displayTS then count_byte LF now else 0)
     + sum_list_with (fun kve => count_byte LF (K kve)) (kv e))%nat /\
  (count_byte LF (msg e) = 0%nat ->
   (displayTS = true -> count_byte LF now = 0%nat) ->
   Forall (fun kve => count_byte LF (K kve) = 0%nat) (kv e) ->
   exists body, line e displayTS now = body +:+ newline /\
     count_byte LF body = 0%nat).
Proof.
  assert (count_byte LF (line e displayTS now) =
    (1 + count_byte LF (msg e)
     + (if displayTS then count_byte LF now else 0)
     + sum_list_with (fun kve => count_byte LF (K kve)) (kv e))%nat) as Hcount.
  { unfold line, ts_text. rewrite !count_byte_app, count_LF_Level_String.
    change (count_byte LF prefix) with 0%nat.
    change (count_byte LF separatorSpace) with 0%nat.
    change (count_byte LF newline) with 1%nat.
    assert (count_byte LF match kv e with
                          | [] => ""
                          | _ :: _ => separator +:+ pairs_text (kv e)
                          end
            = sum_list_with (fun kve => count_byte LF (K kve)) (kv e)) as ->.
    { destruct (kv e) as [|kve l] eqn:E; [reflexivity|].
      rewrite count_byte_app, count_LF_pairs_text. reflexivity. }
    destruct displayTS.
    - rewrite !count_byte_app. change (count_byte LF tsPrefix) with 0%nat.
      change (count_byte LF tsSuffix) with 0%nat. lia.
    - simpl. lia. }
  split; [exact Hcount|].
  intros Hm Hts Hk.
  assert (sum_list_with (fun kve => count_byte LF (K kve)) (kv e) = 0%nat) as Hsum.
  { clear Hcount. induction (kv e) as [|kve l IH]; [reflexivity|].
    apply Forall_cons in Hk as [H0 Hk]. cbn [sum_list_with]. by rewrite H0, IH. }
  assert ((if displayTS then count_byte LF now else 0%nat) = 0%nat) as Hnow.
  { destruct displayTS; [by apply Hts|reflexivity]. }
  eexists. split.
  - unfold line. rewrite <- !app_assoc_s. reflexivity.
  - rewrite Hm, Hnow, Hsum in Hcount. unfold line in Hcount.
    rewrite <- !app_assoc_s in Hcount. rewrite count_byte_app in Hcount.
    change (count_byte LF newline) with 1%nat in Hcount. lia.
Qed.

Lemma line_feeds_witness :
  exists body,
    line (mkEntry InfoLevel "bar" [mkKvE "k" (VString (String LF "x"))] None) false ""
      = body +:+ newline /\ count_byte LF body = 0%nat.
Proof.
  apply (line_feeds (mkEntry InfoLevel "bar" [mkKvE "k" (VString (String LF "x"))] None)
           false "").
  - reflexivity.
  - discriminate.
  - repeat constructor.
Defined.

(** X11 (the text of a value): the text depends on the value only
    through its [Sprint] text with double quotes turned into single
    quotes: a value and the string of its [Sprint] text are written
    alike, and so are two strings that differ in a double quote against
    a single quote at one place. *)
Theorem value_text_collisions (v : value) (a b : string) :
  value_text v = value_text (VString (Sprint v)) /\
  value_text (VString (a +:+ String dquote b)) =
    value_text (VString (a +:+ String squote b)) /\
  (forall v', Replace (Sprint v) dquote squote = Replace (Sprint v') dquote squote ->
     value_text v = value_text v').
Proof.
  split; [reflexivity|]. split.
  - unfold value_text, Replace. f_equal. simpl.
    induction a as [|x a IH]; [reflexivity|].
    change (String x a +:+ ?s) with (String x (a +:+ s)).
    cbn [Bytes.map]. by rewrite IH.
  - intros v' E. unfold value_text. by rewrite E.
Qed.

(** ** The relay's pass over one entry *)

Lemma writeHelper_same_calls (b : string) (st : Writer * option error) :
  same_calls st.1 (writeHelper b st).1.
Proof.
  unfold writeHelper, Write, same_calls. destruct st as [w [err|]]; simpl; [done|].
  by destruct (w_script w) as [|[?|] ?].
Qed.

Lemma same_calls_trans (w1 w2 w3 : Writer) :
  same_calls w1 w2 -> same_calls w2 w3 -> same_calls w1 w3.
Proof. unfold same_calls. intros (?&?&?&?) (?&?&?&?). repeat split; congruence. Qed.

Lemma printOut_same_calls (e : entry) (w : Writer) (displayTS : bool) (now : string) :
  same_calls w (printOut e w displayTS now).1.
Proof.
  rewrite printOut_chunks.
  assert (forall cs st, same_calls st.1
            (foldl (fun st b => writeHelper b st) st cs).1) as H.
  { induction cs as [|b cs IH]; intros st; [done|]. simpl.
    eapply same_calls_trans; [apply (writeHelper_same_calls b st)|apply IH]. }
  apply (H _ (w, None)).
Qed.

(** X12 (the relay's loop body): over one entry the relay calls [Sync]
    or [Flush] on [Out] only when the entry is FATAL, then once and on
    the first of the two the sink has, whatever the writes did; it never
    calls them on [defaultOut] when [Out] is another sink; and it leaves
    the threshold, the timestamp switch and the identity of [Out] as they
    were. *)
Theorem relay_body_flush_calls (e : entry) (W : World) :
  w_syncs (out_writer (relay_body e W)) =
    (w_syncs (out_writer W)
     + if ((level e =? FatalLevel)%Z && w_syncer (out_writer W))%bool
       then 1 else 0)%nat /\
  w_flushes (out_writer (relay_body e W)) =
    (w_flushes (out_writer W)
     + if ((level e =? FatalLevel)%Z && negb (w_syncer (out_writer W))
           && w_flusher (out_writer W))%bool then 1 else 0)%nat /\
  w_syncer (out_writer (relay_body e W)) = w_syncer (out_writer W) /\
  w_flusher (out_writer (relay_body e W)) = w_flusher (out_writer W) /\
  (forall w, Out W = Some w ->
     same_calls (defaultOut W) (defaultOut (relay_body e W)) /\
     exists w', Out (relay_body e W) = Some w') /\
  (Out W = None -> Out (relay_body e W) = None) /\
  currLevel (relay_body e W) = currLevel W /\
  DisplayTimestamp (relay_body e W) = DisplayTimestamp W.
Proof.
  destruct W as [lvl out dflt ts clk tk].
  unfold relay_body, printOut_Out, out_writer. cbn [Out defaultOut DisplayTimestamp clock ticks].
  destruct out as [w|].
  - pose proof (printOut_same_calls e w ts (clk tk)) as (Hs & Hf & Hns & Hnf).
    destruct (printOut e w ts (clk tk)) as [w1 err] eqn:E. cbn [fst snd] in *.
    assert (exists d', same_calls dflt d' /\
              relay_fallback e err (tick (set_out w1 (mkWorld lvl (Some w) dflt ts clk tk)))
              = mkWorld lvl (Some w1) d' ts clk
                  (ticks (relay_fallback e err
                            (tick (set_out w1 (mkWorld lvl (Some w) dflt ts clk tk))))))
      as (d' & Hd' & ->).
    { unfold relay_fallback, set_out, tick; cbn [Out defaultOut DisplayTimestamp clock ticks currLevel].
      destruct err as [er|]; [|by exists dflt].
      unfold printOut_defaultOut, tick, set_defaultOut;
        cbn [Out defaultOut DisplayTimestamp clock ticks currLevel fst].
      eexists. split; [|reflexivity].
      eapply same_calls_trans; apply printOut_same_calls. }
    unfold relay_flush, out_writer, set_out; cbn [Out defaultOut].
    rewrite Hs, Hf.
    destruct Hd' as (?&?&?&?).
    destruct (level e =? FatalLevel), (w_syncer w), (w_flusher w);
      simpl; repeat split; intros; first [done | lia | eauto].
  - pose proof (printOut_same_calls e dflt ts (clk tk)) as (Hs & Hf & Hns & Hnf).
    destruct (printOut e dflt ts (clk tk)) as [w1 err] eqn:E. cbn [fst snd] in *.
    assert (relay_fallback e err (tick (set_out w1 (mkWorld lvl None dflt ts clk tk)))
            = tick (set_out w1 (mkWorld lvl None dflt ts clk tk))) as ->.
    { unfold relay_fallback. by destruct err. }
    unfold relay_flush, out_writer, set_out, tick; cbn [Out defaultOut DisplayTimestamp].
    rewrite Hs, Hf.
    destruct (level e =? FatalLevel), (w_syncer dflt), (w_flusher dflt);
      simpl; repeat split; intros; first [done | lia | eauto].
Qed.

(** X13 (fallback only for a sink of its own): when [Out] is [defaultOut]
    itself a failed write is dropped: [defaultOut] keeps the slices
    written before the failure and gets nothing more, no ERROR line and
    no second attempt; and when the write to a sink of its own succeeds,
    [defaultOut] is left exactly as it was. *)
Theorem fallback_only_for_own_sink (e : entry) (W : World) :
  (Out W = None ->
   forall k err,
     (k < length (chunks e (DisplayTimestamp W) (clock W (ticks W))))%nat ->
     w_script (defaultOut W) !! k = Some (Some err) ->
     (forall j err', (j < k)%nat -> w_script (defaultOut W) !! j <> Some (Some err')) ->
     (printOut_Out e W).2 = Some err /\
     w_data (defaultOut (relay_body e W)) =
       w_data (defaultOut W)
         +:+ concat_s (take k (chunks e (DisplayTimestamp W) (clock W (ticks W)))) /\
     w_script (defaultOut (relay_body e W)) = drop (S k) (w_script (defaultOut W))) /\
  (forall w, Out W = Some w -> (printOut_Out e W).2 = None ->
     defaultOut (relay_body e W) = defaultOut W).
Proof.
  destruct W as [lvl out dflt ts clk tk]. cbn [Out defaultOut DisplayTimestamp clock ticks].
  split.
  - intros -> k err Hk Hfail Hbefore.
    destruct (writeHelper_fold (chunks e ts (clk tk)) dflt) as [H _].
    pose proof (H k err Hk Hfail Hbefore) as E. rewrite <- printOut_chunks in E.
    unfold relay_body, printOut_Out, out_writer. cbn [Out defaultOut DisplayTimestamp clock ticks].
    rewrite E. cbn [fst snd]. split; [reflexivity|].
    unfold relay_fallback, set_out, tick. cbn [Out defaultOut DisplayTimestamp].
    unfold relay_flush, out_writer, set_out. cbn [Out defaultOut w_syncer w_flusher].
    destruct (level e =? FatalLevel), (w_syncer dflt), (w_flusher dflt); by split.
  - intros w [= ->] Hok.
    unfold relay_body. rewrite Hok.
    unfold printOut_Out, out_writer, relay_fallback, set_out, tick.
    cbn [Out defaultOut DisplayTimestamp clock ticks fst].
    unfold relay_flush, out_writer, set_out. cbn [Out defaultOut].
    repeat match goal with
    | |- context [if ?b then _ else _] => destruct b
    end; reflexivity.
Qed.

Lemma fallback_only_for_own_sink_witness :
  w_data (defaultOut (relay_body (mkEntry ErrorLevel "buz" [] None)
    (mkWorld InfoLevel None
       (mkWriter "" [None; Some (errorString "gone")] false false 0 0)
       false (fun _ => "") 0))) = "~ ".
Proof.
  destruct (fallback_only_for_own_sink (mkEntry ErrorLevel "buz" [] None)
    (mkWorld InfoLevel None
       (mkWriter "" [None; Some (errorString "gone")] false false 0 0)
       false (fun _ => "") 0)) as [H _].
  destruct (H eq_refl 1%nat (errorString "gone")) as (_ & E & _).
  - simpl. lia.
  - reflexivity.
  - intros j err' Hj. destruct j; [discriminate|lia].
  - rewrite E. reflexivity.
Defined.

(** ** The relay's log *)

Lemma passes_log_snoc (ps : list (entry * option error)) (e : entry)
  (err : option error) :
  passes_log (ps ++ [(e, err)]) = passes_log ps ++ handled e err.
Proof. unfold passes_log. rewrite bind_app. reflexivity. Qed.

Lemma one_entry_at_a_time_step (st st' : System) :
  (exists ps tail,
     trace st = passes_log ps ++ tail /\ in_progress (worker st) tail /\
     forall ch, ch ∈ closed st <-> exists p, p ∈ ps /\ blockCh p.1 = Some ch) ->
  step st st' ->
  exists ps tail,
    trace st' = passes_log ps ++ tail /\ in_progress (worker st') tail /\
    forall ch, ch ∈ closed st' <-> exists p, p ∈ ps /\ blockCh p.1 = Some ch.
Proof.
  intros (ps & tail & Ht & Hp & Hc) Hstep.
  destruct (step_trace st st' Hstep)
    as [(Ht' & Hc' & Hw)|[(Ht' & Hc' & Hw & e & Hw')|[(e & Hw & err & Hw' & Ht' & Hc')|
       [(e & err & Hw & Hw' & Ht' & Hc')|[(e & Hw & Hw' & Ht' & Hc')|
       (e & Hw & Hw' & Ht' & Hc')]]]]].
  - exists ps, tail. by rewrite Ht', Hc', Hw.
  - exists ps, tail. rewrite Ht', Hc', Hw'. rewrite Hw in Hp. done.
  - rewrite Hw in Hp. simpl in Hp. subst tail.
    exists ps, [EvPrintOut e err]. rewrite Ht', Hc', Hw', Ht.
    split; [by rewrite app_nil_r|]. done.
  - rewrite Hw in Hp. simpl in Hp. subst tail.
    exists ps, [EvPrintOut e err; EvFallback e]. rewrite Ht', Hc', Hw', Ht.
    split; [by rewrite <- app_assoc|]. split; [by exists err|done].
  - rewrite Hw in Hp. destruct Hp as [err ->].
    exists ps, [EvPrintOut e err; EvFallback e; EvFlush e]. rewrite Ht', Hc', Hw', Ht.
    split; [by rewrite <- app_assoc|]. split; [by exists err|done].
  - rewrite Hw in Hp. destruct Hp as [err ->].
    exists (ps ++ [(e, err)]), []. rewrite Ht', Hw', Ht, passes_log_snoc.
    split; [by rewrite app_nil_r, <- app_assoc|]. split; [done|].
    intros ch. rewrite Hc'. split.
    + intros Hin.
      assert (ch ∈ closed st \/ blockCh e = Some ch) as [H|H].
      { destruct (blockCh e) as [c|]; [|by left].
        apply elem_of_union in Hin as [->%elem_of_singleton|?]; [by right|by left]. }
      * apply Hc in H as (p & Hin' & Hb). exists p. split; [|exact Hb].
        apply elem_of_app. by left.
      * exists (e, err). split; [|exact H]. apply elem_of_app. right. by left.
    + intros (p & [Hin|Hin]%elem_of_app & Hb).
      * assert (ch ∈ closed st) by (apply Hc; by exists p).
        destruct (blockCh e); [apply elem_of_union; by right|done].
      * apply list_elem_of_singleton in Hin as ->. simpl in Hb. rewrite Hb.
        apply elem_of_union. left. by apply elem_of_singleton.
Qed.

(** X14 (the relay's loop): the relay works on one entry at a time.  In
    every state the process reaches, its log is a sequence of complete
    passes, each the write to [Out], the fallback step, the flush step
    and the close for one entry, followed by the steps taken so far of
    the pass in progress; and the closed channels are exactly those
    carried by the entries of the complete passes. *)
Theorem relay_one_entry_at_a_time (W : World) (progs : list (list call))
  (st : System) :
  rtc step (boot W progs) st ->
  exists ps tail,
    trace st = passes_log ps ++ tail /\ in_progress (worker st) tail /\
    forall ch, ch ∈ closed st <-> exists p, p ∈ ps /\ blockCh p.1 = Some ch.
Proof.
  intros Hreach.
  assert (exists ps tail,
     trace (boot W progs) = passes_log ps ++ tail /\
     in_progress (worker (boot W progs)) tail /\
     forall ch, ch ∈ closed (boot W progs) <->
       exists p, p ∈ ps /\ blockCh p.1 = Some ch) as H0.
  { exists [], []. split; [reflexivity|]. split; [reflexivity|].
    intros ch. simpl. split; [by intros ?%not_elem_of_empty|].
    by intros (p & ?%elem_of_nil & _). }
  generalize dependent (boot W progs). intros s0 Hreach.
  induction Hreach as [|x y z Hxy _ IH]; [done|].
  intros H0. apply IH. by eapply one_entry_at_a_time_step.
Qed.

Lemma relay_one_entry_at_a_time_witness :
  match run [ACaller 0; ACaller 0; ARelay; ARelay]%nat
          (boot (mkWorld InfoLevel (Some Buffer) Buffer false (fun _ => "") 0)
             [[Info "bar" []]]) with
  | Some st =>
    exists ps tail, trace st = passes_log ps ++ tail /\ in_progress (worker st) tail
  | None => False
  end.
Proof.
  destruct (run [ACaller 0; ACaller 0; ARelay; ARelay]%nat
              (boot (mkWorld InfoLevel (Some Buffer) Buffer false (fun _ => "") 0)
                 [[Info "bar" []]])) as [st|] eqn:E; [|vm_compute in E; discriminate E].
  destruct (relay_one_entry_at_a_time _ _ _ (run_reach _ _ _ E))
    as (ps & tail & Ht & Hp & _).
  by exists ps, tail.
Defined.

(** ** The process as a whole *)

Lemma Fatal_free_step (st st' : System) :
  Fatal_free st -> step st st' -> Fatal_free st'.
Proof.
  intros (Hnf & Hex0 & Hch & Hcl & Hent) [a Hex].
  assert (forall e, e ∈ entries_of st' -> blockCh e = None) as Hent'.
  { intros e He. destruct (exec_entries a st st' Hex) as [_ H].
    destruct (H e He) as [Hin|[Hn|(i & m & kvs & p & _ & Hc & _)]]; [by apply Hent|exact Hn|].
    exfalso. rewrite Forall_forall in Hnf.
    assert (no_Fatal (Running (Fatal m kvs :: p))) as Hbad.
    { apply Hnf. apply list_elem_of_lookup. by exists i. }
    simpl in Hbad. discriminate Hbad. }
  assert (forall i c, callers st !! i = Some c -> no_Fatal c) as Hlk.
  { intros i c Hc. rewrite Forall_forall in Hnf. apply Hnf.
    apply list_elem_of_lookup. by exists i. }
  assert (closed st' = closed st) as Hcl'.
  { destruct (step_trace st st' (ex_intro _ a Hex))
      as [(_ & Hc & _)|[(_ & Hc & _)|[(e & _ & err & _ & _ & Hc)|
         [(e & err & _ & _ & _ & Hc)|[(e & _ & _ & _ & Hc)|
         (e & Hw & _ & _ & Hc)]]]]]; try exact Hc.
    rewrite Hc. rewrite (Hent e); [reflexivity|].
    apply elem_of_entries_of. left. rewrite Hw. by left. }
  split; [|split; [|split; [|split; [by rewrite Hcl'|exact Hent']]]].
  - exec_cases Hex; cbn [callers set_caller]; try exact Hnf;
      try (apply Forall_insert; [exact Hnf|]);
      try (pose proof (Hlk _ _ Hcaller) as Hc; simpl in Hc;
           first [discriminate Hc | by destruct Hc
                 | apply andb_prop in Hc as [_ Hc]; exact Hc | exact Hc]).
  - exec_cases Hex; cbn [exited set_caller]; try exact Hexited;
      pose proof (Hlk _ _ Hcaller) as Hc; simpl in Hc; by destruct Hc.
  - exec_cases Hex; cbn [chans set_caller]; try exact Hch;
      pose proof (Hlk _ _ Hcaller) as Hc; simpl in Hc; discriminate Hc.
Qed.

Lemma Fatal_free_reach (st st' : System) :
  Fatal_free st -> rtc step st st' -> Fatal_free st'.
Proof. intros H Hr. induction Hr as [|x y z Hxy _ IH]; [exact H|]. eauto using Fatal_free_step. Qed.

(** X15 (only [Fatal] ends the process): when no goroutine's calls
    include [Fatal], no state the process reaches has called [os.Exit],
    made or closed a channel, or holds a goroutine waiting on one; and
    the process can always take a step until every goroutine is through
    its calls and the relay is idle, so it never blocks for good before
    that. *)
Theorem only_Fatal_exits (W : World) (progs : list (list call)) (st : System) :
  Forall (fun p => forallb (fun c => negb (is_Fatal c)) p = true) progs ->
  rtc step (boot W progs) st ->
  exited st = None /\ chans st = 0%nat /\ closed st = ∅ /\
  Forall no_Fatal (callers st) /\
  ((forall a, exec a st = None) <->
   worker st = RIdle /\ Forall (fun c => c = Running []) (callers st)).
Proof.
  intros Hprogs Hreach.
  assert (Fatal_free (boot W progs)) as H0.
  { split; [|split; [done|split; [done|split; [done|]]]].
    - simpl. apply Forall_fmap. eapply Forall_impl; [exact Hprogs|]. done.
    - intros e He. exfalso. apply elem_of_entries_of in He. simpl in He.
      destruct He as [He|[He|He]]; try by apply elem_of_nil in He.
      apply list_elem_of_bind in He as (c & He & Hc).
      apply list_elem_of_fmap in Hc as (p & -> & _). by apply elem_of_nil in He. }
  destruct (Fatal_free_reach _ _ H0 Hreach) as (Hnf & Hex0 & Hch & Hcl & _).
  split; [exact Hex0|]. split; [exact Hch|]. split; [exact Hcl|]. split; [exact Hnf|].
  split.
  - intros Hstuck. split.
    + specialize (Hstuck ARelay). unfold exec in Hstuck. rewrite Hex0 in Hstuck.
      unfold relay_step in Hstuck. by destruct (worker st).
    + assert (worker st = RIdle) as Hw.
      { specialize (Hstuck ARelay). unfold exec in Hstuck. rewrite Hex0 in Hstuck.
        unfold relay_step in Hstuck. by destruct (worker st). }
      apply Forall_lookup. intros i c Hc.
      specialize (Hstuck (ACaller i)). unfold exec in Hstuck. rewrite Hex0 in Hstuck.
      unfold caller_step in Hstuck. rewrite Hc, Hw in Hstuck.
      assert (no_Fatal c) as Hc'.
      { rewrite Forall_forall in Hnf. apply Hnf. apply list_elem_of_lookup. by exists i. }
      destruct c as [[|[] p]|e next| |]; try done; by destruct Hc'.
  - intros [Hw Hall] a. unfold exec. rewrite Hex0. destruct a as [|i].
    + unfold relay_step. by rewrite Hw.
    + unfold caller_step. destruct (callers st !! i) as [c|] eqn:Hc; [|reflexivity].
      rewrite Forall_lookup in Hall. by rewrite (Hall i c Hc).
Qed.

Lemma only_Fatal_exits_witness :
  match run [ACaller 0; ACaller 0; ARelay; ARelay; ARelay; ARelay]%nat
          (boot (mkWorld InfoLevel (Some Buffer) Buffer false (fun _ => "") 0)
             [[Info "bar" []]]) with
  | Some st => exited st = None /\ forall a, exec a st = None
  | None => False
  end.
Proof.
  destruct (run [ACaller 0; ACaller 0; ARelay; ARelay; ARelay; ARelay]%nat
              (boot (mkWorld InfoLevel (Some Buffer) Buffer false (fun _ => "") 0)
                 [[Info "bar" []]])) as [st|] eqn:E; [|vm_compute in E; discriminate E].
  destruct (only_Fatal_exits
              (mkWorld InfoLevel (Some Buffer) Buffer false (fun _ => "") 0)
              [[Info "bar" []]] st) as (Hex & _ & _ & _ & Hiff).
  - repeat constructor.
  - exact (run_reach _ _ _ E).
  - split; [exact Hex|]. apply Hiff.
    vm_compute in E. injection E as <-. split; [reflexivity|]. repeat constructor.
Defined.

Lemma accepted_trans (w0 w1 w2 : Writer) (t1 t2 : string) :
  accepted w0 w1 t1 -> accepted w1 w2 t2 -> accepted w0 w2 (t1 +:+ t2).
Proof.
  intros (Hd & _ & Hs & Hf & Hn & Hm) (Hd' & Hh' & Hs' & Hf' & Hn' & Hm').
  unfold accepted. rewrite Hd', Hd, app_assoc_s. repeat split; congruence.
Qed.

(** The calls of a lone caller run one after the other against a sink
    that takes its writes. *)
Lemma seq_prog_lines (prog : list call) :
  forall (W : World) (w : Writer),
  Out W = Some w -> healthy w ->
  forallb (fun c => negb (is_Fatal c)) prog = true ->
  exists w',
    accepted w w'
      (lines_from (emitted prog (currLevel W)) (DisplayTimestamp W) (clock W) (ticks W)) /\
    Out (seq_prog prog W) = Some w' /\
    defaultOut (seq_prog prog W) = defaultOut W /\
    currLevel (seq_prog prog W) = final_level prog (currLevel W) /\
    DisplayTimestamp (seq_prog prog W) = DisplayTimestamp W.
Proof.
  induction prog as [|c p IH]; intros W w HO Hh Hnf.
  - exists w. simpl. split; [by apply accepted_refl|done].
  - simpl in Hnf. apply andb_prop in Hnf as [Hc Hp].
    change (seq_prog (c :: p) W) with (seq_prog p (seq_call c W)).
    assert (forall l m kvs, l <> FatalLevel ->
      exists w',
        accepted w w'
          (lines_from
             (if currLevel W <=? l
              then mkEntry l m (kvNormalize kvs) None :: emitted p (currLevel W)
              else emitted p (currLevel W))
             (DisplayTimestamp W) (clock W) (ticks W)) /\
        Out (seq_prog p (seq_emit l m kvs W)) = Some w' /\
        defaultOut (seq_prog p (seq_emit l m kvs W)) = defaultOut W /\
        currLevel (seq_prog p (seq_emit l m kvs W)) = final_level p (currLevel W) /\
        DisplayTimestamp (seq_prog p (seq_emit l m kvs W)) = DisplayTimestamp W) as Hemit.
    { intros l m kvs Hl. unfold seq_emit, logEntry, GetLevel.
      destruct (currLevel W <=? l) eqn:Hle.
      - destruct (relay_body_accepted (mkEntry l m (kvNormalize kvs) None) W w HO Hh Hl)
          as (w1 & Hacc1 & ->).
        destruct (IH (mkWorld (currLevel W) (Some w1) (defaultOut W)
                        (DisplayTimestamp W) (clock W) (ticks (tick W))) w1)
          as (w' & Hacc & H1 & H2 & H3 & H4);
          [reflexivity|apply Hacc1|exact Hp|].
        exists w'. cbn [currLevel DisplayTimestamp clock ticks defaultOut tick] in *.
        split; [|done]. cbn [lines_from]. eapply accepted_trans; [exact Hacc1|exact Hacc].
      - apply (IH W w HO Hh Hp). }
    destruct c as [m kvs|m kvs|m kvs|m kvs|m kvs|l]; try discriminate Hc;
      cbn [seq_call emitted emit_level final_level];
      try (apply Hemit; discriminate).
    destruct (IH (set_currLevel l W) w HO Hh Hp) as (w' & Hacc & H1 & H2 & H3 & H4).
    exists w'. done.
Qed.

Lemma relay_pass (e : entry) (st : System) :
  worker st = RGot e -> exited st = None ->
  exists st', run [ARelay; ARelay; ARelay; ARelay] st = Some st' /\
    callers st' = callers st /\ worker st' = RIdle /\ exited st' = None.
Proof.
  intros Hw Hex. destruct st as [W r cs n cl tr ex]. simpl in Hw, Hex. subst r ex.
  eexists. split; [|split; [|split]].
  - unfold run. unfold exec at 1. cbn [exited]. unfold relay_step at 1. cbn [worker].
    unfold exec at 1. cbn [exited]. unfold relay_step at 1. cbn [worker].
    unfold exec at 1. cbn [exited]. unfold relay_step at 1. cbn [worker].
    unfold exec at 1. cbn [exited]. unfold relay_step at 1. cbn [worker].
    reflexivity.
  - reflexivity.
  - reflexivity.
  - reflexivity.
Qed.

Lemma run_app (s1 s2 : list actor) (st : System) :
  run (s1 ++ s2) st = match run s1 st with Some st' => run s2 st' | None => None end.
Proof.
  revert st. induction s1 as [|a s1 IH]; intros st; [reflexivity|].
  simpl. destruct (exec a st); [apply IH|reflexivity].
Qed.

(** A lone caller without [Fatal] can always be run to the end. *)
Lemma lone_caller_drains (prog : list call) :
  forall st : System,
  callers st = [Running prog] -> worker st = RIdle -> exited st = None ->
  forallb (fun c => negb (is_Fatal c)) prog = true ->
  exists sched st', run sched st = Some st' /\ quiescent st'.
Proof.
  induction prog as [|c p IH]; intros st Hc Hw Hex Hnf.
  - exists [], st. by split.
  - simpl in Hnf. apply andb_prop in Hnf as [Hc0 Hp].
    assert (forall l m kvs,
      exec (ACaller 0) st = Some (set_caller 0 (emit l m kvs p (world st)) st) ->
      exists sched st', run sched st = Some st' /\ quiescent st') as Hemit.
    { intros l m kvs Hstep. unfold emit in Hstep.
      destruct (logEntry l m kvs None (world st)) as [e|].
      - set (st1 := set_caller 0 (Sending e (Running p)) st) in *.
        set (st2 := mkSystem (world st1) (RGot e) (<[0%nat := Running p]> (callers st1))
                        (chans st1) (closed st1) (trace st1) (exited st1)).
        assert (exec (ACaller 0) st1 = Some st2) as Hstep2.
        { unfold exec, caller_step, st2, st1, set_caller.
          cbn [exited callers worker world chans closed trace]. by rewrite Hex, Hc, Hw. }
        destruct (relay_pass e st2 eq_refl Hex) as (st3 & Hrun3 & Hc3 & Hw3 & Hex3).
        destruct (IH st3) as (sched & st' & Hrun & Hq); [|exact Hw3|exact Hex3|exact Hp|].
        { rewrite Hc3. unfold st2, st1, set_caller. cbn [callers]. by rewrite Hc. }
        exists (ACaller 0 :: ACaller 0 :: [ARelay; ARelay; ARelay; ARelay] ++ sched)%nat, st'.
        split; [|exact Hq].
        change (run (ACaller 0 :: ACaller 0 :: [ARelay; ARelay; ARelay; ARelay] ++ sched)%nat st)
          with (match exec (ACaller 0) st with
                | Some a => match exec (ACaller 0) a with
                            | Some b => run ([ARelay; ARelay; ARelay; ARelay] ++ sched) b
                            | None => None
                            end
                | None => None
                end).
        rewrite Hstep, Hstep2, run_app. by rewrite Hrun3.
      - destruct (IH (set_caller 0 (Running p) st)) as (sched & st' & Hrun & Hq);
          [|exact Hw|exact Hex|exact Hp|].
        { unfold set_caller. cbn [callers]. by rewrite Hc. }
        exists (ACaller 0 :: sched)%nat, st'. split; [|exact Hq].
        cbn [run]. by rewrite Hstep. }
    destruct c as [m kvs|m kvs|m kvs|m kvs|m kvs|l]; try discriminate Hc0;
      try (eapply Hemit; unfold exec, caller_step; rewrite Hex, Hc; reflexivity).
    destruct (IH (mkSystem (set_currLevel l (world st)) (worker st)
                    (<[0%nat := Running p]> (callers st)) (chans st) (closed st)
                    (trace st) (exited st))) as (sched & st' & Hrun & Hq);
      [|exact Hw|exact Hex|exact Hp|].
    { cbn [callers]. by rewrite Hc. }
    exists (ACaller 0 :: sched)%nat, st'. split; [|exact Hq].
    cbn [run]. unfold exec, caller_step. rewrite Hex, Hc in Hrun |- *.
    cbn [lookup list_lookup]. exact Hrun.
Qed.

(** X16 (one caller, first in first out): one goroutine makes the calls
    [prog], none of them [Fatal], and [Out] is a sink of its own that
    takes every write. However the goroutine and the relay are
    interleaved, once both are through [Out] holds what it held before
    followed by exactly one line for each call at or above the threshold
    in force at that call, in the order of the calls, a [SetLevel] among
    them counting for the calls after it; the default sink is untouched
    and the threshold is the one of the last [SetLevel]. Such an end can
    always be reached. *)
Theorem lone_caller_lines_in_call_order (W : World) (w : Writer) (prog : list call) :
  Out W = Some w -> healthy w ->
  forallb (fun c => negb (is_Fatal c)) prog = true ->
  (forall st, rtc step (boot W [prog]) st -> quiescent st ->
     w_data (out_writer (world st)) =
       w_data w +:+ lines_from (emitted prog (currLevel W)) (DisplayTimestamp W)
                      (clock W) (ticks W) /\
     healthy (out_writer (world st)) /\
     Out (world st) <> None /\
     defaultOut (world st) = defaultOut W /\
     currLevel (world st) = final_level prog (currLevel W)) /\
  (exists sched st, run sched (boot W [prog]) = Some st /\ quiescent st).
Proof.
  intros HO Hh Hnf. split.
  - intros st Hreach Hq.
    rewrite (lone_caller_quiescent W prog st Hnf Hreach Hq).
    destruct (seq_prog_lines prog W w HO Hh Hnf)
      as (w' & (Hd & Hh' & _) & HO' & Hdef & Hlvl & _).
    unfold out_writer. rewrite HO'. done.
  - apply (lone_caller_drains prog (boot W [prog])); done.
Qed.

Lemma lone_caller_lines_in_call_order_witness :
  exists sched st,
    run sched
      (boot (mkWorld InfoLevel (Some Buffer) Buffer false (fun _ => "") 0)
         [[Debug "foo" []; Info "bar" []; CallSetLevel ErrorLevel; Warn "baz" [];
           Error "buz" [Some {[ "a" := VString "b" ]}]]]) = Some st /\
    quiescent st /\
    w_data (out_writer (world st)) =
      "~ INFO -- bar" +:+ newline +:+ "~ ERROR -- buz -- a=" +:+ String dquote "b"
        +:+ String dquote "" +:+ newline.
Proof.
  destruct (lone_caller_lines_in_call_order
              (mkWorld InfoLevel (Some Buffer) Buffer false (fun _ => "") 0) Buffer
              [Debug "foo" []; Info "bar" []; CallSetLevel ErrorLevel; Warn "baz" [];
               Error "buz" [Some {[ "a" := VString "b" ]}]])
    as [Hall (sched & st & Hrun & Hq)].
  - reflexivity.
  - constructor.
  - reflexivity.
  - exists sched, st. split; [exact Hrun|]. split; [exact Hq|].
    destruct (Hall st (run_reach _ _ _ Hrun) Hq) as [-> _].
    vm_compute. reflexivity.
Defined.
